(** * DualCaseIndex: the casefilter index and search engine

    A shallow embedding of [prep_casefilter.c] and [search_casefilter.c]:
    the nibble codec, the SWAR Hamming distance, the two CSR inverted
    indices built by [casefilter_finalize], the on-disk format, and the
    two-phase search with its generational visited-set.

    Conventions of the embedding.
    - [uint32_t] and [uint64_t] values are integers of [Z] with the
      wrap-around written out ([wrap32], [wrap64]).  [int] values are
      integers of [Z]; signed overflow is undefined in C and the theorems
      keep every [int] within range.
    - A C array is a pointer without a length, so an array is a function
      from indices to values ([arr]); a store [a[i] = v] is [upd a i v].
      Memory returned by [malloc] is modelled as zero-filled.
    - A [const char *] argument is the list of the bytes it points to;
      reading past the list yields 0, which also serves as the terminator.
    - A [for (i = 0; i < n; ++i)] loop is a left fold over [range n]. *)

From Stdlib Require Import String ZArith List Lia Bool Permutation
  FunctionalExtensionality.
Import ListNotations.
Local Open Scope Z_scope.

(** ** Machine integers and arrays *)

Definition wrap32 (x : Z) : Z := x mod 4294967296.
Definition wrap64 (x : Z) : Z := x mod 18446744073709551616.

(** The conversion [(int)x] of an unsigned 32-bit value. *)
Definition to_int (x : Z) : Z :=
  if x <? 2147483648 then x else x - 4294967296.

Definition arr (A : Type) : Type := Z -> A.

Definition upd {A : Type} (a : arr A) (i : Z) (v : A) : arr A :=
  fun j => if j =? i then v else a j.

Definition zeros : arr Z := fun _ => 0.

(** The indices [0, 1, ..., n-1] of a counting loop. *)
Definition range (n : nat) : list Z := map Z.of_nat (seq 0 n).

(** A loop whose body may return from the enclosing function: the fold
    stops at the first [Some]. *)
Fixpoint loop_until {A S R : Type} (body : A -> S -> S * option R)
         (l : list A) (s : S) : S * option R :=
  match l with
  | [] => (s, None)
  | x :: l' =>
      match body x s with
      | (s', Some r) => (s', Some r)
      | (s', None) => loop_until body l' s'
      end
  end.

(** ** types.h and index.h *)

Definition KEYWORD_LEN : Z := 15.
Definition MAX_EDIT_DIST : Z := 3.
Definition INIT_CAPACITY : Z := 1024.
Definition CASEFILTER_HPAIR_COUNT : Z := 10.
Definition CASEFILTER_H_KEY_SPACE : Z := 1000000.
Definition CASEFILTER_DEL_KEY_SPACE : Z := 10000000.

Record HIndex : Type := mkHIndex {
  h_key_space : Z;
  h_pair_count : Z;
  h_offsets : arr Z;
  h_counts : arr Z;
  h_ids : arr Z
}.

Record DelIndex : Type := mkDelIndex {
  d_key_space : Z;
  d_offsets : arr Z;
  d_counts : arr Z;
  d_idpos : arr Z
}.

Record CaseFilterIndex : Type := mkIndex {
  keywords : arr (list Z);
  keyword_count : Z;
  keyword_cap : Z;
  codes : arr Z;
  hidx : HIndex;
  del7 : DelIndex
}.

(** ** Nibble codec *)

(** [word[i]]: byte [i] of a character buffer. *)
Definition char_at (word : list Z) (i : Z) : Z := nth (Z.to_nat i) word 0.

(** [(uint64_t)(c - 'A') & 0xF] *)
Definition nib (c : Z) : Z := Z.land (wrap64 (c - 65)) 15.

(** [pack_keyword], the same loop as in [casefilter_insert] and
    [casefilter_deserialize]. *)
Definition pack_keyword (word : list Z) : Z :=
  fold_left
    (fun v i => Z.lor v (wrap64 (Z.shiftl (nib (char_at word i)) (i * 4))))
    (range 15) 0.

Definition casefilter_pack_delete (code del_pos : Z) : Z :=
  let low_mask :=
    if del_pos =? 0 then 0 else wrap64 (wrap64 (Z.shiftl 1 (del_pos * 4)) - 1) in
  let lower := Z.land code low_mask in
  let upper := Z.shiftr code ((del_pos + 1) * 4) in
  Z.lor lower (wrap64 (Z.shiftl upper (del_pos * 4))).

(** ** SWAR Hamming distance *)

Definition popcount64 (x : Z) : Z :=
  let x := wrap64 (x - Z.land (Z.shiftr x 1) 0x5555555555555555) in
  let x := wrap64 (Z.land x 0x3333333333333333
                   + Z.land (Z.shiftr x 2) 0x3333333333333333) in
  let x := Z.land (wrap64 (x + Z.shiftr x 4)) 0x0F0F0F0F0F0F0F0F in
  Z.shiftr (wrap64 (x * 0x0101010101010101)) 56.

Definition hamming_packed15 (a b : Z) : Z :=
  let x := Z.lxor a b in
  let x := Z.lor x (Z.shiftr x 1) in
  let x := Z.lor x (Z.shiftr x 2) in
  let x := Z.land x 0x1111111111111111 in
  popcount64 x.

Definition hamming_packed14 (a b : Z) : Z :=
  let x := Z.lxor a b in
  let x := Z.lor x (Z.shiftr x 1) in
  let x := Z.lor x (Z.shiftr x 2) in
  let x := Z.land x 0x11111111111111 in
  popcount64 x.

(** ** Reference notions used by the statements *)

(** A character of the alphabet [{A..J}]. *)
Definition is_AJ (c : Z) : Prop := 65 <= c <= 74.

(** A word of [n] characters over [{A..J}]. *)
Definition word_over (n : nat) (w : list Z) : Prop :=
  length w = n /\ Forall is_AJ w.

(** The nibble code of a character list: character [i] in bits
    [4i, 4i+4) as [w[i] - 'A']. *)
Fixpoint encode (w : list Z) : Z :=
  match w with
  | [] => 0
  | c :: w' => (c - 65) + 16 * encode w'
  end.

(** Character-wise Hamming distance. *)
Fixpoint hamming (a b : list Z) : Z :=
  match a, b with
  | x :: a', y :: b' => (if x =? y then 0 else 1) + hamming a' b'
  | _, _ => 0
  end.

(** The string obtained by removing the character at position [p]. *)
Definition remove_at (p : nat) (w : list Z) : list Z :=
  firstn p w ++ skipn (S p) w.

(** ** Keys and slots *)

Definition pair_i : list Z := [0; 0; 0; 0; 1; 1; 1; 2; 2; 3].
Definition pair_j : list Z := [1; 2; 3; 4; 2; 3; 4; 3; 4; 4].

(** The loop shared by [pack_key6] and [pack_key7]:
    [v += (((uint32_t)key[i] - 'A') & 0xF) * mul; mul *= 10u]. *)
Definition pack_key_loop (n : nat) (key : list Z) : Z :=
  fst (fold_left
         (fun vm i =>
            let '(v, mul) := vm in
            (wrap32 (v + Z.land (wrap32 (char_at key i - 65)) 15 * mul),
             wrap32 (mul * 10)))
         (range n) (0, 1)).

Definition pack_key6 (key : list Z) : Z := pack_key_loop 6 key.
Definition pack_key7 (key : list Z) : Z := pack_key_loop 7 key.

(** [memcpy(dst, src + from, n)] as the list of the [n] bytes read. *)
Definition bytes_from (src : list Z) (from : Z) (n : nat) : list Z :=
  map (fun t => char_at src (from + t)) (range n).

(** [blocks[b]]: the three characters of block [b]. *)
Definition block (w : list Z) (b : Z) : list Z := bytes_from w (b * 3) 3.

(** [key]: blocks [pair_i[p]] and [pair_j[p]] side by side. *)
Definition pair_key (w : list Z) (p : Z) : list Z :=
  block w (nth (Z.to_nat p) pair_i 0) ++ block w (nth (Z.to_nat p) pair_j 0).

(** [(int)(pack_key6(key) + (uint32_t)p * H_KEY_SPACE)] *)
Definition pair_slot (w : list Z) (p : Z) : Z :=
  to_int (wrap32 (pack_key6 (pair_key w p)
                  + wrap32 (wrap32 p * CASEFILTER_H_KEY_SPACE))).

(** [del]: the 14 characters of [w] left after skipping index [pos]. *)
Definition del_string (w : list Z) (pos : Z) : list Z :=
  map (char_at w) (filter (fun i => negb (i =? pos)) (range 15)).

Definition left7 (del : list Z) : list Z := bytes_from del 0 7.
Definition right7 (del : list Z) : list Z := bytes_from del 7 7.

(** [((uint32_t)id & 0xFFFFFu) | ((uint32_t)pos << 20)] *)
Definition pack_idpos (id pos : Z) : Z :=
  Z.lor (Z.land (wrap32 id) 0xFFFFF) (wrap32 (Z.shiftl (wrap32 pos) 20)).

(** ** Builder *)

Definition ensure_keyword_cap (idx : CaseFilterIndex) : CaseFilterIndex :=
  if keyword_count idx <? keyword_cap idx then idx
  else
    let new_cap := if keyword_cap idx =? 0 then 1024 else keyword_cap idx * 2 in
    mkIndex (keywords idx) (keyword_count idx) new_cap (codes idx)
            (hidx idx) (del7 idx).

Definition empty_hindex : HIndex := mkHIndex 0 0 zeros zeros zeros.
Definition empty_delindex : DelIndex := mkDelIndex 0 zeros zeros zeros.

Definition casefilter_create (capacity : Z) : CaseFilterIndex :=
  mkIndex (fun _ => repeat 0 16) 0
          (if capacity >? 0 then capacity else 1024)
          zeros empty_hindex empty_delindex.

(** The 16-byte keyword record: [memcpy] of 15 bytes, then the NUL. *)
Definition keyword_record (word : list Z) : list Z :=
  bytes_from word 0 15 ++ [0].

(** [word] is [None] for a NULL pointer.  A NULL [idx] has no state to
    change and is not modelled. *)
Definition casefilter_insert (idx : CaseFilterIndex) (word : option (list Z))
  : CaseFilterIndex :=
  match word with
  | None => idx
  | Some word =>
      let idx := ensure_keyword_cap idx in
      let n := keyword_count idx in
      (* the packing loop, written out in the source, is that of
         [pack_keyword] *)
      let code := pack_keyword word in
      mkIndex (upd (keywords idx) n (keyword_record word)) (n + 1)
              (keyword_cap idx) (upd (codes idx) n code)
              (hidx idx) (del7 idx)
  end.

Definition build_hindex (idx : CaseFilterIndex) : CaseFilterIndex :=
  let key_space := CASEFILTER_H_KEY_SPACE in
  let pair_count := CASEFILTER_HPAIR_COUNT in
  let slots := key_space * pair_count in
  let n := Z.to_nat (keyword_count idx) in
  (* 1st pass: count *)
  let counts :=
    fold_left
      (fun counts id =>
         let w := keywords idx id in
         fold_left
           (fun counts p =>
              let slot := pair_slot w p in
              upd counts slot (wrap32 (counts slot + 1)))
           (range 10) counts)
      (range n) zeros in
  (* prefix sum -> offsets *)
  let offsets :=
    fold_left
      (fun offsets i => upd offsets (i + 1) (offsets i + to_int (counts i)))
      (range (Z.to_nat slots)) (upd zeros 0 0) in
  let cursor : arr Z :=
    fun i => if (0 <=? i) && (i <? slots) then offsets i else 0 in
  (* 2nd pass: fill postings *)
  let filled :=
    fold_left
      (fun st id =>
         let w := keywords idx id in
         fold_left
           (fun st p =>
              let '(ids, cursor) := st in
              let slot := pair_slot w p in
              (upd ids (cursor slot) id,
               upd cursor slot (cursor slot + 1)))
           (range 10) st)
      (range n) (zeros, cursor) in
  mkIndex (keywords idx) (keyword_count idx) (keyword_cap idx) (codes idx)
          (mkHIndex key_space pair_count offsets counts (fst filled))
          (del7 idx).

Definition build_dindex (idx : CaseFilterIndex) : CaseFilterIndex :=
  let key_space := CASEFILTER_DEL_KEY_SPACE in
  let n := Z.to_nat (keyword_count idx) in
  (* 1st pass: count *)
  let counts :=
    fold_left
      (fun counts id =>
         let w := keywords idx id in
         fold_left
           (fun counts pos =>
              let del := del_string w pos in
              let l := pack_key7 (left7 del) in
              let counts := upd counts l (wrap32 (counts l + 1)) in
              let r := pack_key7 (right7 del) in
              upd counts r (wrap32 (counts r + 1)))
           (range 15) counts)
      (range n) zeros in
  (* prefix sum -> offsets *)
  let offsets :=
    fold_left
      (fun offsets i => upd offsets (i + 1) (offsets i + to_int (counts i)))
      (range (Z.to_nat key_space)) (upd zeros 0 0) in
  let cursor : arr Z :=
    fun i => if (0 <=? i) && (i <? key_space) then offsets i else 0 in
  (* 2nd pass: fill postings *)
  let filled :=
    fold_left
      (fun st id =>
         let w := keywords idx id in
         fold_left
           (fun st pos =>
              let '(idpos, cursor) := st in
              let del := del_string w pos in
              let packed_idpos := pack_idpos id pos in
              let lslot := to_int (pack_key7 (left7 del)) in
              let rslot := to_int (pack_key7 (right7 del)) in
              let idpos := upd idpos (cursor lslot) packed_idpos in
              let cursor := upd cursor lslot (cursor lslot + 1) in
              let idpos := upd idpos (cursor rslot) packed_idpos in
              let cursor := upd cursor rslot (cursor rslot + 1) in
              (idpos, cursor))
           (range 15) st)
      (range n) (zeros, cursor) in
  mkIndex (keywords idx) (keyword_count idx) (keyword_cap idx) (codes idx)
          (hidx idx)
          (mkDelIndex key_space offsets counts (fst filled)).

Definition casefilter_finalize (idx : CaseFilterIndex) : CaseFilterIndex :=
  build_dindex (build_hindex idx).

(** The index the prep driver builds: every word inserted in order into a
    fresh index, then finalized. *)
Definition build_index (cap : Z) (ws : list (list Z)) : CaseFilterIndex :=
  casefilter_finalize
    (fold_left (fun idx w => casefilter_insert idx (Some w)) ws
               (casefilter_create cap)).

(** ** Serializer *)

(** The bytes of a 16-, 24- or 32-bit value, least significant first
    (the reference targets little-endian hosts). *)
Definition le_bytes (n : nat) (x : Z) : list Z :=
  map (fun t => Z.land (Z.shiftr x (8 * t)) 255) (range n).

(** [fwrite] of an [int] or [uint32_t]. *)
Definition le32 (x : Z) : list Z := le_bytes 4 (wrap32 x).

(** [fwrite] of a [uint16_t] obtained by the cast [(uint16_t)x]. *)
Definition le16 (x : Z) : list Z := le_bytes 2 (x mod 65536).

(** The three bytes [v & 0xFF, (v >> 8) & 0xFF, (v >> 16) & 0xFF]. *)
Definition le24 (v : Z) : list Z := le_bytes 3 v.

Definition max_count (counts : arr Z) (slots : Z) : Z :=
  fold_left (fun maxc i => if counts i >? maxc then counts i else maxc)
            (range (Z.to_nat slots)) 0.

Definition serialize_counts (counts : arr Z) (slots : Z) : list Z :=
  let maxc := max_count counts slots in
  let count_bits := if maxc <=? 65535 then 16 else 32 in
  [count_bits]
  ++ (if count_bits =? 16
      then flat_map (fun i => le16 (counts i)) (range (Z.to_nat slots))
      else flat_map (fun i => le32 (counts i)) (range (Z.to_nat slots))).

Definition serialize_hindex (h : HIndex) : list Z :=
  let slots := h_key_space h * h_pair_count h in
  let total_ids := h_offsets h slots in
  le32 (h_key_space h) ++ le32 (h_pair_count h)
  ++ serialize_counts (h_counts h) slots
  ++ le32 total_ids
  ++ flat_map (fun i => le24 (wrap32 (h_ids h i))) (range (Z.to_nat total_ids)).

Definition serialize_dindex (d : DelIndex) : list Z :=
  let total_ids := d_offsets d (d_key_space d) in
  le32 (d_key_space d)
  ++ serialize_counts (d_counts d) (d_key_space d)
  ++ le32 total_ids
  ++ flat_map (fun i => le24 (Z.land (d_idpos d i) 0xFFFFFF))
              (range (Z.to_nat total_ids)).

(** The bytes written to [out]. *)
Definition casefilter_serialize (idx : CaseFilterIndex) : list Z :=
  le32 (keyword_count idx)
  ++ flat_map (fun i => bytes_from (keywords idx i) 0 16)
              (range (Z.to_nat (keyword_count idx)))
  ++ serialize_hindex (hidx idx)
  ++ serialize_dindex (del7 idx).

(** ** Deserializer *)

(** What a step of the loader comes to: it goes through, it fails (a
    short read or a failed check, the paths that end in [return NULL]), or
    it writes through a NULL pointer and the process is lost. *)
Inductive outcome (A : Type) : Type :=
| Done (a : A)
| Failed
| Crashed.

Arguments Done {A} a.
Arguments Failed {A}.
Arguments Crashed {A}.

Definition bind {A B : Type} (o : outcome A) (f : A -> outcome B)
  : outcome B :=
  match o with
  | Done a => f a
  | Failed => Failed
  | Crashed => Crashed
  end.

Notation "'let*' pat ':=' o 'in' f" :=
  (bind o (fun x => match x with pat => f end))
  (at level 10, pat pattern, o at level 200, f at level 200).

(** [fread_exact] of [n] bytes, [n] a [size_t]: the bytes read and the rest
    of the stream, or [None] on a short read. *)
Definition fread_exact (n : Z) (inp : list Z) : option (list Z * list Z) :=
  if Z.of_nat (length inp) <? n then None
  else Some (firstn (Z.to_nat n) inp, skipn (Z.to_nat n) inp).

(** A read into a field of the index or into a local buffer. *)
Definition fread_field (n : Z) (inp : list Z) : outcome (list Z * list Z) :=
  match fread_exact n inp with
  | Some r => Done r
  | None => Failed
  end.

(** [malloc] of [count] elements of [elt] bytes and [fread_exact] of
    [count] elements into the block.  [count] is an [int]: when it is
    negative its conversion to [size_t] is more than an allocation or a
    stream holds, [malloc] returns NULL, which the code does not check, and
    [fread] copies what is left of the stream through it; at the end of the
    stream nothing is copied and the read is short.  Other allocations are
    assumed to succeed. *)
Definition fread_array (elt count : Z) (inp : list Z)
  : outcome (list Z * list Z) :=
  if count <? 0 then
    match inp with
    | [] => Failed
    | _ :: _ => Crashed
    end
  else fread_field (elt * count) inp.

(** The value of little-endian bytes. *)
Fixpoint le_value (bs : list Z) : Z :=
  match bs with
  | [] => 0
  | b :: bs' => b + 256 * le_value bs'
  end.

(** An [int] read from four bytes. *)
Definition int_of_bytes (bs : list Z) : Z := to_int (le_value bs).

(** Element [i] of a byte buffer seen as an array of [w]-byte values. *)
Definition elem (w : Z) (bs : list Z) (i : Z) : list Z :=
  bytes_from bs (w * i) (Z.to_nat w).

(** [a + b] and [a * b] on [int], as the compiled code computes them: the
    result is taken modulo [2^32]. *)
Definition int_add (a b : Z) : Z := to_int (wrap32 (a + b)).
Definition int_mul (a b : Z) : Z := to_int (wrap32 (a * b)).

(** Reads the count-width byte and the counts of [slots] slots. *)
Definition read_counts (slots : Z) (inp : list Z)
  : outcome (arr Z * list Z) :=
  let* (cb, inp) := fread_field 1 inp in
  let count_bits := char_at cb 0 in
  if count_bits =? 16 then
    let* (tmp, inp) := fread_array 2 slots inp in
    Done (fold_left (fun counts i => upd counts i (le_value (elem 2 tmp i)))
                    (range (Z.to_nat slots)) zeros,
          inp)
  else
    let* (buf, inp) := fread_array 4 slots inp in
    Done ((fun i => if (0 <=? i) && (i <? slots)
                    then le_value (elem 4 buf i) else 0),
          inp).

(** [offsets[0] = 0; offsets[i + 1] = offsets[i] + (int)counts[i]] *)
Definition prefix_offsets (counts : arr Z) (slots : Z) : arr Z :=
  fold_left
    (fun offsets i => upd offsets (i + 1) (int_add (offsets i) (to_int (counts i))))
    (range (Z.to_nat slots)) (upd zeros 0 0).

(** The loop reading [total] three-byte payload entries. *)
Definition read_payload (total : Z) (inp : list Z)
  : outcome (arr Z * list Z) :=
  fold_left
    (fun acc i =>
       let* (a, inp) := acc in
       let* (buf, inp) := fread_field 3 inp in
       Done (upd a i (Z.lor (Z.lor (char_at buf 0)
                                   (Z.shiftl (char_at buf 1) 8))
                            (Z.shiftl (char_at buf 2) 16)),
             inp))
    (range (Z.to_nat total)) (Done (zeros, inp)).

(** The pair block.  [offsets] has [h_slots + 1] entries: when that number
    is negative in [int] the block is NULL, unchecked, and [offsets[0] = 0]
    is written through it.  A negative [h_total_ids] gives a NULL [ids] that
    the loop, which does not run, never writes. *)
Definition deserialize_hindex (inp : list Z) : outcome (HIndex * list Z) :=
  let* (b, inp) := fread_field 4 inp in
  let key_space := int_of_bytes b in
  let* (b, inp) := fread_field 4 inp in
  let pair_count := int_of_bytes b in
  let h_slots := int_mul key_space pair_count in
  let* (counts, inp) := read_counts h_slots inp in
  if int_add h_slots 1 <? 0 then Crashed
  else
  let offsets := prefix_offsets counts h_slots in
  let* (b, inp) := fread_field 4 inp in
  let h_total_ids_file := int_of_bytes b in
  let h_total_ids := offsets h_slots in
  if negb (h_total_ids =? h_total_ids_file) then Failed
  else
    let* (ids, inp) := read_payload h_total_ids inp in
    Done (mkHIndex key_space pair_count offsets counts ids, inp).

(** The deletion block, with the same steps. *)
Definition deserialize_dindex (inp : list Z) : outcome (DelIndex * list Z) :=
  let* (b, inp) := fread_field 4 inp in
  let key_space := int_of_bytes b in
  let* (counts, inp) := read_counts key_space inp in
  if int_add key_space 1 <? 0 then Crashed
  else
  let offsets := prefix_offsets counts key_space in
  let* (b, inp) := fread_field 4 inp in
  let del_total_ids_file := int_of_bytes b in
  let del_total_ids := offsets key_space in
  if negb (del_total_ids =? del_total_ids_file) then Failed
  else
    let* (idpos, inp) := read_payload del_total_ids inp in
    Done (mkDelIndex key_space offsets counts idpos, inp).

(** [casefilter_deserialize] with the stream passed in and out: the index
    read and the unread rest of the stream, [Failed] for the NULL result,
    [Crashed] for the write through a NULL block. *)
Definition casefilter_deserialize_from (inp : list Z)
  : outcome (CaseFilterIndex * list Z) :=
  let* (b, inp) := fread_field 4 inp in
  let keyword_count := int_of_bytes b in
  let* (kw, inp) := fread_array 16 keyword_count inp in
  let keywords : arr (list Z) :=
    fun i => if (0 <=? i) && (i <? keyword_count)
             then elem 16 kw i else repeat 0 16 in
  let codes :=
    fold_left (fun codes i => upd codes i (pack_keyword (keywords i)))
              (range (Z.to_nat keyword_count)) zeros in
  let* (h, inp) := deserialize_hindex inp in
  let* (d, inp) := deserialize_dindex inp in
  Done (mkIndex keywords keyword_count keyword_count codes h d, inp).

(** The index [casefilter_deserialize] returns, when it returns one: [None]
    when it returns NULL and when it does not return. *)
Definition casefilter_deserialize (inp : list Z) : option CaseFilterIndex :=
  match casefilter_deserialize_from inp with
  | Done (idx, _) => Some idx
  | Failed | Crashed => None
  end.

(** ** Search engine *)

(** The function-local statics [visited_buf], [visited_cap] and [gen].
    [visited_buf] is [None] while it is NULL. *)
Record SearchState : Type := mkState {
  visited_buf : option (arr Z);
  visited_cap : Z;
  gen : Z
}.

Definition initial_state : SearchState := mkState None 0 1.

Fixpoint strlen (s : list Z) : Z :=
  match s with
  | [] => 0
  | c :: s' => if c =? 0 then 0 else 1 + strlen s'
  end.

(** [memset(visited_buf, 0, sizeof(uint32_t) * visited_cap)] *)
Definition memset0 (a : arr Z) (cap : Z) : arr Z :=
  fun j => if (0 <=? j) && (j <? cap) then 0 else a j.

(** The indices [a, a+1, ..., b-1]. *)
Definition range_from (a b : Z) : list Z :=
  map (fun t => a + t) (range (Z.to_nat (b - a))).

(** [pairs[p].start] and [pairs[p].len]. *)
Definition pair_start (idx : CaseFilterIndex) (query : list Z) (p : Z) : Z :=
  h_offsets (hidx idx) (pair_slot query p).

Definition pair_len (idx : CaseFilterIndex) (query : list Z) (p : Z) : Z :=
  h_offsets (hidx idx) (pair_slot query p + 1) - pair_start idx query p.

(** The sort of [order] by posting length: the two nested loops with the
    conditional swap. *)
Definition sort_order (len : Z -> Z) : arr Z :=
  fold_left
    (fun order i =>
       fold_left
         (fun order j =>
            if len (order i) >? len (order j)
            then let tmp := order i in
                 upd (upd order i (order j)) j tmp
            else order)
         (range_from (i + 1) 10) order)
    (range 10)
    (fold_left (fun order p => upd order p p) (range 10) zeros).

(** The probe order of Phase A: [order[0], ..., order[9]] after the sort. *)
Definition probe_order (idx : CaseFilterIndex) (query : list Z) : list Z :=
  map (sort_order (pair_len idx query)) (range 10).

(** Case A: the loop over the ten probes. *)
Definition phase_a (idx : CaseFilterIndex) (query : list Z) (k g : Z)
           (visited : arr Z) : arr Z * option Z :=
  let qcode := pack_keyword query in
  let order := sort_order (pair_len idx query) in
  loop_until
    (fun oi visited =>
       let p := order oi in
       if pair_len idx query p =? 0 then (visited, None)
       else
         loop_until
           (fun i visited =>
              let id := h_ids (hidx idx) (pair_start idx query p + i) in
              if visited id =? g then (visited, None)
              else
                let visited := upd visited id g in
                let hd := hamming_packed15 qcode (codes idx id) in
                if hd <=? k then (visited, Some 1) else (visited, None))
           (range (Z.to_nat (pair_len idx query p))) visited)
    (range 10) visited.

(** The scan of one deletion slot in Case B. *)
Definition scan_del (idx : CaseFilterIndex) (qdel_code k g : Z) (slot : Z)
           (visited : arr Z) : arr Z * option Z :=
  let start := d_offsets (del7 idx) slot in
  let end_ := d_offsets (del7 idx) (slot + 1) in
  if end_ >? start then
    loop_until
      (fun i visited =>
         let v := d_idpos (del7 idx) (start + i) in
         let id := Z.land v 0xFFFFF in
         if visited id =? g then (visited, None)
         else
           let kwdel_code :=
             casefilter_pack_delete (codes idx id)
                                    (Z.land (Z.shiftr v 20) 0xF) in
           let hd14 := hamming_packed14 qdel_code kwdel_code in
           if 2 + hd14 <=? k then (upd visited id g, Some 1)
           else (visited, None))
      (range (Z.to_nat (end_ - start))) visited
  else (visited, None).

(** [qdel]: the two [memcpy] calls that skip [query[pos]]. *)
Definition query_del (query : list Z) (pos : Z) : list Z :=
  bytes_from query 0 (Z.to_nat pos)
  ++ bytes_from query (pos + 1) (Z.to_nat (KEYWORD_LEN - pos - 1)).

(** Case B: the loop over the fifteen deletion positions. *)
Definition phase_b (idx : CaseFilterIndex) (query : list Z) (k g : Z)
           (visited : arr Z) : arr Z * option Z :=
  let qcode := pack_keyword query in
  loop_until
    (fun pos visited =>
       let qdel_code := casefilter_pack_delete qcode pos in
       let qdel := query_del query pos in
       let lslot := to_int (pack_key7 (left7 qdel)) in
       match scan_del idx qdel_code k g lslot visited with
       | (visited, Some r) => (visited, Some r)
       | (visited, None) =>
           let rslot := to_int (pack_key7 (right7 qdel)) in
           scan_del idx qdel_code k g rslot visited
       end)
    (range 15) visited.

(** [casefilter_search] with its static state passed in and out.  [None] is
    a NULL argument.  Allocation is assumed to succeed. *)
Definition casefilter_search (st : SearchState) (idx : option CaseFilterIndex)
           (query : option (list Z)) (k : Z) : SearchState * Z :=
  match idx, query with
  | Some idx, Some query =>
      if negb (strlen query =? KEYWORD_LEN) then (st, 0)
      else
        let kw_count := keyword_count idx in
        let st :=
          if kw_count >? visited_cap st
          then mkState (Some zeros) kw_count 1
          else st in
        match visited_buf st with
        | None => (st, 0)
        | Some visited =>
            let cap := visited_cap st in
            let g := wrap32 (gen st + 1) in
            let visited := if g =? 0 then memset0 visited cap else visited in
            let g := if g =? 0 then 1 else g in
            match phase_a idx query k g visited with
            | (visited, Some r) => (mkState (Some visited) cap g, r)
            | (visited, None) =>
                let g := wrap32 (g + 1) in
                match phase_b idx query k g visited with
                | (visited, Some r) => (mkState (Some visited) cap g, r)
                | (visited, None) => (mkState (Some visited) cap g, 0)
                end
            end
        end
  | _, _ => (st, 0)
  end.

(** A run of the search driver: the queries answered one after another on
    the same static state. *)
Fixpoint search_all (st : SearchState) (idx : CaseFilterIndex)
         (qs : list (list Z)) : SearchState * list Z :=
  match qs with
  | [] => (st, [])
  | q :: qs' =>
      let '(st1, r) := casefilter_search st (Some idx) (Some q) MAX_EDIT_DIST in
      let '(st2, rs) := search_all st1 idx qs' in
      (st2, r :: rs)
  end.

(** ** Levenshtein distance *)

Definition min3 (a b c : nat) : nat := Nat.min a (Nat.min b c).

Fixpoint levenshtein (a b : list Z) : nat :=
  match a with
  | [] => length b
  | x :: a' =>
      (fix inner (b : list Z) : nat :=
         match b with
         | [] => length a
         | y :: b' =>
             min3 (S (levenshtein a' b))
                  (S (inner b'))
                  ((if Z.eqb x y then 0 else 1) + levenshtein a' b')%nat
         end) b
  end.

(** ** Auxiliary notions of the proofs *)

(** The value of a list of base-16 digits, least significant first. *)
Fixpoint digits16 (ds : list Z) : Z :=
  match ds with
  | [] => 0
  | d :: ds' => d + 16 * digits16 ds'
  end.

Fixpoint land_digits (a b : list Z) : list Z :=
  match a, b with
  | x :: a', y :: b' => Z.land x y :: land_digits a' b'
  | _, _ => []
  end.

Definition is_nibble (d : Z) : Prop := 0 <= d < 16.

(** The word with bit 0 of nibble [i] set when [bs[i]] holds. *)
Fixpoint nibble_mask (bs : list bool) : Z :=
  match bs with
  | [] => 0
  | b :: bs' => Z.b2z b + 16 * nibble_mask bs'
  end.

(** The positions at which two words differ. *)
Fixpoint differ (a b : list Z) : list bool :=
  match a, b with
  | x :: a', y :: b' => negb (x =? y) :: differ a' b'
  | _, _ => []
  end.

Fixpoint count_true (bs : list bool) : Z :=
  match bs with
  | [] => 0
  | b :: bs' => Z.b2z b + count_true bs'
  end.

(** The first three steps of the two Hamming functions, with the mask of
    the last step as a parameter. *)
Definition swar (a b mask : Z) : Z :=
  let x := Z.lxor a b in
  let x := Z.lor x (Z.shiftr x 1) in
  let x := Z.lor x (Z.shiftr x 2) in
  Z.land x mask.

Definition nibble_differ (a b : Z) : bool :=
  (xorb (Z.testbit a 0) (Z.testbit b 0) || xorb (Z.testbit a 1) (Z.testbit b 1))
  || (xorb (Z.testbit a 2) (Z.testbit b 2) || xorb (Z.testbit a 3) (Z.testbit b 3)).

(** *** Postings *)

(** A posting is a pair of the slot it is filed under and the payload
    stored.  [cnt s ps] postings of [ps] have slot [s]; [cnt_lt s ps] have
    a smaller slot. *)
Definition cnt (s : Z) (ps : list (Z * Z)) : Z :=
  Z.of_nat (length (filter (fun sv => fst sv =? s) ps)).

Definition cnt_lt (s : Z) (ps : list (Z * Z)) : Z :=
  Z.of_nat (length (filter (fun sv => fst sv <? s) ps)).

(** The payload array after scattering the postings [rev rps] with the
    initial cursor [cur0]. *)
Fixpoint place_rev (cur0 : arr Z) (rps : list (Z * Z)) : arr Z :=
  match rps with
  | [] => zeros
  | sv :: r => upd (place_rev cur0 r) (cur0 (fst sv) + cnt (fst sv) r) (snd sv)
  end.

Fixpoint psum (f : arr Z) (n : nat) : Z :=
  match n with
  | O => 0
  | S n' => psum f n' + to_int (f (Z.of_nat n'))
  end.

Definition count_step (counts : arr Z) (slot : Z) : arr Z :=
  upd counts slot (wrap32 (counts slot + 1)).

Definition scatter_step (st : arr Z * arr Z) (sv : Z * Z) : arr Z * arr Z :=
  (upd (fst st) (snd st (fst sv)) (snd sv),
   upd (snd st) (fst sv) (snd st (fst sv) + 1)).

(** *** The two posting streams of [casefilter_finalize] *)

(** The decimal value of a key, least significant digit first. *)
Fixpoint decimal (key : list Z) : Z :=
  match key with
  | [] => 0
  | c :: key' => (c - 65) + 10 * decimal key'
  end.

(** The first 15 bytes of a buffer are characters of [{A..J}]. *)
Definition valid15 (w : list Z) : Prop :=
  forall i, 0 <= i < 15 -> is_AJ (char_at w i).

(** The postings of the pair table in the order the passes emit them. *)
Definition h_postings (idx : CaseFilterIndex) : list (Z * Z) :=
  flat_map
    (fun id => map (fun p => (pair_slot (keywords idx id) p, id)) (range 10))
    (range (Z.to_nat (keyword_count idx))).

(** The postings of the deletion table in the order the passes emit them. *)
Definition d_postings (idx : CaseFilterIndex) : list (Z * Z) :=
  flat_map
    (fun id =>
       flat_map
         (fun pos =>
            let del := del_string (keywords idx id) pos in
            [(pack_key7 (left7 del), pack_idpos id pos);
             (pack_key7 (right7 del), pack_idpos id pos)])
         (range 15))
    (range (Z.to_nat (keyword_count idx))).

(** The CSR arrays of a posting stream in closed form. *)
Definition csr_offsets (slots : Z) (ps : list (Z * Z)) : arr Z :=
  fun j => if (0 <=? j) && (j <=? slots) then cnt_lt j ps else 0.

Definition csr_cursor (slots : Z) (ps : list (Z * Z)) : arr Z :=
  fun i => if (0 <=? i) && (i <? slots) then cnt_lt i ps else 0.

Definition csr_counts (ps : list (Z * Z)) : arr Z :=
  fun s => wrap32 (cnt s ps).

Definition csr_payload (slots : Z) (ps : list (Z * Z)) : arr Z :=
  place_rev (csr_cursor slots ps) (rev ps).

(** Every slot lies in [0, slots) and the stream is shorter than [2^31]. *)
Definition slots_ok (slots : Z) (ps : list (Z * Z)) : bool :=
  forallb (fun sv => (0 <=? fst sv) && (fst sv <? slots)) ps
  && (Z.of_nat (length ps) <? 2147483648).

Definition H_SLOTS : Z := CASEFILTER_H_KEY_SPACE * CASEFILTER_HPAIR_COUNT.

Definition csr_hindex (idx : CaseFilterIndex) : HIndex :=
  let ps := h_postings idx in
  mkHIndex CASEFILTER_H_KEY_SPACE CASEFILTER_HPAIR_COUNT
           (csr_offsets H_SLOTS ps) (csr_counts ps) (csr_payload H_SLOTS ps).

Definition csr_delindex (idx : CaseFilterIndex) : DelIndex :=
  let ps := d_postings idx in
  mkDelIndex CASEFILTER_DEL_KEY_SPACE
             (csr_offsets CASEFILTER_DEL_KEY_SPACE ps) (csr_counts ps)
             (csr_payload CASEFILTER_DEL_KEY_SPACE ps).

(** The index after the inserts, before [casefilter_finalize]. *)
Definition insert_all (cap : Z) (ws : list (list Z)) : CaseFilterIndex :=
  fold_left (fun idx w => casefilter_insert idx (Some w)) ws
            (casefilter_create cap).

(** The finalized index with its two tables in closed form. *)
Definition csr_index (idx : CaseFilterIndex) : CaseFilterIndex :=
  mkIndex (keywords idx) (keyword_count idx) (keyword_cap idx) (codes idx)
          (csr_hindex idx) (csr_delindex idx).



(** *** Edit scripts *)

(** [edit a b n]: an alignment of [a] with [b] that costs [n] edits
    (substitutions, deletions and insertions). *)
Inductive edit : list Z -> list Z -> nat -> Prop :=
| edit_nil : edit [] [] 0
| edit_sub x y a b n :
    edit a b n -> edit (x :: a) (y :: b) ((if Z.eqb x y then 0 else 1) + n)
| edit_del x a b n : edit a b n -> edit (x :: a) b (S n)
| edit_ins y a b n : edit a b n -> edit a (y :: b) (S n).

(** *** The exchange sort of the probe order *)

(** The conditional swap of the inner loop. *)
Definition swap_step (len : Z -> Z) (i : Z) (order : arr Z) (j : Z) : arr Z :=
  if len (order i) >? len (order j)
  then upd (upd order i (order j)) j (order i)
  else order.

(** The three facts the sort keeps: the entries are pair indices, they are
    pairwise distinct, and the first [k] entries are sorted and below all
    the later ones. *)
Definition order_ok (len : Z -> Z) (k : Z) (order : arr Z) : Prop :=
  (forall x, 0 <= x < 10 -> 0 <= order x < 10)
  /\ (forall x y, 0 <= x < 10 -> 0 <= y < 10 -> order x = order y -> x = y)
  /\ (forall x y, 0 <= x < k -> x < y < 10 -> len (order x) <= len (order y)).


(** ** Concrete words *)

(** The bytes of a string literal. *)
Definition chars (s : string) : list Z :=
  map (fun c => Z.of_nat (Ascii.nat_of_ascii c)) (list_ascii_of_string s).

Arguments chars s%_string.

(** [word_over] as a test. *)
Definition word_overb (n : nat) (w : list Z) : bool :=
  Nat.eqb (length w) n && forallb (fun c => (65 <=? c) && (c <=? 74)) w.

(** ** The probes of Phase A *)

(** One probe of Case A, the body of the loop over [oi] for the pair
    [p = order[oi]]: an empty run is skipped, the others are scanned. *)
Definition probe_pair (idx : CaseFilterIndex) (query : list Z) (k g : Z)
           (p : Z) (visited : arr Z) : arr Z * option Z :=
  let qcode := pack_keyword query in
  if pair_len idx query p =? 0 then (visited, None)
  else
    loop_until
      (fun i visited =>
         let id := h_ids (hidx idx) (pair_start idx query p + i) in
         if visited id =? g then (visited, None)
         else
           let visited := upd visited id g in
           let hd := hamming_packed15 qcode (codes idx id) in
           if hd <=? k then (visited, Some 1) else (visited, None))
      (range (Z.to_nat (pair_len idx query p))) visited.

(** ** The probe order with ties broken by pair index *)

(** The probes come in ascending order of posting length and, among probes
    of equal length, in ascending order of pair index. *)
Definition stable_probe_order (idx : CaseFilterIndex) (query : list Z) : Prop :=
  let order := probe_order idx query in
  forall x y, (x < y < 10)%nat ->
    let px := nth x order 0 in
    let py := nth y order 0 in
    pair_len idx query px <= pair_len idx query py
    /\ (pair_len idx query px = pair_len idx query py -> px < py).

(** ** Queries without candidates *)

(** None of the ten pair slots of the query holds a posting. *)
Definition pairs_empty (idx : CaseFilterIndex) (query : list Z) : bool :=
  forallb (fun p => pair_len idx query p =? 0) (range 10).

(** None of the thirty deletion slots of the query holds a posting. *)
Definition dels_empty (idx : CaseFilterIndex) (query : list Z) : bool :=
  forallb
    (fun pos =>
       let qdel := query_del query pos in
       let lslot := to_int (pack_key7 (left7 qdel)) in
       let rslot := to_int (pack_key7 (right7 qdel)) in
       negb (d_offsets (del7 idx) (lslot + 1) >? d_offsets (del7 idx) lslot)
       && negb (d_offsets (del7 idx) (rslot + 1) >? d_offsets (del7 idx) rslot))
    (range 15).

(** ** A dictionary of two words and four queries *)

Definition word_a : list Z := chars "AAAAAAAAAAAAAAA".
Definition word_b : list Z := chars "ABCDEFGHIJABCDE".

(** Shares no block and no deletion half with either word. *)
Definition query_idle : list Z := chars "CCCCCCCCCCCCCCC".

(** [word_b] rotated by one character: one deletion and one insertion away
    from [word_b], and at Hamming distance 15 from it. *)
Definition query_shift : list Z := chars "BCDEFGHIJABCDEA".

(** At Hamming distance 3 from [word_a]. *)
Definition query_near : list Z := chars "AAAAAACAACAACAA".

Definition dict_ab : list (list Z) := [word_a; word_b].

(** [word_a], then [2^31 - 2] searches for [query_idle]. *)
Definition history_shift : list (list Z) :=
  word_a :: repeat query_idle (Z.to_nat 2147483646).

(** [word_a], then [2^31 - 1] searches for [query_idle], then [word_b]. *)
Definition history_near : list (list Z) :=
  word_a :: repeat query_idle (Z.to_nat 2147483647) ++ [word_b].

(** ** Tables that survive the on-disk format *)

(** What the serializer needs of a pair table: sizes and totals that fit an
    [int], counts that fit a [uint32_t] and whose prefix sums are the
    offsets, and ids of at most 24 bits. *)
Definition hindex_ok (h : HIndex) : Prop :=
  let slots := h_key_space h * h_pair_count h in
  let total := h_offsets h slots in
  0 <= h_key_space h < 2147483648
  /\ 0 <= h_pair_count h < 2147483648
  /\ slots < 2147483647
  /\ (forall i, 0 <= i < slots -> 0 <= h_counts h i < 4294967296)
  /\ (forall j, 0 <= j <= slots -> h_offsets h j = psum (h_counts h) (Z.to_nat j))
  /\ (forall j, 0 <= j <= slots -> 0 <= h_offsets h j < 2147483648)
  /\ 0 <= total < 2147483648
  /\ (forall i, 0 <= i < total -> 0 <= h_ids h i < 16777216).

Definition dindex_ok (d : DelIndex) : Prop :=
  let slots := d_key_space d in
  let total := d_offsets d slots in
  0 <= slots < 2147483647
  /\ (forall i, 0 <= i < slots -> 0 <= d_counts d i < 4294967296)
  /\ (forall j, 0 <= j <= slots -> d_offsets d j = psum (d_counts d) (Z.to_nat j))
  /\ (forall j, 0 <= j <= slots -> 0 <= d_offsets d j < 2147483648)
  /\ 0 <= total < 2147483648.

(** Two pair tables with the same sizes, counts, offsets and ids. *)
Definition hindex_same (h h' : HIndex) : Prop :=
  let slots := h_key_space h * h_pair_count h in
  h_key_space h' = h_key_space h
  /\ h_pair_count h' = h_pair_count h
  /\ (forall i, 0 <= i < slots -> h_counts h' i = h_counts h i)
  /\ (forall j, 0 <= j <= slots -> h_offsets h' j = h_offsets h j)
  /\ (forall i, 0 <= i < h_offsets h slots -> h_ids h' i = h_ids h i).

(** Two deletion tables with the same size, counts and offsets, the
    entries of the second being the low 24 bits of those of the first. *)
Definition dindex_same (d d' : DelIndex) : Prop :=
  let slots := d_key_space d in
  d_key_space d' = d_key_space d
  /\ (forall i, 0 <= i < slots -> d_counts d' i = d_counts d i)
  /\ (forall j, 0 <= j <= slots -> d_offsets d' j = d_offsets d j)
  /\ (forall i, 0 <= i < d_offsets d slots ->
        d_idpos d' i = Z.land (d_idpos d i) 0xFFFFFF).

(** ** Readers of a byte stream *)


(** ** What the two phases look for *)

(** Some dictionary word is at Hamming distance at most 3 from the query,
    or is at Hamming distance at most 1 from it after one character is
    deleted from each. *)
Definition near_match (ws : list (list Z)) (q : list Z) : Prop :=
  exists w, In w ws
    /\ (hamming q w <= 3
        \/ exists i j : nat,
             (i < 15)%nat /\ (j < 15)%nat
             /\ hamming (remove_at i q) (remove_at j w) <= 1).

(** The visited-set is about to be reallocated, or none of its marks for
    the [n] ids exceeds the generation and the generation can take two more
    increments. *)
Definition fresh_state (n : Z) (st : SearchState) : Prop :=
  visited_cap st < n
  \/ exists vis,
       visited_buf st = Some vis
       /\ 0 <= gen st <= 4294967293
       /\ forall id, 0 <= id < n -> vis id <= gen st.

(** [fresh_state] with the bound on the generation as a parameter. *)
Definition bounded_state (n b : Z) (st : SearchState) : Prop :=
  visited_cap st < n
  \/ exists vis,
       visited_buf st = Some vis
       /\ 0 <= gen st <= b
       /\ forall id, 0 <= id < n -> vis id <= gen st.

(** ** The posting lists of a slot *)

(** The cells [ids[offsets[s]], ..., ids[offsets[s] + counts[s] - 1]]. *)
Definition h_run (idx : CaseFilterIndex) (s : Z) : list Z :=
  map (fun i => h_ids (hidx idx) (h_offsets (hidx idx) s + i))
      (range (Z.to_nat (h_counts (hidx idx) s))).

(** The cells [idpos[offsets[s]], ..., idpos[offsets[s] + counts[s] - 1]]. *)
Definition d_run (idx : CaseFilterIndex) (s : Z) : list Z :=
  map (fun i => d_idpos (del7 idx) (d_offsets (del7 idx) s + i))
      (range (Z.to_nat (d_counts (del7 idx) s))).

(** ** The documented variant of [hamming_packed14] *)

(** [hamming_packed14] as the annotated copy of the search engine has it:
    the mask covers all sixteen nibbles. *)
Definition hamming_packed14_doc (a b : Z) : Z :=
  let x := Z.lxor a b in
  let x := Z.lor x (Z.shiftr x 1) in
  let x := Z.lor x (Z.shiftr x 2) in
  let x := Z.land x 0x1111111111111111 in
  popcount64 x.

(** * Proofs *)

(** ** Counting loops *)

Lemma range_S n : range (S n) = range n ++ [Z.of_nat n].
Proof. unfold range. rewrite seq_S, map_app. reflexivity. Qed.

Lemma range_length n : length (range n) = n.
Proof. unfold range. rewrite length_map, length_seq. reflexivity. Qed.

Lemma in_range n i : In i (range n) <-> 0 <= i < Z.of_nat n.
Proof.
  unfold range. rewrite in_map_iff. split.
  - intros (k & <- & Hk). apply in_seq in Hk. lia.
  - intros H. exists (Z.to_nat i). split; [lia|]. apply in_seq. lia.
Qed.

Lemma nth_map_in {A B : Type} (f : A -> B) (l : list A) (k : nat) d d' :
  (k < length l)%nat -> nth k (map f l) d = f (nth k l d').
Proof.
  revert k. induction l as [|x l IH]; intros [|k] H; cbn in *; try lia; auto.
  apply IH. lia.
Qed.

Lemma nth_range n k d : (k < n)%nat -> nth k (range n) d = Z.of_nat k.
Proof.
  intros H. unfold range.
  rewrite (nth_map_in _ _ _ _ 0%nat) by (rewrite length_seq; lia).
  rewrite seq_nth by lia. reflexivity.
Qed.

Lemma char_at_nth w k : char_at w (Z.of_nat k) = nth k w 0.
Proof. unfold char_at. rewrite Nat2Z.id. reflexivity. Qed.

Lemma bytes_from_length w from n : length (bytes_from w from n) = n.
Proof. unfold bytes_from. rewrite length_map. apply range_length. Qed.

Lemma nth_bytes_from w from n k :
  (k < n)%nat -> nth k (bytes_from w from n) 0 = char_at w (from + Z.of_nat k).
Proof.
  intros H. unfold bytes_from.
  rewrite (nth_map_in _ _ _ _ 0) by (rewrite range_length; lia).
  rewrite nth_range by lia. reflexivity.
Qed.

(** Reading [n] consecutive bytes that lie inside the buffer. *)
Lemma bytes_from_firstn_skipn (w : list Z) (from n : nat) :
  (from + n <= length w)%nat ->
  bytes_from w (Z.of_nat from) n = firstn n (skipn from w).
Proof.
  intros H. apply (nth_ext _ _ 0 0).
  - rewrite bytes_from_length, length_firstn, length_skipn. lia.
  - intros k Hk. rewrite bytes_from_length in Hk.
    rewrite nth_bytes_from, nth_firstn, nth_skipn by lia.
    rewrite <- Nat2Z.inj_add, char_at_nth.
    destruct (Nat.ltb_spec k n); [reflexivity | lia].
Qed.

Lemma bytes_from_all (w : list Z) :
  bytes_from w 0 (length w) = w.
Proof.
  change 0 with (Z.of_nat 0).
  rewrite (bytes_from_firstn_skipn w 0 (length w)) by lia.
  cbn [skipn]. apply firstn_all.
Qed.

Lemma Forall_firstn_skipn {A : Type} (P : A -> Prop) (n : nat) (l : list A) :
  Forall P l -> Forall P (firstn n l) /\ Forall P (skipn n l).
Proof. intros H. apply Forall_app. rewrite firstn_skipn. exact H. Qed.

Lemma firstn_snoc (w : list Z) (n : nat) :
  (n < length w)%nat -> firstn (S n) w = firstn n w ++ [nth n w 0].
Proof.
  revert w. induction n as [|n IH]; intros [|x w] H; cbn in *; try lia.
  - reflexivity.
  - f_equal. apply IH. lia.
Qed.

(** ** Bit-level facts *)

Lemma pow16 (n : Z) : 0 <= n -> 2 ^ (n * 4) = 16 ^ n.
Proof. intros. rewrite Z.mul_comm, Z.pow_mul_r by lia. reflexivity. Qed.

Lemma land_low_high a b k :
  0 <= k -> 0 <= a < 2 ^ k -> Z.land a (Z.shiftl b k) = 0.
Proof.
  intros Hk Ha. apply Z.bits_inj'. intros n Hn.
  rewrite Z.land_spec, Z.bits_0.
  destruct (Z.ltb_spec n k).
  - rewrite Z.shiftl_spec_low by lia. apply andb_false_r.
  - replace a with (a mod 2 ^ k) by (apply Z.mod_small; lia).
    rewrite Z.testbit_mod_pow2 by lia.
    destruct (Z.ltb_spec n k); [lia | reflexivity].
Qed.

Lemma lor_low_high a b k :
  0 <= k -> 0 <= a < 2 ^ k -> Z.lor a (Z.shiftl b k) = a + b * 2 ^ k.
Proof.
  intros Hk Ha. rewrite <- Z.shiftl_mul_pow2 by lia.
  rewrite Z.add_nocarry_lxor, Z.lxor_lor; auto using land_low_high.
Qed.

(** ** The nibble code *)

Lemma encode_app a b :
  encode (a ++ b) = encode a + 16 ^ Z.of_nat (length a) * encode b.
Proof.
  induction a as [|x a IH]; cbn [app encode length].
  - change (Z.of_nat 0) with 0. rewrite Z.pow_0_r. lia.
  - rewrite IH, Nat2Z.inj_succ, Z.pow_succ_r by lia. ring.
Qed.

Lemma encode_bound w :
  Forall is_AJ w -> 0 <= encode w < 16 ^ Z.of_nat (length w).
Proof.
  induction 1 as [|c w Hc Hw IH]; cbn [encode length].
  - change (Z.of_nat 0) with 0. rewrite Z.pow_0_r. lia.
  - rewrite Nat2Z.inj_succ, Z.pow_succ_r by lia. unfold is_AJ in Hc. lia.
Qed.

Lemma nib_AJ c : is_AJ c -> nib c = c - 65.
Proof.
  unfold is_AJ, nib, wrap64. intros H.
  rewrite Z.mod_small by lia.
  change 15 with (Z.ones 4). rewrite Z.land_ones by lia.
  apply Z.mod_small. lia.
Qed.

Lemma pow16_mono a b : 0 <= a <= b -> 16 ^ a <= 16 ^ b.
Proof. intros. apply Z.pow_le_mono_r; lia. Qed.

(** The packing loop after [n] iterations holds the code of the first [n]
    characters. *)
Lemma pack_loop_prefix (w : list Z) (n : nat) :
  Forall is_AJ w -> (n <= length w)%nat -> (n <= 16)%nat ->
  fold_left
    (fun v i => Z.lor v (wrap64 (Z.shiftl (nib (char_at w i)) (i * 4))))
    (range n) 0
  = encode (firstn n w).
Proof.
  intros Hw. induction n as [|n IH]; intros Hn H16.
  - reflexivity.
  - rewrite range_S, fold_left_app, IH by lia. cbn [fold_left].
    assert (Hc : is_AJ (nth n w 0)).
    { rewrite Forall_forall in Hw. apply Hw, nth_In. lia. }
    rewrite char_at_nth, nib_AJ by exact Hc.
    assert (Hf : Forall is_AJ (firstn n w))
      by (apply Forall_firstn_skipn; exact Hw).
    pose proof (encode_bound _ Hf) as Hb.
    rewrite length_firstn, Nat.min_l in Hb by lia.
    assert (Hp : 16 ^ Z.of_nat n * 16 <= 16 ^ 16).
    { replace (16 ^ Z.of_nat n * 16) with (16 ^ (Z.of_nat n + 1))
        by (rewrite Z.pow_add_r by lia; reflexivity).
      apply pow16_mono. lia. }
    assert (H0 : 0 < 16 ^ Z.of_nat n) by (apply Z.pow_pos_nonneg; lia).
    unfold is_AJ in Hc.
    rewrite Z.shiftl_mul_pow2, pow16 by lia.
    unfold wrap64. rewrite Z.mod_small by (change (2^64) with (16^16) in *; nia).
    rewrite <- (pow16 (Z.of_nat n)), <- Z.shiftl_mul_pow2 by lia.
    rewrite lor_low_high by (rewrite ?pow16; lia).
    rewrite pow16 by lia.
    rewrite firstn_snoc, encode_app, length_firstn, Nat.min_l by lia.
    cbn [encode]. ring.
Qed.

Lemma pack_keyword_encode (w : list Z) :
  word_over 15 w -> pack_keyword w = encode w.
Proof.
  intros [Hl Hw]. unfold pack_keyword.
  rewrite pack_loop_prefix by (auto; lia).
  rewrite <- Hl, firstn_all. reflexivity.
Qed.

Lemma remove_at_length (p : nat) (w : list Z) :
  (p < length w)%nat -> length (remove_at p w) = (length w - 1)%nat.
Proof.
  intros H. unfold remove_at.
  rewrite length_app, length_firstn, length_skipn. lia.
Qed.

Lemma remove_at_Forall (P : Z -> Prop) (p : nat) (w : list Z) :
  Forall P w -> Forall P (remove_at p w).
Proof.
  intros H. unfold remove_at. apply Forall_app. split.
  - apply Forall_firstn_skipn, H.
  - apply (Forall_firstn_skipn P (S p) w), H.
Qed.

(** Excising nibble [p] of the code of a word gives the code of the word
    without its character [p]. *)
Lemma pack_delete_encode (w : list Z) (p : nat) :
  Forall is_AJ w -> (p < length w)%nat -> (length w <= 15)%nat ->
  casefilter_pack_delete (encode w) (Z.of_nat p) = encode (remove_at p w).
Proof.
  intros Hw Hp Hl.
  destruct (Forall_firstn_skipn is_AJ p w Hw) as [Ha Hxb].
  destruct (Forall_firstn_skipn is_AJ (S p) w Hw) as [_ Hb].
  pose proof (encode_bound _ Ha) as Ba.
  pose proof (encode_bound _ Hb) as Bb.
  rewrite length_firstn, Nat.min_l in Ba by lia.
  rewrite length_skipn in Bb.
  assert (Hx : is_AJ (nth p w 0)).
  { rewrite Forall_forall in Hw. apply Hw, nth_In, Hp. }
  assert (Hsplit : w = firstn p w ++ nth p w 0 :: skipn (S p) w).
  { rewrite <- (firstn_skipn p w) at 1. f_equal.
    rewrite <- (firstn_skipn 1 (skipn p w)) at 1.
    rewrite skipn_skipn. f_equal.
    destruct (skipn p w) as [|y r] eqn:E.
    - apply (f_equal (@length Z)) in E. rewrite length_skipn in E. cbn in E. lia.
    - cbn. f_equal. rewrite <- (Nat.add_0_r p), <- nth_skipn, E. reflexivity. }
  set (a := firstn p w) in *. set (b := skipn (S p) w) in *.
  set (x := nth p w 0) in *.
  assert (La : length a = p) by (unfold a; rewrite length_firstn; lia).
  assert (Hcode : encode w
                  = encode a + 16 ^ Z.of_nat p * ((x - 65) + 16 * encode b)).
  { rewrite Hsplit at 1. rewrite encode_app, La. reflexivity. }
  assert (P0 : 0 < 16 ^ Z.of_nat p) by (apply Z.pow_pos_nonneg; lia).
  assert (Pb : 16 ^ Z.of_nat p * 16 ^ Z.of_nat (length w - S p) <= 16 ^ 14).
  { rewrite <- Z.pow_add_r by lia. apply pow16_mono. lia. }
  unfold is_AJ in Hx.
  unfold casefilter_pack_delete.
  (* the upper part *)
  assert (Hupper : Z.shiftr (encode w) ((Z.of_nat p + 1) * 4) = encode b).
  { rewrite Z.shiftr_div_pow2, pow16 by lia.
    symmetry. apply (Z.div_unique _ _ _ (encode a + 16 ^ Z.of_nat p * (x - 65))).
    - rewrite Z.pow_add_r by lia. left. nia.
    - rewrite Hcode, Z.pow_add_r by lia. ring. }
  (* the lower part *)
  assert (Hlower : Z.land (encode w)
            (if Z.of_nat p =? 0 then 0
             else wrap64 (wrap64 (Z.shiftl 1 (Z.of_nat p * 4)) - 1)) = encode a).
  { destruct (Z.eqb_spec (Z.of_nat p) 0) as [E|E].
    - rewrite Z.land_0_r. assert (Ep : p = 0%nat) by lia.
      unfold a. rewrite Ep. reflexivity.
    - rewrite Z.shiftl_mul_pow2, Z.mul_1_l, pow16 by lia.
      assert (16 ^ Z.of_nat p <= 16 ^ 14) by (apply pow16_mono; lia).
      change (16 ^ 14) with 72057594037927936 in *.
      unfold wrap64.
      rewrite (Z.mod_small (16 ^ Z.of_nat p)) by lia.
      rewrite Z.mod_small by lia.
      rewrite <- pow16 by lia.
      replace (2 ^ (Z.of_nat p * 4) - 1) with (Z.ones (Z.of_nat p * 4))
        by (rewrite Z.ones_equiv; lia).
      rewrite Z.land_ones, pow16 by lia.
      symmetry. apply (Z.mod_unique _ _ ((x - 65) + 16 * encode b)).
      + left. lia.
      + rewrite Hcode. ring. }
  cbv zeta. rewrite Hlower, Hupper.
  rewrite Z.shiftl_mul_pow2, pow16 by lia.
  change (16 ^ 14) with 72057594037927936 in *.
  unfold wrap64. rewrite Z.mod_small by nia.
  rewrite <- (pow16 (Z.of_nat p)), <- Z.shiftl_mul_pow2 by lia.
  rewrite lor_low_high by (rewrite ?pow16; lia).
  rewrite pow16 by lia.
  unfold remove_at. fold a b. rewrite encode_app, La. ring.
Qed.

(** Claim C4 (deletion identity).  For every word [w] of 15 characters over
    [{A..J}] and every position [p < 15], [casefilter_pack_delete] applied to
    the nibble code [pack_keyword w] and [p] is the nibble code of the
    14-character string [w] without [w[p]], a value below [2^56]. *)
Theorem deletion_identity (w : list Z) (p : nat) :
  word_over 15 w -> (p < 15)%nat ->
  casefilter_pack_delete (pack_keyword w) (Z.of_nat p) = encode (remove_at p w)
  /\ 0 <= encode (remove_at p w) < 2 ^ 56.
Proof.
  intros Hw Hp. pose proof Hw as [Hl Hf]. split.
  - rewrite pack_keyword_encode by exact Hw.
    apply pack_delete_encode; auto; lia.
  - pose proof (encode_bound _ (remove_at_Forall is_AJ p w Hf)) as B.
    rewrite remove_at_length, Hl in B by lia. exact B.
Qed.

(** ** SWAR Hamming *)

Lemma split16 (x y : Z) :
  Z.land x 15 = Z.land y 15 -> Z.shiftr x 4 = Z.shiftr y 4 -> x = y.
Proof.
  change 15 with (Z.ones 4). rewrite !Z.land_ones, !Z.shiftr_div_pow2 by lia.
  change (2 ^ 4) with 16. intros Hm Hd.
  rewrite (Z.div_mod x 16), (Z.div_mod y 16) by lia. congruence.
Qed.

Lemma shiftr4_nibble (a0 a' : Z) :
  0 <= a0 < 16 -> Z.shiftr (a0 + 16 * a') 4 = a'.
Proof.
  intros H. rewrite Z.shiftr_div_pow2 by lia. change (2 ^ 4) with 16.
  symmetry. apply (Z.div_unique _ _ _ a0); lia.
Qed.

Lemma land15_nibble (a0 a' : Z) :
  0 <= a0 < 16 -> Z.land (a0 + 16 * a') 15 = a0.
Proof.
  intros H. change 15 with (Z.ones 4). rewrite Z.land_ones by lia.
  change (2 ^ 4) with 16. symmetry. apply (Z.mod_unique _ _ a'); lia.
Qed.

Lemma land15_small (a : Z) : 0 <= a < 16 -> Z.land a 15 = a.
Proof.
  intros H. change 15 with (Z.ones 4). rewrite Z.land_ones by lia.
  apply Z.mod_small. exact H.
Qed.

Lemma land_nibble_range (a c : Z) : 0 <= a < 16 -> 0 <= Z.land a c < 16.
Proof.
  intros H. rewrite <- (land15_small a H).
  rewrite <- Z.land_assoc, (Z.land_comm 15), Z.land_assoc.
  change 15 with (Z.ones 4). rewrite Z.land_ones by lia.
  apply Z.mod_pos_bound. lia.
Qed.

Lemma land_nibble (a0 c0 a' c' : Z) :
  0 <= a0 < 16 -> 0 <= c0 < 16 ->
  Z.land (a0 + 16 * a') (c0 + 16 * c') = Z.land a0 c0 + 16 * Z.land a' c'.
Proof.
  intros Ha Hc. pose proof (land_nibble_range a0 c0 Ha) as Hr.
  apply split16.
  - rewrite (land15_nibble _ _ Hr).
    rewrite <- Z.land_assoc, (land15_nibble c0 c' Hc).
    rewrite <- (land15_small c0 Hc) at 1.
    rewrite Z.land_assoc, (Z.land_comm _ c0), <- Z.land_assoc.
    rewrite (land15_nibble a0 a' Ha). apply Z.land_comm.
  - rewrite Z.shiftr_land, !shiftr4_nibble by lia. reflexivity.
Qed.

Lemma land_digits16 (a b : list Z) :
  Forall is_nibble a -> Forall is_nibble b -> length a = length b ->
  Z.land (digits16 a) (digits16 b) = digits16 (land_digits a b).
Proof.
  intros Ha. revert b. induction Ha as [|x a Hx Ha IH]; intros b Hb Hl.
  - destruct b; [reflexivity | discriminate].
  - destruct Hb as [|y b Hy Hb]; [discriminate|].
    cbn [digits16 land_digits]. rewrite land_nibble, IH by (cbn in *; auto; lia).
    reflexivity.
Qed.

Lemma land_bit_low (b m : Z) : 0 <= b <= 1 -> 0 <= m < 16 ->
  Z.land b m = if Z.odd m then b else 0.
Proof.
  intros Hb Hm.
  assert (H : forallb (fun b => forallb (fun m =>
            Z.land b m =? (if Z.odd m then b else 0)) (range 16)) (range 2) = true)
    by (vm_compute; reflexivity).
  rewrite forallb_forall in H. specialize (H b (proj2 (in_range 2 b) ltac:(lia))).
  rewrite forallb_forall in H. specialize (H m (proj2 (in_range 16 m) Hm)).
  apply Z.eqb_eq, H.
Qed.

Ltac nibbles := repeat constructor; unfold is_nibble; lia.

(** The multiplication by [0x0101010101010101] gathers the eight byte
    counts in the top byte. *)
Lemma popcount_gather (c0 c1 c2 c3 c4 c5 c6 c7 s : Z) :
  0 <= c0 <= 2 -> 0 <= c1 <= 2 -> 0 <= c2 <= 2 -> 0 <= c3 <= 2 ->
  0 <= c4 <= 2 -> 0 <= c5 <= 2 -> 0 <= c6 <= 2 -> 0 <= c7 <= 2 ->
  forall y : Z,
  y = c0 + 256 * (c1 + 256 * (c2 + 256 * (c3 + 256 * (c4 + 256 * (c5
      + 256 * (c6 + 256 * c7)))))) ->
  s = c0 + c1 + c2 + c3 + c4 + c5 + c6 + c7 ->
  (y * 0x0101010101010101) mod 18446744073709551616 / 72057594037927936 = s.
Proof.
  intros ? ? ? ? ? ? ? ? y -> ->.
  set (r := c0 + 256 * ((c0 + c1) + 256 * ((c0 + c1 + c2)
            + 256 * ((c0 + c1 + c2 + c3) + 256 * ((c0 + c1 + c2 + c3 + c4)
            + 256 * ((c0 + c1 + c2 + c3 + c4 + c5)
            + 256 * (c0 + c1 + c2 + c3 + c4 + c5 + c6))))))).
  set (q := (c1 + c2 + c3 + c4 + c5 + c6 + c7)
            + 256 * ((c2 + c3 + c4 + c5 + c6 + c7)
            + 256 * ((c3 + c4 + c5 + c6 + c7) + 256 * ((c4 + c5 + c6 + c7)
            + 256 * ((c5 + c6 + c7) + 256 * ((c6 + c7) + 256 * c7)))))).
  match goal with |- ?a mod ?m / _ = ?t =>
    replace (a mod m) with (72057594037927936 * t + r)
  end.
  - symmetry. apply (Z.div_unique _ _ _ r); [left; unfold r; lia | reflexivity].
  - apply (Z.mod_unique _ _ q); [left; unfold r; lia | unfold r, q; ring].
Qed.

Section Popcount.
Variables B0 B1 B2 B3 B4 B5 B6 B7 B8 B9 B10 B11 B12 B13 B14 B15 : Z.
Hypothesis H0 : 0 <= B0 <= 1.
Hypothesis H1 : 0 <= B1 <= 1.
Hypothesis H2 : 0 <= B2 <= 1.
Hypothesis H3 : 0 <= B3 <= 1.
Hypothesis H4 : 0 <= B4 <= 1.
Hypothesis H5 : 0 <= B5 <= 1.
Hypothesis H6 : 0 <= B6 <= 1.
Hypothesis H7 : 0 <= B7 <= 1.
Hypothesis H8 : 0 <= B8 <= 1.
Hypothesis H9 : 0 <= B9 <= 1.
Hypothesis H10 : 0 <= B10 <= 1.
Hypothesis H11 : 0 <= B11 <= 1.
Hypothesis H12 : 0 <= B12 <= 1.
Hypothesis H13 : 0 <= B13 <= 1.
Hypothesis H14 : 0 <= B14 <= 1.
Hypothesis H15 : 0 <= B15 <= 1.

Local Abbreviation x :=
  (digits16 [B0; B1; B2; B3; B4; B5; B6; B7; B8; B9; B10; B11; B12; B13; B14;
             B15]).

Lemma popcount_step1 : Z.land (Z.shiftr x 1) 0x5555555555555555 = 0.
Proof.
  replace (Z.shiftr x 1) with
    (digits16 [8 * B1; 8 * B2; 8 * B3; 8 * B4; 8 * B5; 8 * B6; 8 * B7; 8 * B8;
               8 * B9; 8 * B10; 8 * B11; 8 * B12; 8 * B13; 8 * B14; 8 * B15; 0]).
  2:{ rewrite Z.shiftr_div_pow2 by lia. change (2 ^ 1) with 2.
      apply (Z.div_unique _ _ _ B0); [lia|]. cbn [digits16]. lia. }
  change 0x5555555555555555 with (digits16 (repeat 5 16)).
  rewrite land_digits16 by (cbn [repeat]; try reflexivity; nibbles).
  cbn [repeat land_digits digits16].
  replace (Z.land 0 5) with 0 by reflexivity.
  repeat match goal with
  | H : 0 <= ?b <= 1 |- context [Z.land (8 * ?b) 5] =>
      replace (Z.land (8 * b) 5) with 0
        by (assert (b = 0 \/ b = 1) as [-> | ->] by lia; reflexivity)
  end.
  reflexivity.
Qed.

Lemma popcount_x_range : 0 <= x < 18446744073709551616.
Proof. cbn [digits16]. lia. Qed.

Lemma popcount_step2a : Z.land x 0x3333333333333333 = x.
Proof.
  change 0x3333333333333333 with (digits16 (repeat 3 16)).
  rewrite land_digits16 by (cbn [repeat]; try reflexivity; nibbles).
  cbn [repeat land_digits].
  repeat match goal with
  | H : 0 <= ?b <= 1 |- context [Z.land ?b 3] =>
      replace (Z.land b 3) with b
        by (assert (b = 0 \/ b = 1) as [-> | ->] by lia; reflexivity)
  end.
  reflexivity.
Qed.

Lemma popcount_step2b : Z.land (Z.shiftr x 2) 0x3333333333333333 = 0.
Proof.
  replace (Z.shiftr x 2) with
    (digits16 [4 * B1; 4 * B2; 4 * B3; 4 * B4; 4 * B5; 4 * B6; 4 * B7; 4 * B8;
               4 * B9; 4 * B10; 4 * B11; 4 * B12; 4 * B13; 4 * B14; 4 * B15; 0]).
  2:{ rewrite Z.shiftr_div_pow2 by lia. change (2 ^ 2) with 4.
      apply (Z.div_unique _ _ _ B0); [lia|]. cbn [digits16]. lia. }
  change 0x3333333333333333 with (digits16 (repeat 3 16)).
  rewrite land_digits16 by (cbn [repeat]; try reflexivity; nibbles).
  cbn [repeat land_digits digits16].
  replace (Z.land 0 3) with 0 by reflexivity.
  repeat match goal with
  | H : 0 <= ?b <= 1 |- context [Z.land (4 * ?b) 3] =>
      replace (Z.land (4 * b) 3) with 0
        by (assert (b = 0 \/ b = 1) as [-> | ->] by lia; reflexivity)
  end.
  reflexivity.
Qed.

Lemma popcount_step3 :
  Z.land (wrap64 (x + Z.shiftr x 4)) 0x0F0F0F0F0F0F0F0F
  = digits16 [B0 + B1; 0; B2 + B3; 0; B4 + B5; 0; B6 + B7; 0;
              B8 + B9; 0; B10 + B11; 0; B12 + B13; 0; B14 + B15; 0].
Proof.
  replace (wrap64 (x + Z.shiftr x 4)) with
    (digits16 [B0 + B1; B1 + B2; B2 + B3; B3 + B4; B4 + B5; B5 + B6; B6 + B7;
               B7 + B8; B8 + B9; B9 + B10; B10 + B11; B11 + B12; B12 + B13;
               B13 + B14; B14 + B15; B15]).
  2:{ cbn [digits16]. rewrite shiftr4_nibble by lia.
      unfold wrap64. rewrite Z.mod_small by lia. lia. }
  change 0x0F0F0F0F0F0F0F0F with
    (digits16 [15; 0; 15; 0; 15; 0; 15; 0; 15; 0; 15; 0; 15; 0; 15; 0]).
  rewrite land_digits16 by (try reflexivity; nibbles).
  cbn [land_digits]. rewrite !Z.land_0_r.
  rewrite !land15_small by lia. reflexivity.
Qed.

Lemma popcount64_digits :
  popcount64 x
  = B0 + B1 + B2 + B3 + B4 + B5 + B6 + B7
    + B8 + B9 + B10 + B11 + B12 + B13 + B14 + B15.
Proof.
  assert (Hw : wrap64 x = x) by (apply Z.mod_small, popcount_x_range).
  unfold popcount64. cbv zeta.
  rewrite popcount_step1, Z.sub_0_r, !Hw.
  rewrite popcount_step2a, popcount_step2b, Z.add_0_r, !Hw.
  rewrite popcount_step3. cbn [digits16]. clear Hw.
  rewrite Z.shiftr_div_pow2 by lia. unfold wrap64.
  change (2 ^ 56) with 72057594037927936.
  apply (popcount_gather (B0 + B1) (B2 + B3) (B4 + B5) (B6 + B7)
           (B8 + B9) (B10 + B11) (B12 + B13) (B14 + B15)); lia.
Qed.
End Popcount.

Lemma low_bits_nibble (a0 a' i : Z) :
  0 <= a0 < 16 -> 0 <= i < 4 ->
  Z.testbit (a0 + 16 * a') i = Z.testbit a0 i.
Proof.
  intros H Hi.
  rewrite <- (Z.mod_pow2_bits_low (a0 + 16 * a') 4 i) by lia.
  f_equal. change (2 ^ 4) with 16.
  symmetry. apply (Z.mod_unique _ _ a'); lia.
Qed.

Lemma nibble_differ_spec (a b : Z) :
  0 <= a < 16 -> 0 <= b < 16 -> nibble_differ a b = negb (a =? b).
Proof.
  intros Ha Hb.
  assert (H : forallb (fun a => forallb (fun b =>
                Bool.eqb (nibble_differ a b) (negb (a =? b))) (range 16))
                (range 16) = true) by (vm_compute; reflexivity).
  rewrite forallb_forall in H. specialize (H a (proj2 (in_range 16 a) Ha)).
  rewrite forallb_forall in H. specialize (H b (proj2 (in_range 16 b) Hb)).
  apply eqb_prop. exact H.
Qed.

Lemma shiftr_comm (x n m : Z) :
  0 <= n -> 0 <= m -> Z.shiftr (Z.shiftr x n) m = Z.shiftr (Z.shiftr x m) n.
Proof. intros. rewrite !Z.shiftr_shiftr by lia. f_equal. lia. Qed.

Lemma collapse_shiftr4 (x : Z) :
  Z.shiftr (Z.lor (Z.lor x (Z.shiftr x 1))
                  (Z.shiftr (Z.lor x (Z.shiftr x 1)) 2)) 4
  = Z.lor (Z.lor (Z.shiftr x 4) (Z.shiftr (Z.shiftr x 4) 1))
          (Z.shiftr (Z.lor (Z.shiftr x 4) (Z.shiftr (Z.shiftr x 4) 1)) 2).
Proof.
  rewrite Z.shiftr_lor, (shiftr_comm _ 2 4), !Z.shiftr_lor by lia.
  rewrite !(shiftr_comm x 1 4) by lia. reflexivity.
Qed.

Lemma swar_step (a0 b0 a' b' m : Z) :
  0 <= a0 < 16 -> 0 <= b0 < 16 ->
  swar (a0 + 16 * a') (b0 + 16 * b') (1 + 16 * m)
  = Z.b2z (negb (a0 =? b0)) + 16 * swar a' b' m.
Proof.
  intros Ha Hb.
  assert (Hd : 0 <= Z.b2z (negb (a0 =? b0)) < 16)
    by (destruct (negb (a0 =? b0)); cbn; lia).
  apply split16.
  - (* the low nibble *)
    replace (Z.land (Z.b2z (negb (a0 =? b0)) + 16 * swar a' b' m) 15)
      with (Z.b2z (negb (a0 =? b0))).
    2:{ change 15 with (Z.ones 4). rewrite Z.land_ones by lia.
        change (2 ^ 4) with 16. apply (Z.mod_unique _ _ (swar a' b' m)); lia. }
    unfold swar. cbv zeta.
    rewrite <- Z.land_assoc.
    replace (Z.land (1 + 16 * m) 15) with 1.
    2:{ change 15 with (Z.ones 4). rewrite Z.land_ones by lia.
        change (2 ^ 4) with 16. apply (Z.mod_unique _ _ m); lia. }
    change 1 with (Z.ones 1) at 3. rewrite Z.land_ones by lia.
    change (2 ^ 1) with 2. rewrite <- Z.bit0_mod. f_equal.
    rewrite !Z.lor_spec, !Z.shiftr_spec, !Z.lor_spec, !Z.shiftr_spec by lia.
    rewrite !Z.lxor_spec. cbn [Z.add Pos.add Pos.succ].
    rewrite !low_bits_nibble by lia.
    apply (nibble_differ_spec a0 b0 Ha Hb).
  - (* the nibbles above *)
    rewrite (shiftr4_nibble _ _ Hd).
    unfold swar. cbv zeta.
    rewrite Z.shiftr_land, collapse_shiftr4.
    replace (Z.shiftr (1 + 16 * m) 4) with m.
    2:{ symmetry. apply (shiftr4_nibble 1 m). lia. }
    rewrite !Z.shiftr_lxor, !shiftr4_nibble by lia.
    reflexivity.
Qed.

Lemma swar_zero (m : Z) : swar 0 0 m = 0.
Proof. unfold swar. cbn. reflexivity. Qed.

Lemma hamming_count (a b : list Z) : hamming a b = count_true (differ a b).
Proof.
  revert b. induction a as [|x a IH]; intros [|y b]; cbn; auto.
  rewrite IH. destruct (x =? y); reflexivity.
Qed.

Lemma differ_length (a b : list Z) :
  length a = length b -> length (differ a b) = length a.
Proof.
  revert b. induction a as [|x a IH]; intros [|y b] H; cbn in *; try lia.
  rewrite IH; lia.
Qed.

(** The collapsed xor of two codes has bit 0 of nibble [i] set exactly when
    the words differ at position [i]. *)
Lemma swar_encode (a b : list Z) (k : nat) :
  Forall is_AJ a -> Forall is_AJ b -> length a = length b ->
  (length a <= k)%nat ->
  swar (encode a) (encode b) (nibble_mask (repeat true k))
  = nibble_mask (differ a b).
Proof.
  intros Ha. revert b k. induction Ha as [|x a Hx Ha IH]; intros b k Hb Hl Hk.
  - destruct b; [|discriminate]. cbn [encode differ nibble_mask]. apply swar_zero.
  - destruct Hb as [|y b Hy Hb]; [discriminate|].
    destruct k as [|k]; [cbn in Hk; lia|].
    cbn [encode differ nibble_mask repeat Z.b2z].
    unfold is_AJ in Hx, Hy.
    rewrite swar_step by lia.
    rewrite IH by (cbn in *; auto; lia).
    replace (x - 65 =? y - 65) with (x =? y); [reflexivity|].
    destruct (Z.eqb_spec x y), (Z.eqb_spec (x - 65) (y - 65)); auto; lia.
Qed.


Lemma nibble_mask_pad (bs : list bool) (n : nat) :
  nibble_mask (bs ++ repeat false n) = nibble_mask bs.
Proof.
  induction bs as [|b bs IH]; cbn [app nibble_mask].
  - induction n as [|n IH]; cbn [repeat nibble_mask Z.b2z]; lia.
  - rewrite IH. reflexivity.
Qed.

Lemma count_true_pad (bs : list bool) (n : nat) :
  count_true (bs ++ repeat false n) = count_true bs.
Proof.
  induction bs as [|b bs IH]; cbn [app count_true].
  - induction n as [|n IH]; cbn [repeat count_true Z.b2z]; lia.
  - rewrite IH. reflexivity.
Qed.

Lemma b2z_range (b : bool) : 0 <= Z.b2z b <= 1.
Proof. destruct b; cbn; lia. Qed.

(** The HAKMEM reduction counts the set bits of every word that has at most
    the low bit of each nibble set. *)
Lemma popcount64_nibble_mask (bs : list bool) :
  (length bs <= 16)%nat -> popcount64 (nibble_mask bs) = count_true bs.
Proof.
  intros H.
  rewrite <- (nibble_mask_pad bs (16 - length bs)).
  rewrite <- (count_true_pad bs (16 - length bs)).
  assert (Hl : length (bs ++ repeat false (16 - length bs)) = 16%nat)
    by (rewrite length_app, repeat_length; lia).
  set (l := bs ++ repeat false (16 - length bs)) in *. clearbody l. clear H bs.
  do 16 (destruct l as [|? l]; [discriminate|]).
  destruct l; [|discriminate].
  cbn [nibble_mask count_true].
  etransitivity; [apply popcount64_digits; apply b2z_range | lia].
Qed.

Lemma hamming_packed15_encode (a b : list Z) :
  word_over 15 a -> word_over 15 b ->
  hamming_packed15 (encode a) (encode b) = hamming a b.
Proof.
  intros [La Ha] [Lb Hb].
  change (hamming_packed15 (encode a) (encode b))
    with (popcount64 (swar (encode a) (encode b) (nibble_mask (repeat true 16)))).
  rewrite swar_encode by (auto; lia).
  rewrite popcount64_nibble_mask by (rewrite differ_length; lia).
  symmetry. apply hamming_count.
Qed.

Lemma hamming_packed14_encode (a b : list Z) :
  word_over 14 a -> word_over 14 b ->
  hamming_packed14 (encode a) (encode b) = hamming a b.
Proof.
  intros [La Ha] [Lb Hb].
  change (hamming_packed14 (encode a) (encode b))
    with (popcount64 (swar (encode a) (encode b) (nibble_mask (repeat true 14)))).
  rewrite swar_encode by (auto; lia).
  rewrite popcount64_nibble_mask by (rewrite differ_length; lia).
  symmetry. apply hamming_count.
Qed.

(** Claim C5 (SWAR Hamming correctness).  On the nibble codes of two words
    of 15 characters over [{A..J}], [hamming_packed15] is the number of
    positions at which the words differ; on the 56-bit codes of two
    14-character words, and in particular on the outputs of
    [casefilter_pack_delete] for two valid codes, [hamming_packed14] is the
    character-wise Hamming distance of the 14-character words. *)
Theorem swar_hamming_correct (a b u v : list Z) (p q : nat) :
  word_over 15 a -> word_over 15 b -> word_over 14 u -> word_over 14 v ->
  (p < 15)%nat -> (q < 15)%nat ->
  hamming_packed15 (pack_keyword a) (pack_keyword b) = hamming a b
  /\ hamming_packed14 (encode u) (encode v) = hamming u v
  /\ hamming_packed14 (casefilter_pack_delete (pack_keyword a) (Z.of_nat p))
                      (casefilter_pack_delete (pack_keyword b) (Z.of_nat q))
     = hamming (remove_at p a) (remove_at q b).
Proof.
  intros Ha Hb Hu Hv Hp Hq. split; [|split].
  - rewrite !pack_keyword_encode by assumption.
    apply hamming_packed15_encode; assumption.
  - apply hamming_packed14_encode; assumption.
  - rewrite !pack_keyword_encode by assumption.
    destruct Ha as [La Fa], Hb as [Lb Fb].
    rewrite !pack_delete_encode by (auto; lia).
    apply hamming_packed14_encode; split;
      auto using remove_at_Forall; rewrite remove_at_length; lia.
Qed.

(** ** Folds *)

Lemma fold_left_flat_map {A B S : Type} (f : S -> B -> S) (g : A -> list B)
      (l : list A) (s : S) :
  fold_left f (flat_map g l) s = fold_left (fun s x => fold_left f (g x) s) l s.
Proof.
  revert s. induction l as [|x l IH]; intros s; cbn [flat_map fold_left].
  - reflexivity.
  - rewrite fold_left_app. apply IH.
Qed.

Lemma fold_left_map' {A B S : Type} (f : S -> B -> S) (h : A -> B)
      (l : list A) (s : S) :
  fold_left f (map h l) s = fold_left (fun s x => f s (h x)) l s.
Proof.
  revert s. induction l as [|x l IH]; intros s; cbn [map fold_left]; auto.
Qed.

Lemma fold_left_ext {A S : Type} (f g : S -> A -> S) (l : list A) (s : S) :
  (forall s x, In x l -> f s x = g s x) ->
  fold_left f l s = fold_left g l s.
Proof.
  revert s. induction l as [|x l IH]; intros s H; cbn [fold_left]; auto.
  rewrite H by (left; reflexivity). apply IH. intros. apply H. right. assumption.
Qed.

Lemma upd_same {A : Type} (a : arr A) i v : upd a i v i = v.
Proof. unfold upd. rewrite Z.eqb_refl. reflexivity. Qed.

Lemma upd_other {A : Type} (a : arr A) i j v : j <> i -> upd a i v j = a j.
Proof. unfold upd. intros H. destruct (Z.eqb_spec j i); [contradiction | reflexivity]. Qed.

(** ** Counting occurrences *)

Lemma cnt_nil s : cnt s [] = 0.
Proof. reflexivity. Qed.

Lemma cnt_app s a b : cnt s (a ++ b) = cnt s a + cnt s b.
Proof. unfold cnt. rewrite filter_app, length_app. lia. Qed.

Lemma cnt_cons s sv ps :
  cnt s (sv :: ps) = (if fst sv =? s then 1 else 0) + cnt s ps.
Proof.
  unfold cnt. cbn [filter]. destruct (fst sv =? s); cbn [length]; lia.
Qed.

Lemma cnt_rev s ps : cnt s (rev ps) = cnt s ps.
Proof.
  induction ps as [|sv ps IH]; cbn [rev]; auto.
  rewrite cnt_app, IH, !cnt_cons, cnt_nil. lia.
Qed.

Lemma cnt_nonneg s ps : 0 <= cnt s ps.
Proof. unfold cnt. lia. Qed.

Lemma cnt_le_length s ps : cnt s ps <= Z.of_nat (length ps).
Proof. unfold cnt. pose proof (filter_length_le (fun sv : Z * Z => fst sv =? s) ps). lia. Qed.

Lemma cnt_lt_cons s sv ps :
  cnt_lt s (sv :: ps) = (if fst sv <? s then 1 else 0) + cnt_lt s ps.
Proof.
  unfold cnt_lt. cbn [filter]. destruct (fst sv <? s); cbn [length]; lia.
Qed.

Lemma cnt_lt_succ s ps : cnt_lt (s + 1) ps = cnt_lt s ps + cnt s ps.
Proof.
  induction ps as [|sv ps IH]; [reflexivity|].
  rewrite !cnt_lt_cons, cnt_cons, IH.
  destruct (Z.ltb_spec (fst sv) (s + 1)), (Z.ltb_spec (fst sv) s),
    (Z.eqb_spec (fst sv) s); lia.
Qed.

Lemma cnt_lt_mono s t ps : s <= t -> cnt_lt s ps <= cnt_lt t ps.
Proof.
  intros H. induction ps as [|sv ps IH]; [reflexivity|].
  rewrite !cnt_lt_cons.
  destruct (Z.ltb_spec (fst sv) s), (Z.ltb_spec (fst sv) t); lia.
Qed.

Lemma cnt_lt_low s ps : (forall sv, In sv ps -> s <= fst sv) -> cnt_lt s ps = 0.
Proof.
  induction ps as [|sv ps IH]; intros H; [reflexivity|].
  rewrite cnt_lt_cons, IH by (intros; apply H; right; assumption).
  specialize (H sv (or_introl eq_refl)).
  destruct (Z.ltb_spec (fst sv) s); lia.
Qed.

Lemma cnt_lt_all s ps :
  (forall sv, In sv ps -> fst sv < s) -> cnt_lt s ps = Z.of_nat (length ps).
Proof.
  induction ps as [|sv ps IH]; intros H; [reflexivity|].
  rewrite cnt_lt_cons, IH by (intros; apply H; right; assumption).
  specialize (H sv (or_introl eq_refl)).
  destruct (Z.ltb_spec (fst sv) s); cbn [length]; lia.
Qed.

(** ** The three passes in closed form *)

Lemma wrap32_idem x : wrap32 (wrap32 x + 1) = wrap32 (x + 1).
Proof. unfold wrap32. rewrite Zplus_mod_idemp_l. reflexivity. Qed.

Lemma count_pass (ps : list (Z * Z)) (t : Z) :
  fold_left count_step (map fst ps) zeros t = wrap32 (cnt t ps).
Proof.
  induction ps as [|sv ps IH] using rev_ind; [reflexivity|].
  rewrite map_app, fold_left_app. cbn [map fold_left]. unfold count_step at 1.
  rewrite cnt_app, cnt_cons, cnt_nil.
  destruct (Z.eqb_spec (fst sv) t) as [->|Hne].
  - rewrite upd_same, IH, wrap32_idem. f_equal; lia.
  - rewrite upd_other, IH by congruence. f_equal; lia.
Qed.

Lemma prefix_pass (counts : arr Z) (n : nat) (j : Z) :
  fold_left
    (fun offsets i => upd offsets (i + 1) (offsets i + to_int (counts i)))
    (range n) (upd zeros 0 0) j
  = if (0 <=? j) && (j <=? Z.of_nat n) then psum counts (Z.to_nat j) else 0.
Proof.
  induction n as [|n IH] in j |- *.
  - cbn [range seq map fold_left]. unfold upd, zeros.
    destruct (Z.eqb_spec j 0) as [->|]; [reflexivity|].
    destruct (Z.leb_spec 0 j), (Z.leb_spec j (Z.of_nat 0)); cbn; try reflexivity; lia.
  - rewrite range_S, fold_left_app. cbn [fold_left].
    destruct (Z.eqb_spec j (Z.of_nat n + 1)) as [->|Hne].
    + rewrite upd_same, IH.
      destruct (Z.leb_spec 0 (Z.of_nat n)), (Z.leb_spec (Z.of_nat n) (Z.of_nat n));
        try lia. cbn [andb].
      destruct (Z.leb_spec 0 (Z.of_nat n + 1)),
        (Z.leb_spec (Z.of_nat n + 1) (Z.of_nat (S n))); try lia. cbn [andb].
      replace (Z.to_nat (Z.of_nat n + 1)) with (S n) by lia.
      rewrite Nat2Z.id. reflexivity.
    + rewrite upd_other, IH by exact Hne.
      destruct (Z.leb_spec 0 j); cbn [andb]; [|reflexivity].
      destruct (Z.leb_spec j (Z.of_nat n)), (Z.leb_spec j (Z.of_nat (S n)));
        try reflexivity; lia.
Qed.

Lemma to_int_small x : 0 <= x < 2147483648 -> to_int (wrap32 x) = x.
Proof.
  intros H. unfold to_int, wrap32. rewrite Z.mod_small by lia.
  destruct (Z.ltb_spec x 2147483648); lia.
Qed.

Lemma psum_counts (ps : list (Z * Z)) (n : nat) :
  (forall sv, In sv ps -> 0 <= fst sv) ->
  Z.of_nat (length ps) < 2147483648 ->
  psum (fun s => wrap32 (cnt s ps)) n = cnt_lt (Z.of_nat n) ps.
Proof.
  intros Hs Hl. induction n as [|n IH].
  - cbn [psum]. symmetry. apply cnt_lt_low. exact Hs.
  - cbn [psum]. rewrite IH, Nat2Z.inj_succ, <- Z.add_1_r, cnt_lt_succ.
    rewrite to_int_small; [reflexivity|].
    pose proof (cnt_nonneg (Z.of_nat n) ps).
    pose proof (cnt_le_length (Z.of_nat n) ps). lia.
Qed.

Lemma scatter_pass (ps : list (Z * Z)) (cur0 : arr Z) :
  fold_left scatter_step ps (zeros, cur0)
  = (place_rev cur0 (rev ps), fun s => cur0 s + cnt s ps).
Proof.
  induction ps as [|sv ps IH] using rev_ind.
  - cbn [fold_left rev place_rev]. f_equal.
    apply functional_extensionality. intros s. rewrite cnt_nil. lia.
  - rewrite fold_left_app, IH. cbn [fold_left]. unfold scatter_step.
    cbn [fst snd]. rewrite rev_app_distr. cbn [rev app place_rev].
    rewrite cnt_rev. f_equal.
    apply functional_extensionality. intros s.
    rewrite cnt_app, cnt_cons, cnt_nil. unfold upd.
    destruct (Z.eqb_spec s (fst sv)) as [->|Hne].
    + rewrite Z.eqb_refl. lia.
    + destruct (Z.eqb_spec (fst sv) s); [congruence | lia].
Qed.

(** ** The builder in closed form *)

Lemma slots_ok_spec slots ps :
  slots_ok slots ps = true ->
  (forall sv, In sv ps -> 0 <= fst sv < slots)
  /\ Z.of_nat (length ps) < 2147483648.
Proof.
  unfold slots_ok. rewrite andb_true_iff, forallb_forall, Z.ltb_lt.
  intros [H Hl]. split; [|exact Hl].
  intros sv Hin. specialize (H sv Hin). lia.
Qed.

Lemma csr_counts_pass (ps : list (Z * Z)) :
  fold_left count_step (map fst ps) zeros = csr_counts ps.
Proof. apply functional_extensionality. intros t. apply count_pass. Qed.

Lemma csr_offsets_pass (slots : Z) (ps : list (Z * Z)) :
  0 <= slots -> slots_ok slots ps = true ->
  fold_left
    (fun offsets i => upd offsets (i + 1) (offsets i + to_int (csr_counts ps i)))
    (range (Z.to_nat slots)) (upd zeros 0 0)
  = csr_offsets slots ps.
Proof.
  intros Hs Hok. destruct (slots_ok_spec _ _ Hok) as [Hin Hl].
  apply functional_extensionality. intros j.
  rewrite prefix_pass. unfold csr_offsets. rewrite Z2Nat.id by lia.
  destruct ((0 <=? j) && (j <=? slots)) eqn:E; [|reflexivity].
  apply andb_true_iff in E. destruct E as [E1 E2].
  apply Z.leb_le in E1.
  unfold csr_counts. rewrite psum_counts.
  - rewrite Z2Nat.id by lia. reflexivity.
  - intros sv Hsv. apply Hin in Hsv. lia.
  - exact Hl.
Qed.

Lemma csr_cursor_offsets (slots : Z) (ps : list (Z * Z)) :
  (fun i => if (0 <=? i) && (i <? slots) then csr_offsets slots ps i else 0)
  = csr_cursor slots ps.
Proof.
  apply functional_extensionality. intros i. unfold csr_cursor, csr_offsets.
  destruct (Z.leb_spec 0 i), (Z.ltb_spec i slots), (Z.leb_spec i slots);
    cbn [andb]; try reflexivity; lia.
Qed.

Lemma csr_payload_pass (slots : Z) (ps : list (Z * Z)) :
  fst (fold_left scatter_step ps (zeros, csr_cursor slots ps))
  = csr_payload slots ps.
Proof. rewrite scatter_pass. reflexivity. Qed.

(** The two passes of [build_hindex] over abstract slots. *)
Section PairPasses.
Variables (slot : Z -> Z -> Z) (n m : nat).

Local Abbreviation stream :=
  (flat_map (fun id => map (fun p => (slot id p, id)) (range m)) (range n)).

Lemma pair_count_fold :
  fold_left
    (fun counts id =>
       fold_left
         (fun counts p =>
            let slot := slot id p in
            upd counts slot (wrap32 (counts slot + 1)))
         (range m) counts)
    (range n) zeros
  = csr_counts stream.
Proof.
  rewrite <- csr_counts_pass.
  rewrite fold_left_map', fold_left_flat_map.
  apply fold_left_ext. intros c id _. rewrite fold_left_map'. reflexivity.
Qed.

Lemma pair_scatter_fold (cur0 : arr Z) :
  fold_left
    (fun st id =>
       fold_left
         (fun st p =>
            let '(ids, cursor) := st in
            let slot := slot id p in
            (upd ids (cursor slot) id, upd cursor slot (cursor slot + 1)))
         (range m) st)
    (range n) (zeros, cur0)
  = fold_left scatter_step stream (zeros, cur0).
Proof.
  rewrite fold_left_flat_map.
  apply fold_left_ext. intros st id _. rewrite fold_left_map'.
  apply fold_left_ext. intros [ids cur] p _. reflexivity.
Qed.
End PairPasses.

(** [build_hindex] builds the CSR arrays of [h_postings]. *)
Lemma build_hindex_csr (idx : CaseFilterIndex) :
  slots_ok H_SLOTS (h_postings idx) = true ->
  build_hindex idx
  = mkIndex (keywords idx) (keyword_count idx) (keyword_cap idx) (codes idx)
            (csr_hindex idx) (del7 idx).
Proof.
  intros Hok. unfold build_hindex, csr_hindex.
  pose proof (pair_count_fold (fun id p => pair_slot (keywords idx id) p)
                (Z.to_nat (keyword_count idx)) 10) as Hc.
  pose proof (fun cur0 => pair_scatter_fold
                (fun id p => pair_slot (keywords idx id) p)
                (Z.to_nat (keyword_count idx)) 10 cur0) as Hs.
  cbv beta zeta in Hc, Hs |- *.
  fold (h_postings idx) in Hc, Hs.
  rewrite Hc.
  change (CASEFILTER_H_KEY_SPACE * CASEFILTER_HPAIR_COUNT) with H_SLOTS.
  rewrite (csr_offsets_pass H_SLOTS) by (auto; cbv; discriminate).
  rewrite csr_cursor_offsets.
  rewrite Hs, csr_payload_pass. reflexivity.
Qed.

Lemma to_int_id (x : Z) : 0 <= x < 2147483648 -> to_int x = x.
Proof. intros H. unfold to_int. destruct (Z.ltb_spec x 2147483648); lia. Qed.

(** The two passes of [build_dindex] over abstract keys. *)
Section DelPasses.
Variables (kl kr val : Z -> Z -> Z) (n m : nat).

Local Abbreviation stream :=
  (flat_map
     (fun id => flat_map (fun pos => [(kl id pos, val id pos);
                                      (kr id pos, val id pos)]) (range m))
     (range n)).

Lemma del_count_fold :
  fold_left
    (fun counts id =>
       fold_left
         (fun counts pos =>
            let l := kl id pos in
            let counts := upd counts l (wrap32 (counts l + 1)) in
            let r := kr id pos in
            upd counts r (wrap32 (counts r + 1)))
         (range m) counts)
    (range n) zeros
  = csr_counts stream.
Proof.
  rewrite <- csr_counts_pass.
  rewrite fold_left_map', fold_left_flat_map.
  apply fold_left_ext. intros c id _. rewrite fold_left_flat_map.
  apply fold_left_ext. intros c' pos _. reflexivity.
Qed.

Lemma del_scatter_fold (cur0 : arr Z) :
  (forall sv, In sv stream -> 0 <= fst sv < 2147483648) ->
  fold_left
    (fun st id =>
       fold_left
         (fun st pos =>
            let '(idpos, cursor) := st in
            let packed_idpos := val id pos in
            let lslot := to_int (kl id pos) in
            let rslot := to_int (kr id pos) in
            let idpos := upd idpos (cursor lslot) packed_idpos in
            let cursor := upd cursor lslot (cursor lslot + 1) in
            let idpos := upd idpos (cursor rslot) packed_idpos in
            let cursor := upd cursor rslot (cursor rslot + 1) in
            (idpos, cursor))
         (range m) st)
    (range n) (zeros, cur0)
  = fold_left scatter_step stream (zeros, cur0).
Proof.
  intros Hin.
  rewrite fold_left_flat_map.
  apply fold_left_ext. intros st id Hid. rewrite fold_left_flat_map.
  apply fold_left_ext. intros [idpos cur] pos Hpos.
  assert (Hl : In (kl id pos, val id pos) stream).
  { apply in_flat_map. exists id. split; [exact Hid|].
    apply in_flat_map. exists pos. split; [exact Hpos|]. left. reflexivity. }
  assert (Hr : In (kr id pos, val id pos) stream).
  { apply in_flat_map. exists id. split; [exact Hid|].
    apply in_flat_map. exists pos. split; [exact Hpos|].
    right. left. reflexivity. }
  apply Hin in Hl. apply Hin in Hr. cbn [fst] in Hl, Hr.
  cbv zeta. rewrite (to_int_id (kl id pos)), (to_int_id (kr id pos)) by lia.
  reflexivity.
Qed.
End DelPasses.

(** [build_dindex] builds the CSR arrays of [d_postings]. *)
Lemma build_dindex_csr (idx : CaseFilterIndex) :
  slots_ok CASEFILTER_DEL_KEY_SPACE (d_postings idx) = true ->
  build_dindex idx
  = mkIndex (keywords idx) (keyword_count idx) (keyword_cap idx) (codes idx)
            (hidx idx) (csr_delindex idx).
Proof.
  intros Hok. destruct (slots_ok_spec _ _ Hok) as [Hin _].
  unfold build_dindex, csr_delindex.
  pose proof (del_count_fold
                (fun id pos => pack_key7 (left7 (del_string (keywords idx id) pos)))
                (fun id pos => pack_key7 (right7 (del_string (keywords idx id) pos)))
                pack_idpos (Z.to_nat (keyword_count idx)) 15) as Hc.
  pose proof (fun cur0 => del_scatter_fold
                (fun id pos => pack_key7 (left7 (del_string (keywords idx id) pos)))
                (fun id pos => pack_key7 (right7 (del_string (keywords idx id) pos)))
                pack_idpos (Z.to_nat (keyword_count idx)) 15 cur0) as Hs.
  cbv beta zeta in Hc, Hs |- *.
  fold (d_postings idx) in Hc, Hs.
  rewrite Hc.
  rewrite (csr_offsets_pass CASEFILTER_DEL_KEY_SPACE) by (auto; cbv; discriminate).
  rewrite csr_cursor_offsets.
  rewrite Hs, csr_payload_pass.
  - reflexivity.
  - intros sv Hsv. apply Hin in Hsv. unfold CASEFILTER_DEL_KEY_SPACE in Hsv. lia.
Qed.

Lemma build_hindex_postings (idx : CaseFilterIndex) :
  slots_ok H_SLOTS (h_postings idx) = true ->
  d_postings (build_hindex idx) = d_postings idx
  /\ h_postings (build_hindex idx) = h_postings idx.
Proof. intros H. rewrite build_hindex_csr by exact H. split; reflexivity. Qed.

(** [casefilter_finalize] in closed form. *)
Lemma finalize_csr (idx : CaseFilterIndex) :
  slots_ok H_SLOTS (h_postings idx) = true ->
  slots_ok CASEFILTER_DEL_KEY_SPACE (d_postings idx) = true ->
  casefilter_finalize idx = csr_index idx.
Proof.
  intros Hh Hd. unfold casefilter_finalize.
  rewrite build_dindex_csr; rewrite build_hindex_csr by exact Hh.
  - reflexivity.
  - exact Hd.
Qed.

(** ** Keys of valid words *)

Lemma decimal_app a b :
  decimal (a ++ b) = decimal a + 10 ^ Z.of_nat (length a) * decimal b.
Proof.
  induction a as [|x a IH]; cbn [app decimal length].
  - change (Z.of_nat 0) with 0. rewrite Z.pow_0_r. lia.
  - rewrite IH, Nat2Z.inj_succ, Z.pow_succ_r by lia. ring.
Qed.

Lemma decimal_bound key :
  Forall is_AJ key -> 0 <= decimal key < 10 ^ Z.of_nat (length key).
Proof.
  induction 1 as [|c w Hc Hw IH]; cbn [decimal length].
  - change (Z.of_nat 0) with 0. rewrite Z.pow_0_r. lia.
  - rewrite Nat2Z.inj_succ, Z.pow_succ_r by lia. unfold is_AJ in Hc. lia.
Qed.

Lemma digit_AJ c : is_AJ c -> Z.land (wrap32 (c - 65)) 15 = c - 65.
Proof.
  unfold is_AJ, wrap32. intros H. rewrite Z.mod_small by lia.
  apply land15_small. lia.
Qed.

Lemma pow10_le9 (n : nat) : (n <= 9)%nat -> 0 < 10 ^ Z.of_nat n <= 1000000000.
Proof.
  intros H. split; [apply Z.pow_pos_nonneg; lia|].
  change 1000000000 with (10 ^ 9). apply Z.pow_le_mono_r; lia.
Qed.

Lemma pack_key_loop_prefix (key : list Z) (n : nat) :
  Forall is_AJ key -> (n <= length key)%nat -> (n <= 9)%nat ->
  fold_left
    (fun vm i =>
       let '(v, mul) := vm in
       (wrap32 (v + Z.land (wrap32 (char_at key i - 65)) 15 * mul),
        wrap32 (mul * 10)))
    (range n) (0, 1)
  = (decimal (firstn n key), 10 ^ Z.of_nat n).
Proof.
  intros Hk. induction n as [|n IH]; intros Hn H9.
  - reflexivity.
  - rewrite range_S, fold_left_app, IH by lia. cbn [fold_left].
    assert (Hc : is_AJ (nth n key 0)).
    { rewrite Forall_forall in Hk. apply Hk, nth_In. lia. }
    rewrite char_at_nth, digit_AJ by exact Hc.
    assert (Hf : Forall is_AJ (firstn n key))
      by (apply Forall_firstn_skipn; exact Hk).
    pose proof (decimal_bound _ Hf) as Hb.
    rewrite length_firstn, Nat.min_l in Hb by lia.
    pose proof (pow10_le9 n ltac:(lia)) as Hp.
    pose proof (pow10_le9 (S n) H9) as Hp'.
    rewrite Nat2Z.inj_succ, Z.pow_succ_r in Hp' |- * by lia.
    unfold is_AJ in Hc. unfold wrap32.
    rewrite !Z.mod_small by nia.
    rewrite firstn_snoc, decimal_app, length_firstn, Nat.min_l by lia.
    cbn [decimal]. f_equal; ring.
Qed.

Lemma pack_key_loop_decimal (key : list Z) (n : nat) :
  Forall is_AJ key -> length key = n -> (n <= 9)%nat ->
  pack_key_loop n key = decimal key.
Proof.
  intros Hk Hl H9. unfold pack_key_loop.
  rewrite pack_key_loop_prefix by (auto; lia).
  cbn [fst]. rewrite <- Hl, firstn_all. reflexivity.
Qed.

Lemma pack_key6_range (key : list Z) :
  Forall is_AJ key -> length key = 6%nat ->
  pack_key6 key = decimal key /\ 0 <= decimal key < 1000000.
Proof.
  intros Hk Hl. split.
  - apply pack_key_loop_decimal; auto; lia.
  - pose proof (decimal_bound key Hk) as B. rewrite Hl in B. exact B.
Qed.

Lemma pack_key7_range (key : list Z) :
  Forall is_AJ key -> length key = 7%nat ->
  pack_key7 key = decimal key /\ 0 <= decimal key < 10000000.
Proof.
  intros Hk Hl. split.
  - apply pack_key_loop_decimal; auto; lia.
  - pose proof (decimal_bound key Hk) as B. rewrite Hl in B. exact B.
Qed.

Lemma bytes_from_valid (w : list Z) (from : Z) (n : nat) :
  valid15 w -> 0 <= from -> from + Z.of_nat n <= 15 ->
  Forall is_AJ (bytes_from w from n).
Proof.
  intros Hw H0 Hn. unfold bytes_from. apply Forall_forall.
  intros x Hx. apply in_map_iff in Hx. destruct Hx as (t & <- & Ht).
  apply in_range in Ht. apply Hw. lia.
Qed.

Lemma word_over_valid15 (w : list Z) : word_over 15 w -> valid15 w.
Proof.
  intros [Hl Hf] i Hi. unfold char_at.
  rewrite Forall_forall in Hf. apply Hf, nth_In. lia.
Qed.

Lemma pair_cases (p : Z) :
  0 <= p < 10 ->
  0 <= nth (Z.to_nat p) pair_i 0 <= 4 /\ 0 <= nth (Z.to_nat p) pair_j 0 <= 4.
Proof.
  intros H.
  assert (C : p = 0 \/ p = 1 \/ p = 2 \/ p = 3 \/ p = 4 \/ p = 5 \/ p = 6
              \/ p = 7 \/ p = 8 \/ p = 9) by lia.
  repeat destruct C as [-> | C]; try subst p;
    compute; (split; split; intro X; discriminate X).
Qed.

Lemma pair_key_valid (w : list Z) (p : Z) :
  valid15 w -> 0 <= p < 10 ->
  Forall is_AJ (pair_key w p) /\ length (pair_key w p) = 6%nat.
Proof.
  intros Hw Hp. destruct (pair_cases p Hp) as [Hi Hj]. unfold pair_key, block.
  split.
  - apply Forall_app. split; apply bytes_from_valid; auto; lia.
  - rewrite length_app, !bytes_from_length. reflexivity.
Qed.

(** The slot of pair [p] lies in the key space of that pair. *)
Lemma pair_slot_range (w : list Z) (p : Z) :
  valid15 w -> 0 <= p < 10 ->
  pair_slot w p = decimal (pair_key w p) + p * 1000000
  /\ p * 1000000 <= pair_slot w p < (p + 1) * 1000000.
Proof.
  intros Hw Hp. destruct (pair_key_valid w p Hw Hp) as [Hf Hl].
  destruct (pack_key6_range _ Hf Hl) as [E B].
  unfold pair_slot, CASEFILTER_H_KEY_SPACE. rewrite E.
  unfold wrap32. rewrite (Z.mod_small p) by lia.
  rewrite (Z.mod_small (p * 1000000)) by lia.
  rewrite Z.mod_small by lia. rewrite to_int_id by lia. lia.
Qed.

Lemma pos15_cases (pos : Z) :
  0 <= pos < 15 -> In pos (range 15).
Proof. intros H. apply in_range. lia. Qed.

Lemma del_string_remove (w : list Z) (pos : Z) :
  0 <= pos < 15 ->
  del_string w pos = remove_at (Z.to_nat pos) (bytes_from w 0 15).
Proof.
  intros H.
  assert (C : pos = 0 \/ pos = 1 \/ pos = 2 \/ pos = 3 \/ pos = 4 \/ pos = 5
              \/ pos = 6 \/ pos = 7 \/ pos = 8 \/ pos = 9 \/ pos = 10
              \/ pos = 11 \/ pos = 12 \/ pos = 13 \/ pos = 14) by lia.
  repeat destruct C as [-> | C]; try subst pos; reflexivity.
Qed.

Lemma query_del_remove (q : list Z) (pos : Z) :
  0 <= pos < 15 ->
  query_del q pos = remove_at (Z.to_nat pos) (bytes_from q 0 15).
Proof.
  intros H.
  assert (C : pos = 0 \/ pos = 1 \/ pos = 2 \/ pos = 3 \/ pos = 4 \/ pos = 5
              \/ pos = 6 \/ pos = 7 \/ pos = 8 \/ pos = 9 \/ pos = 10
              \/ pos = 11 \/ pos = 12 \/ pos = 13 \/ pos = 14) by lia.
  repeat destruct C as [-> | C]; try subst pos; reflexivity.
Qed.

Lemma valid15_bytes (w : list Z) :
  valid15 w -> word_over 15 (bytes_from w 0 15).
Proof.
  intros H. split; [apply bytes_from_length|].
  apply bytes_from_valid; auto; lia.
Qed.

Lemma bytes_from_word (w : list Z) :
  length w = 15%nat -> bytes_from w 0 15 = w.
Proof. intros H. rewrite <- H. apply bytes_from_all. Qed.

Lemma halves_of_14 (l : list Z) :
  length l = 14%nat -> left7 l = firstn 7 l /\ right7 l = skipn 7 l.
Proof.
  intros H. unfold left7, right7. split.
  - change 0 with (Z.of_nat 0). rewrite bytes_from_firstn_skipn by lia.
    reflexivity.
  - change 7 with (Z.of_nat 7). rewrite bytes_from_firstn_skipn by lia.
    apply firstn_all2. rewrite length_skipn. lia.
Qed.

(** The two halves of a 14-character string over [{A..J}] are keys of the
    deletion table. *)
Lemma del_keys_range (l : list Z) :
  word_over 14 l ->
  0 <= pack_key7 (left7 l) < 10000000 /\ 0 <= pack_key7 (right7 l) < 10000000.
Proof.
  intros [Hl Hf]. destruct (halves_of_14 l Hl) as [-> ->].
  destruct (Forall_firstn_skipn is_AJ 7 l Hf) as [Ha Hb].
  assert (La : length (firstn 7 l) = 7%nat) by (rewrite length_firstn; lia).
  assert (Lb : length (skipn 7 l) = 7%nat) by (rewrite length_skipn; lia).
  destruct (pack_key7_range _ Ha La) as [-> Ba].
  destruct (pack_key7_range _ Hb Lb) as [-> Bb]. split; assumption.
Qed.

Lemma del_string_word (w : list Z) (pos : Z) :
  valid15 w -> 0 <= pos < 15 -> word_over 14 (del_string w pos).
Proof.
  intros Hw Hp. rewrite del_string_remove by exact Hp.
  destruct (valid15_bytes w Hw) as [Hl Hf]. split.
  - rewrite remove_at_length; lia.
  - apply remove_at_Forall, Hf.
Qed.

Lemma query_del_word (q : list Z) (pos : Z) :
  valid15 q -> 0 <= pos < 15 -> word_over 14 (query_del q pos).
Proof.
  intros Hw Hp. rewrite query_del_remove by exact Hp.
  destruct (valid15_bytes q Hw) as [Hl Hf]. split.
  - rewrite remove_at_length; lia.
  - apply remove_at_Forall, Hf.
Qed.

(** ** The inserts in closed form *)

Lemma keyword_record_word (w : list Z) :
  length w = 15%nat -> keyword_record w = w ++ [0].
Proof. intros H. unfold keyword_record. rewrite bytes_from_word; auto. Qed.

Lemma keyword_record_bytes (w : list Z) :
  bytes_from (keyword_record w) 0 15 = bytes_from w 0 15.
Proof.
  apply (nth_ext _ _ 0 0).
  - rewrite !bytes_from_length. reflexivity.
  - intros k Hk. rewrite bytes_from_length in Hk.
    rewrite !nth_bytes_from by lia. cbn [Z.add].
    unfold keyword_record. rewrite !char_at_nth.
    rewrite app_nth1 by (rewrite bytes_from_length; lia).
    rewrite nth_bytes_from by lia. cbn [Z.add]. apply char_at_nth.
Qed.

Lemma keyword_record_valid (w : list Z) :
  valid15 w -> valid15 (keyword_record w).
Proof.
  intros H i Hi. unfold keyword_record, char_at.
  rewrite app_nth1 by (rewrite bytes_from_length; lia).
  rewrite nth_bytes_from by lia. apply H. lia.
Qed.

Lemma keyword_record_code (w : list Z) :
  pack_keyword (keyword_record w) = pack_keyword w.
Proof.
  unfold pack_keyword. apply fold_left_ext. intros v i Hi.
  apply in_range in Hi. do 3 f_equal.
  unfold keyword_record, char_at.
  rewrite app_nth1 by (rewrite bytes_from_length; lia).
  rewrite nth_bytes_from by lia. cbn [Z.add].
  unfold char_at. rewrite Z2Nat.id by lia. reflexivity.
Qed.

Lemma insert_fields (idx : CaseFilterIndex) (w : list Z) :
  let idx1 := casefilter_insert idx (Some w) in
  keyword_count idx1 = keyword_count idx + 1
  /\ keywords idx1 = upd (keywords idx) (keyword_count idx) (keyword_record w)
  /\ codes idx1 = upd (codes idx) (keyword_count idx) (pack_keyword w)
  /\ hidx idx1 = hidx idx /\ del7 idx1 = del7 idx.
Proof.
  unfold casefilter_insert, ensure_keyword_cap.
  generalize (pack_keyword w), (keyword_record w). intros code rec.
  destruct (keyword_count idx <? keyword_cap idx); cbv zeta;
    cbn [keyword_count keywords codes hidx del7]; repeat split; reflexivity.
Qed.

Lemma insert_fold (ws : list (list Z)) (idx0 : CaseFilterIndex) :
  let idx := fold_left (fun idx w => casefilter_insert idx (Some w)) ws idx0 in
  let n0 := keyword_count idx0 in
  keyword_count idx = n0 + Z.of_nat (length ws)
  /\ (forall i,
        keywords idx i
        = if (n0 <=? i) && (i <? n0 + Z.of_nat (length ws))
          then keyword_record (nth (Z.to_nat (i - n0)) ws [])
          else keywords idx0 i)
  /\ (forall i,
        codes idx i
        = if (n0 <=? i) && (i <? n0 + Z.of_nat (length ws))
          then pack_keyword (nth (Z.to_nat (i - n0)) ws [])
          else codes idx0 i)
  /\ hidx idx = hidx idx0 /\ del7 idx = del7 idx0.
Proof.
  revert idx0. induction ws as [|w ws IH]; intros idx0; cbv zeta.
  - cbn [fold_left length]. repeat split; try lia.
    + intros i. destruct ((keyword_count idx0 <=? i)
                          && (i <? keyword_count idx0 + Z.of_nat 0)) eqn:E;
        [|reflexivity].
      apply andb_true_iff in E. destruct E as [E1 E2].
      apply Z.leb_le in E1. apply Z.ltb_lt in E2. lia.
    + intros i. destruct ((keyword_count idx0 <=? i)
                          && (i <? keyword_count idx0 + Z.of_nat 0)) eqn:E;
        [|reflexivity].
      apply andb_true_iff in E. destruct E as [E1 E2].
      apply Z.leb_le in E1. apply Z.ltb_lt in E2. lia.
  - cbn [fold_left].
    specialize (IH (casefilter_insert idx0 (Some w))). cbv zeta in IH.
    destruct IH as (Hc & Hk & Hd & Hh & Hdl).
    destruct (insert_fields idx0 w) as (E1 & E2' & E3' & E4 & E5).
    set (idx1 := casefilter_insert idx0 (Some w)) in *. clearbody idx1.
    assert (E2 : forall i, keywords idx1 i
                 = if i =? keyword_count idx0 then keyword_record w
                   else keywords idx0 i) by (intros i; rewrite E2'; reflexivity).
    assert (E3 : forall i, codes idx1 i
                 = if i =? keyword_count idx0 then pack_keyword w
                   else codes idx0 i) by (intros i; rewrite E3'; reflexivity).
    cbn [length]. rewrite Nat2Z.inj_succ.
    split; [lia|]. split; [|split; [|split]].
    + intros i. rewrite Hk, E1, E2.
      destruct (Z.leb_spec (keyword_count idx0 + 1) i),
        (Z.leb_spec (keyword_count idx0) i),
        (Z.ltb_spec i (keyword_count idx0 + 1 + Z.of_nat (length ws))),
        (Z.ltb_spec i (keyword_count idx0 + Z.succ (Z.of_nat (length ws)))),
        (Z.eqb_spec i (keyword_count idx0)); cbn [andb]; try lia; try reflexivity.
      * replace (Z.to_nat (i - keyword_count idx0))
          with (S (Z.to_nat (i - (keyword_count idx0 + 1)))) by lia.
        reflexivity.
      * subst i. rewrite Z.sub_diag. reflexivity.
    + intros i. rewrite Hd, E1, E3.
      destruct (Z.leb_spec (keyword_count idx0 + 1) i),
        (Z.leb_spec (keyword_count idx0) i),
        (Z.ltb_spec i (keyword_count idx0 + 1 + Z.of_nat (length ws))),
        (Z.ltb_spec i (keyword_count idx0 + Z.succ (Z.of_nat (length ws)))),
        (Z.eqb_spec i (keyword_count idx0)); cbn [andb]; try lia; try reflexivity.
      * replace (Z.to_nat (i - keyword_count idx0))
          with (S (Z.to_nat (i - (keyword_count idx0 + 1)))) by lia.
        reflexivity.
      * subst i. rewrite Z.sub_diag. reflexivity.
    + rewrite Hh. apply E4.
    + rewrite Hdl. apply E5.
Qed.

Lemma insert_all_spec (cap : Z) (ws : list (list Z)) :
  keyword_count (insert_all cap ws) = Z.of_nat (length ws)
  /\ (forall i, (i < length ws)%nat ->
        keywords (insert_all cap ws) (Z.of_nat i) = keyword_record (nth i ws [])
        /\ codes (insert_all cap ws) (Z.of_nat i) = pack_keyword (nth i ws [])).
Proof.
  pose proof (insert_fold ws (casefilter_create cap)) as H. cbv zeta in H.
  destruct H as (Hc & Hk & Hd & _). fold (insert_all cap ws) in Hc, Hk, Hd.
  change (keyword_count (casefilter_create cap)) with 0 in Hc, Hk, Hd.
  split; [lia|]. intros i Hi. rewrite Hk, Hd.
  destruct (Z.leb_spec 0 (Z.of_nat i)),
    (Z.ltb_spec (Z.of_nat i) (0 + Z.of_nat (length ws))); try lia.
  cbn [andb]. rewrite Z.sub_0_r, Nat2Z.id. split; reflexivity.
Qed.

(** ** The posting streams of a valid dictionary *)

Lemma in_h_postings (idx : CaseFilterIndex) (sv : Z * Z) :
  In sv (h_postings idx) <->
  exists id p, 0 <= id < Z.of_nat (Z.to_nat (keyword_count idx))
               /\ 0 <= p < 10
               /\ sv = (pair_slot (keywords idx id) p, id).
Proof.
  unfold h_postings. rewrite in_flat_map. split.
  - intros (id & Hid & Hin). apply in_map_iff in Hin.
    destruct Hin as (p & <- & Hp). apply in_range in Hid, Hp.
    exists id, p. repeat split; lia.
  - intros (id & p & Hid & Hp & ->). exists id. split; [apply in_range; lia|].
    apply in_map_iff. exists p. split; [reflexivity|]. apply in_range. lia.
Qed.

Lemma in_d_postings (idx : CaseFilterIndex) (sv : Z * Z) :
  In sv (d_postings idx) <->
  exists id pos, 0 <= id < Z.of_nat (Z.to_nat (keyword_count idx))
                 /\ 0 <= pos < 15
                 /\ (sv = (pack_key7 (left7 (del_string (keywords idx id) pos)),
                           pack_idpos id pos)
                     \/ sv = (pack_key7 (right7 (del_string (keywords idx id) pos)),
                              pack_idpos id pos)).
Proof.
  unfold d_postings. rewrite in_flat_map. split.
  - intros (id & Hid & Hin). apply in_flat_map in Hin.
    destruct Hin as (pos & Hpos & Hin). apply in_range in Hid, Hpos.
    exists id, pos. split; [lia|]. split; [lia|].
    destruct Hin as [<- | [<- | []]]; [left | right]; reflexivity.
  - intros (id & pos & Hid & Hpos & Hsv). exists id.
    split; [apply in_range; lia|]. apply in_flat_map. exists pos.
    split; [apply in_range; lia|].
    destruct Hsv as [-> | ->]; [left | right; left]; reflexivity.
Qed.

Lemma flat_map_length_const {A B : Type} (f : A -> list B) (l : list A) (k : nat) :
  (forall x, length (f x) = k) -> length (flat_map f l) = (k * length l)%nat.
Proof.
  intros H. induction l as [|x l IH]; cbn [flat_map length]; [lia|].
  rewrite length_app, H, IH. lia.
Qed.

Lemma h_postings_length (idx : CaseFilterIndex) :
  length (h_postings idx) = (10 * Z.to_nat (keyword_count idx))%nat.
Proof.
  unfold h_postings. rewrite (flat_map_length_const _ _ 10).
  - rewrite range_length. reflexivity.
  - intros id. rewrite length_map, range_length. reflexivity.
Qed.

Lemma d_postings_length (idx : CaseFilterIndex) :
  length (d_postings idx) = (30 * Z.to_nat (keyword_count idx))%nat.
Proof.
  unfold d_postings. rewrite (flat_map_length_const _ _ 30).
  - rewrite range_length. reflexivity.
  - intros id. rewrite (flat_map_length_const _ _ 2).
    + rewrite range_length. reflexivity.
    + intros pos. reflexivity.
Qed.

(** The keyword array after inserting valid words. *)
Lemma insert_all_valid (cap : Z) (ws : list (list Z)) (id : Z) :
  Forall (word_over 15) ws ->
  0 <= id < Z.of_nat (length ws) ->
  keywords (insert_all cap ws) id = nth (Z.to_nat id) ws [] ++ [0]
  /\ codes (insert_all cap ws) id = encode (nth (Z.to_nat id) ws [])
  /\ word_over 15 (nth (Z.to_nat id) ws [])
  /\ valid15 (keywords (insert_all cap ws) id).
Proof.
  intros Hws Hid.
  destruct (insert_all_spec cap ws) as [_ H].
  specialize (H (Z.to_nat id) ltac:(lia)). rewrite Z2Nat.id in H by lia.
  destruct H as [Hk Hc].
  assert (Hw : word_over 15 (nth (Z.to_nat id) ws [])).
  { rewrite Forall_forall in Hws. apply Hws, nth_In. lia. }
  rewrite Hk, Hc. split; [|split; [|split]].
  - apply keyword_record_word, Hw.
  - apply pack_keyword_encode, Hw.
  - exact Hw.
  - apply keyword_record_valid, word_over_valid15, Hw.
Qed.

Lemma h_slots_ok (cap : Z) (ws : list (list Z)) :
  Forall (word_over 15) ws -> Z.of_nat (length ws) <= 1048576 ->
  slots_ok H_SLOTS (h_postings (insert_all cap ws)) = true.
Proof.
  intros Hws Hn. destruct (insert_all_spec cap ws) as [Hc _].
  unfold slots_ok. apply andb_true_iff. split.
  - apply forallb_forall. intros sv Hsv. apply in_h_postings in Hsv.
    destruct Hsv as (id & p & Hid & Hp & ->). cbn [fst].
    rewrite Hc, Nat2Z.id in Hid.
    destruct (insert_all_valid cap ws id Hws Hid) as (_ & _ & _ & Hv).
    destruct (pair_slot_range _ p Hv Hp) as [_ B].
    unfold H_SLOTS, CASEFILTER_H_KEY_SPACE, CASEFILTER_HPAIR_COUNT.
    apply andb_true_iff. split; [apply Z.leb_le | apply Z.ltb_lt]; lia.
  - apply Z.ltb_lt. rewrite h_postings_length, Hc, Nat2Z.id. lia.
Qed.

Lemma d_slots_ok (cap : Z) (ws : list (list Z)) :
  Forall (word_over 15) ws -> Z.of_nat (length ws) <= 1048576 ->
  slots_ok CASEFILTER_DEL_KEY_SPACE (d_postings (insert_all cap ws)) = true.
Proof.
  intros Hws Hn. destruct (insert_all_spec cap ws) as [Hc _].
  unfold slots_ok. apply andb_true_iff. split.
  - apply forallb_forall. intros sv Hsv. apply in_d_postings in Hsv.
    destruct Hsv as (id & pos & Hid & Hpos & Hsv).
    rewrite Hc, Nat2Z.id in Hid.
    destruct (insert_all_valid cap ws id Hws Hid) as (_ & _ & _ & Hv).
    destruct (del_keys_range _ (del_string_word _ pos Hv Hpos)) as [Bl Br].
    unfold CASEFILTER_DEL_KEY_SPACE.
    destruct Hsv as [-> | ->]; cbn [fst];
      apply andb_true_iff; (split; [apply Z.leb_le | apply Z.ltb_lt]); lia.
  - apply Z.ltb_lt. rewrite d_postings_length, Hc, Nat2Z.id. lia.
Qed.

(** The index built from a valid dictionary, with both tables in closed
    form. *)
Lemma build_index_csr (cap : Z) (ws : list (list Z)) :
  Forall (word_over 15) ws -> Z.of_nat (length ws) <= 1048576 ->
  build_index cap ws = csr_index (insert_all cap ws).
Proof.
  intros Hws Hn. unfold build_index. fold (insert_all cap ws).
  apply finalize_csr; [apply h_slots_ok | apply d_slots_ok]; assumption.
Qed.

(** ** The payload of a CSR table *)

Lemma csr_cursor_in (slots : Z) (ps : list (Z * Z)) (s : Z) :
  0 <= s < slots -> csr_cursor slots ps s = cnt_lt s ps.
Proof.
  intros H. unfold csr_cursor.
  destruct (Z.leb_spec 0 s), (Z.ltb_spec s slots); try lia. reflexivity.
Qed.

Lemma csr_offsets_in (slots : Z) (ps : list (Z * Z)) (s : Z) :
  0 <= s <= slots -> csr_offsets slots ps s = cnt_lt s ps.
Proof.
  intros H. unfold csr_offsets.
  destruct (Z.leb_spec 0 s), (Z.leb_spec s slots); try lia. reflexivity.
Qed.

Lemma cnt_lt_next (s t : Z) (ps : list (Z * Z)) :
  s < t -> cnt_lt s ps + cnt s ps <= cnt_lt t ps.
Proof.
  intros H. rewrite <- cnt_lt_succ. apply cnt_lt_mono. lia.
Qed.

(** A posting is stored at its offset plus its rank among the postings of
    its slot, and no later posting overwrites it. *)
Lemma payload_at (slots : Z) (psW : list (Z * Z)) :
  (forall sv, In sv psW -> 0 <= fst sv < slots) ->
  forall ps2 ps1 s v ps3,
    psW = ps1 ++ (s, v) :: ps2 ++ ps3 ->
    place_rev (csr_cursor slots psW) (rev (ps1 ++ (s, v) :: ps2))
              (cnt_lt s psW + cnt s ps1) = v.
Proof.
  intros Hin ps2. induction ps2 as [|x ps2 IH] using rev_ind;
    intros ps1 s v ps3 HW.
  - rewrite rev_app_distr. cbn [rev app place_rev fst snd].
    rewrite cnt_rev, csr_cursor_in, upd_same; [reflexivity|].
    apply (Hin (s, v)). rewrite HW. apply in_or_app. right. left. reflexivity.
  - replace (ps1 ++ (s, v) :: ps2 ++ [x]) with ((ps1 ++ (s, v) :: ps2) ++ [x])
      by (rewrite <- app_assoc; reflexivity).
    rewrite rev_app_distr. cbn [rev app place_rev].
    rewrite cnt_rev.
    assert (Hs : 0 <= s < slots).
    { apply (Hin (s, v)). rewrite HW. apply in_or_app. right. left. reflexivity. }
    assert (Hx : 0 <= fst x < slots).
    { apply Hin. rewrite HW. apply in_or_app. right. right.
      apply in_or_app. left. apply in_or_app. right. left. reflexivity. }
    assert (HWx : psW = (ps1 ++ (s, v) :: ps2) ++ x :: ps3).
    { rewrite HW, <- !app_assoc. reflexivity. }
    rewrite upd_other.
    + apply (IH ps1 s v (x :: ps3)). rewrite HW, <- app_assoc. reflexivity.
    + rewrite csr_cursor_in by exact Hx.
      pose proof (cnt_nonneg s ps1). pose proof (cnt_nonneg s ps2).
      pose proof (cnt_nonneg (fst x) (ps1 ++ (s, v) :: ps2)).
      pose proof (cnt_nonneg s ps3). pose proof (cnt_nonneg (fst x) ps3).
      assert (Cs : cnt s psW = cnt s ps1 + 1 + cnt s (ps2 ++ [x] ++ ps3)).
      { rewrite HW, cnt_app, cnt_cons. cbn [fst]. rewrite Z.eqb_refl.
        cbn [app]. rewrite <- app_assoc. cbn [app]. lia. }
      assert (Cx : cnt (fst x) psW
                   = cnt (fst x) (ps1 ++ (s, v) :: ps2) + 1 + cnt (fst x) ps3).
      { rewrite HWx, cnt_app, cnt_cons, Z.eqb_refl. lia. }
      pose proof (cnt_nonneg s (ps2 ++ [x] ++ ps3)).
      destruct (Z.lt_trichotomy (fst x) s) as [L | [E | G]].
      * pose proof (cnt_lt_next (fst x) s psW L). lia.
      * rewrite E, cnt_app, cnt_cons. cbn [fst]. rewrite Z.eqb_refl. lia.
      * pose proof (cnt_lt_next s (fst x) psW G). lia.
Qed.

(** The [r]-th posting of a slot exists. *)
Lemma rank_exists (s r : Z) (ps : list (Z * Z)) :
  0 <= r < cnt s ps ->
  exists ps1 v ps2, ps = ps1 ++ (s, v) :: ps2 /\ cnt s ps1 = r.
Proof.
  revert r. induction ps as [|x ps IH]; intros r Hr.
  - rewrite cnt_nil in Hr. lia.
  - rewrite cnt_cons in Hr. destruct (Z.eqb_spec (fst x) s) as [E | N].
    + destruct (Z.eq_dec r 0) as [-> | Hr0].
      * exists [], (snd x), ps. split; [|reflexivity].
        destruct x as [a b]. cbn in *. subst a. reflexivity.
      * destruct (IH (r - 1) ltac:(lia)) as (ps1 & v & ps2 & -> & Hc).
        exists (x :: ps1), v, ps2. split; [reflexivity|].
        rewrite cnt_cons. destruct (Z.eqb_spec (fst x) s); lia.
    + destruct (IH r ltac:(lia)) as (ps1 & v & ps2 & -> & Hc).
      exists (x :: ps1), v, ps2. split; [reflexivity|].
      rewrite cnt_cons. destruct (Z.eqb_spec (fst x) s); lia.
Qed.

(** Every posting is in the run of its slot. *)
Lemma csr_run_complete (slots : Z) (ps : list (Z * Z)) (s v : Z) :
  (forall sv, In sv ps -> 0 <= fst sv < slots) ->
  In (s, v) ps ->
  exists i, 0 <= i < cnt s ps /\ csr_payload slots ps (cnt_lt s ps + i) = v.
Proof.
  intros Hin Hsv. apply in_split in Hsv. destruct Hsv as (ps1 & ps2 & E).
  exists (cnt s ps1). split.
  - rewrite E, cnt_app, cnt_cons. cbn [fst]. rewrite Z.eqb_refl.
    pose proof (cnt_nonneg s ps1). pose proof (cnt_nonneg s ps2). lia.
  - unfold csr_payload. rewrite E at 2. rewrite <- E.
    replace (ps1 ++ (s, v) :: ps2) with (ps1 ++ (s, v) :: ps2 ++ []) in E
      by (rewrite app_nil_r; reflexivity).
    pose proof (payload_at slots ps Hin ps2 ps1 s v [] E) as P.
    rewrite <- P. f_equal. f_equal.
    rewrite E, app_nil_r. reflexivity.
Qed.

(** Every cell of the run of a slot holds a posting of that slot. *)
Lemma csr_run_sound (slots : Z) (ps : list (Z * Z)) (s i : Z) :
  (forall sv, In sv ps -> 0 <= fst sv < slots) ->
  0 <= i < cnt s ps ->
  In (s, csr_payload slots ps (cnt_lt s ps + i)) ps.
Proof.
  intros Hin Hi. destruct (rank_exists s i ps Hi) as (ps1 & v & ps2 & E & Hr).
  assert (E' : ps = ps1 ++ (s, v) :: ps2 ++ [])
    by (rewrite app_nil_r; exact E).
  pose proof (payload_at slots ps Hin ps2 ps1 s v [] E') as P.
  assert (Hv : csr_payload slots ps (cnt_lt s ps + i) = v).
  { unfold csr_payload. rewrite <- Hr.
    transitivity (place_rev (csr_cursor slots ps) (rev (ps1 ++ (s, v) :: ps2))
                            (cnt_lt s ps + cnt s ps1)); [|exact P].
    rewrite <- E. reflexivity. }
  rewrite Hv, E. apply in_or_app. right. left. reflexivity.
Qed.

(** ** The tables of an index in closed form *)

Lemma small_count (s : Z) (ps : list (Z * Z)) :
  Z.of_nat (length ps) < 2147483648 -> wrap32 (cnt s ps) = cnt s ps.
Proof.
  intros H. pose proof (cnt_nonneg s ps). pose proof (cnt_le_length s ps).
  apply Z.mod_small. lia.
Qed.

Lemma csr_h_offsets (idx0 : CaseFilterIndex) (s : Z) :
  0 <= s <= 10000000 ->
  h_offsets (hidx (csr_index idx0)) s = cnt_lt s (h_postings idx0).
Proof. intros H. apply (csr_offsets_in H_SLOTS), H. Qed.

Lemma csr_d_offsets (idx0 : CaseFilterIndex) (s : Z) :
  0 <= s <= 10000000 ->
  d_offsets (del7 (csr_index idx0)) s = cnt_lt s (d_postings idx0).
Proof. intros H. apply (csr_offsets_in CASEFILTER_DEL_KEY_SPACE), H. Qed.

Lemma csr_h_counts (idx0 : CaseFilterIndex) (s : Z) :
  slots_ok H_SLOTS (h_postings idx0) = true ->
  h_counts (hidx (csr_index idx0)) s = cnt s (h_postings idx0).
Proof.
  intros H. apply (small_count s (h_postings idx0)).
  apply (slots_ok_spec H_SLOTS), H.
Qed.

Lemma csr_d_counts (idx0 : CaseFilterIndex) (s : Z) :
  slots_ok CASEFILTER_DEL_KEY_SPACE (d_postings idx0) = true ->
  d_counts (del7 (csr_index idx0)) s = cnt s (d_postings idx0).
Proof.
  intros H. apply (small_count s (d_postings idx0)).
  apply (slots_ok_spec CASEFILTER_DEL_KEY_SPACE), H.
Qed.

Lemma csr_h_ids (idx0 : CaseFilterIndex) (j : Z) :
  h_ids (hidx (csr_index idx0)) j = csr_payload H_SLOTS (h_postings idx0) j.
Proof. reflexivity. Qed.

Lemma csr_d_idpos (idx0 : CaseFilterIndex) (j : Z) :
  d_idpos (del7 (csr_index idx0)) j
  = csr_payload CASEFILTER_DEL_KEY_SPACE (d_postings idx0) j.
Proof. reflexivity. Qed.

Lemma csr_index_postings (idx0 : CaseFilterIndex) :
  h_postings (csr_index idx0) = h_postings idx0
  /\ d_postings (csr_index idx0) = d_postings idx0.
Proof. split; reflexivity. Qed.

Lemma h_postings_in_range (cap : Z) (ws : list (list Z)) :
  Forall (word_over 15) ws -> Z.of_nat (length ws) <= 1048576 ->
  forall sv, In sv (h_postings (insert_all cap ws)) -> 0 <= fst sv < 10000000.
Proof. intros Hws Hn. apply (slots_ok_spec H_SLOTS), h_slots_ok; assumption. Qed.

Lemma d_postings_in_range (cap : Z) (ws : list (list Z)) :
  Forall (word_over 15) ws -> Z.of_nat (length ws) <= 1048576 ->
  forall sv, In sv (d_postings (insert_all cap ws)) -> 0 <= fst sv < 10000000.
Proof.
  intros Hws Hn.
  apply (slots_ok_spec CASEFILTER_DEL_KEY_SPACE), d_slots_ok; assumption.
Qed.

Lemma cell_slot (ps : list (Z * Z)) (n : nat) (j : Z) :
  (forall sv, In sv ps -> 0 <= fst sv) ->
  0 <= j < cnt_lt (Z.of_nat n) ps ->
  exists s, 0 <= s < Z.of_nat n /\ cnt_lt s ps <= j < cnt_lt (s + 1) ps.
Proof.
  intros Hin. induction n as [|n IH]; intros Hj.
  - rewrite cnt_lt_low in Hj by exact Hin. lia.
  - rewrite Nat2Z.inj_succ, <- Z.add_1_r in Hj.
    destruct (Z.lt_ge_cases j (cnt_lt (Z.of_nat n) ps)) as [L | G].
    + destruct (IH ltac:(lia)) as (s & Hs & Hr). exists s. split; [lia | exact Hr].
    + exists (Z.of_nat n). split; lia.
Qed.

(** Claim C6 (CSR invariants after finalize).  For the index built from [N]
    words of 15 characters over [{A..J}] ([N <= 2^20]), in each of the two
    tables [offsets[0] = 0], [offsets[i+1] - offsets[i] = counts[i]] for
    every slot [i], and [offsets[slots]] is the payload length: it is the
    number of postings the second pass wrote, [10 * N] for the pair table
    and [30 * N] for the deletion table, and every payload cell below it
    lies in the run of a slot and holds a posting filed under that slot. *)
Theorem csr_invariants_after_finalize (cap : Z) (ws : list (list Z)) :
  Forall (word_over 15) ws -> Z.of_nat (length ws) <= 1048576 ->
  let idx := build_index cap ws in
  let n := Z.of_nat (length ws) in
  (h_offsets (hidx idx) 0 = 0
   /\ (forall i, 0 <= i < 10000000 ->
         h_offsets (hidx idx) (i + 1) - h_offsets (hidx idx) i
         = h_counts (hidx idx) i)
   /\ h_offsets (hidx idx) 10000000 = Z.of_nat (length (h_postings idx))
   /\ h_offsets (hidx idx) 10000000 = 10 * n
   /\ (forall j, 0 <= j < 10 * n ->
         exists s, 0 <= s < 10000000
           /\ h_offsets (hidx idx) s <= j < h_offsets (hidx idx) (s + 1)
           /\ In (s, h_ids (hidx idx) j) (h_postings idx)))
  /\ (d_offsets (del7 idx) 0 = 0
      /\ (forall i, 0 <= i < 10000000 ->
            d_offsets (del7 idx) (i + 1) - d_offsets (del7 idx) i
            = d_counts (del7 idx) i)
      /\ d_offsets (del7 idx) 10000000 = Z.of_nat (length (d_postings idx))
      /\ d_offsets (del7 idx) 10000000 = 30 * n
      /\ (forall j, 0 <= j < 30 * n ->
            exists s, 0 <= s < 10000000
              /\ d_offsets (del7 idx) s <= j < d_offsets (del7 idx) (s + 1)
              /\ In (s, d_idpos (del7 idx) j) (d_postings idx))).
Proof.
  intros Hws Hn idx n. subst idx.
  rewrite (build_index_csr cap ws Hws Hn).
  destruct (csr_index_postings (insert_all cap ws)) as [-> ->].
  pose proof (h_postings_in_range cap ws Hws Hn) as Rh.
  pose proof (d_postings_in_range cap ws Hws Hn) as Rd.
  pose proof (csr_h_offsets (insert_all cap ws)) as Oh.
  pose proof (csr_d_offsets (insert_all cap ws)) as Od.
  pose proof (fun s => csr_h_counts (insert_all cap ws) s
                         (h_slots_ok cap ws Hws Hn)) as Ch.
  pose proof (fun s => csr_d_counts (insert_all cap ws) s
                         (d_slots_ok cap ws Hws Hn)) as Cd.
  pose proof (csr_h_ids (insert_all cap ws)) as Ih.
  pose proof (csr_d_idpos (insert_all cap ws)) as Id.
  assert (Lh : Z.of_nat (length (h_postings (insert_all cap ws))) = 10 * n).
  { rewrite h_postings_length.
    destruct (insert_all_spec cap ws) as [-> _]. rewrite Nat2Z.id. unfold n. lia. }
  assert (Ld : Z.of_nat (length (d_postings (insert_all cap ws))) = 30 * n).
  { rewrite d_postings_length.
    destruct (insert_all_spec cap ws) as [-> _]. rewrite Nat2Z.id. unfold n. lia. }
  generalize dependent (csr_index (insert_all cap ws)). intros idx Oh Od Ch Cd Ih Id.
  set (psh := h_postings (insert_all cap ws)) in *.
  set (psd := d_postings (insert_all cap ws)) in *.
  clearbody psh psd.
  assert (Th : cnt_lt 10000000 psh = Z.of_nat (length psh)).
  { apply cnt_lt_all. intros sv Hsv. apply Rh in Hsv. lia. }
  assert (Td : cnt_lt 10000000 psd = Z.of_nat (length psd)).
  { apply cnt_lt_all. intros sv Hsv. apply Rd in Hsv. lia. }
  split.
  - split; [|split; [|split; [|split]]].
    + rewrite Oh by lia. apply cnt_lt_low. intros sv Hsv. apply Rh in Hsv. lia.
    + intros i Hi. rewrite !Oh, Ch, cnt_lt_succ by lia. lia.
    + rewrite Oh by lia. exact Th.
    + rewrite Oh by lia. lia.
    + intros j Hj.
      destruct (cell_slot psh (Z.to_nat 10000000) j) as (s & Hs & Hr).
      * intros sv Hsv. apply Rh in Hsv. lia.
      * rewrite Z2Nat.id by lia. lia.
      * rewrite Z2Nat.id in Hs by lia. exists s. split; [exact Hs|].
        rewrite !Oh by lia. split; [exact Hr|].
        rewrite Ih.
        replace j with (cnt_lt s psh + (j - cnt_lt s psh)) by lia.
        apply (csr_run_sound 10000000); [exact Rh|].
        rewrite cnt_lt_succ in Hr. lia.
  - split; [|split; [|split; [|split]]].
    + rewrite Od by lia. apply cnt_lt_low. intros sv Hsv. apply Rd in Hsv. lia.
    + intros i Hi. rewrite !Od, Cd, cnt_lt_succ by lia. lia.
    + rewrite Od by lia. exact Td.
    + rewrite Od by lia. lia.
    + intros j Hj.
      destruct (cell_slot psd (Z.to_nat 10000000) j) as (s & Hs & Hr).
      * intros sv Hsv. apply Rd in Hsv. lia.
      * rewrite Z2Nat.id by lia. lia.
      * rewrite Z2Nat.id in Hs by lia. exists s. split; [exact Hs|].
        rewrite !Od by lia. split; [exact Hr|].
        rewrite Id.
        replace j with (cnt_lt s psd + (j - cnt_lt s psd)) by lia.
        apply (csr_run_sound 10000000); [exact Rd|].
        rewrite cnt_lt_succ in Hr. lia.
Qed.


(** ** Levenshtein distance and edit scripts *)

Lemma levenshtein_nil_r (a : list Z) : levenshtein a [] = length a.
Proof. destruct a; reflexivity. Qed.

Lemma levenshtein_cons (x y : Z) (a b : list Z) :
  levenshtein (x :: a) (y :: b)
  = min3 (S (levenshtein a (y :: b))) (S (levenshtein (x :: a) b))
         ((if Z.eqb x y then 0 else 1) + levenshtein a b)%nat.
Proof. reflexivity. Qed.

Lemma levenshtein_del (x : Z) (a b : list Z) :
  (levenshtein (x :: a) b <= S (levenshtein a b))%nat.
Proof.
  destruct b as [|y b].
  - rewrite !levenshtein_nil_r. cbn [length]. lia.
  - rewrite levenshtein_cons. unfold min3. lia.
Qed.

Lemma levenshtein_ins (y : Z) (a b : list Z) :
  (levenshtein a (y :: b) <= S (levenshtein a b))%nat.
Proof.
  destruct a as [|x a].
  - cbn [levenshtein length]. lia.
  - rewrite levenshtein_cons. unfold min3. lia.
Qed.

(** The Levenshtein distance is at most the cost of any edit script. *)
Lemma levenshtein_le_edit (a b : list Z) (n : nat) :
  edit a b n -> (levenshtein a b <= n)%nat.
Proof.
  induction 1 as [|x y a b n H IH|x a b n H IH|y a b n H IH].
  - cbn. lia.
  - rewrite levenshtein_cons. unfold min3. lia.
  - pose proof (levenshtein_del x a b). lia.
  - pose proof (levenshtein_ins y a b). lia.
Qed.

Lemma hamming_nonneg (a b : list Z) : 0 <= hamming a b.
Proof.
  revert b. induction a as [|x a IH]; intros [|y b]; cbn [hamming]; try lia.
  specialize (IH b). destruct (x =? y); lia.
Qed.

Lemma edit_hamming (a b : list Z) :
  length a = length b -> edit a b (Z.to_nat (hamming a b)).
Proof.
  revert b. induction a as [|x a IH]; intros [|y b] H; try discriminate.
  - apply edit_nil.
  - cbn [hamming]. pose proof (hamming_nonneg a b).
    replace (Z.to_nat ((if x =? y then 0 else 1) + hamming a b))
      with ((if Z.eqb x y then 0 else 1) + Z.to_nat (hamming a b))%nat
      by (destruct (x =? y); lia).
    apply edit_sub, IH. cbn in H. lia.
Qed.

Lemma edit_delete_at (a b : list Z) (n : nat) :
  edit a b n ->
  forall a1 x a2, a = a1 ++ a2 -> edit (a1 ++ x :: a2) b (S n).
Proof.
  induction 1 as [|x0 y a b n H IH|x0 a b n H IH|y a b n H IH];
    intros a1 x a2 E.
  - destruct a1, a2; try discriminate. cbn. apply edit_del, edit_nil.
  - destruct a1 as [|c a1]; cbn [app] in *.
    + subst a2. apply edit_del, edit_sub, H.
    + injection E as -> ->.
      replace (S ((if Z.eqb c y then 0 else 1) + n))
        with ((if Z.eqb c y then 0 else 1) + S n)%nat by lia.
      apply edit_sub, IH. reflexivity.
  - destruct a1 as [|c a1]; cbn [app] in *.
    + subst a2. apply edit_del, edit_del, H.
    + injection E as -> ->. apply edit_del, IH. reflexivity.
  - apply edit_ins, IH, E.
Qed.

Lemma edit_insert_at (a b : list Z) (n : nat) :
  edit a b n ->
  forall b1 y b2, b = b1 ++ b2 -> edit a (b1 ++ y :: b2) (S n).
Proof.
  induction 1 as [|x y0 a b n H IH|x a b n H IH|y0 a b n H IH];
    intros b1 y b2 E.
  - destruct b1, b2; try discriminate. cbn. apply edit_ins, edit_nil.
  - destruct b1 as [|c b1]; cbn [app] in *.
    + subst b2. apply edit_ins, edit_sub, H.
    + injection E as -> ->.
      replace (S ((if Z.eqb x c then 0 else 1) + n))
        with ((if Z.eqb x c then 0 else 1) + S n)%nat by lia.
      apply edit_sub, IH. reflexivity.
  - apply edit_del, IH, E.
  - destruct b1 as [|c b1]; cbn [app] in *.
    + subst b2. apply edit_ins, edit_ins, H.
    + injection E as -> ->. apply edit_ins, IH. reflexivity.
Qed.

Lemma remove_at_split (p : nat) (w : list Z) :
  (p < length w)%nat ->
  w = firstn p w ++ nth p w 0 :: skipn (S p) w.
Proof.
  intros Hp. rewrite <- (firstn_skipn p w) at 1. f_equal.
  rewrite <- (firstn_skipn 1 (skipn p w)) at 1.
  rewrite skipn_skipn. f_equal.
  destruct (skipn p w) as [|y r] eqn:E.
  - apply (f_equal (@length Z)) in E. rewrite length_skipn in E. cbn in E. lia.
  - cbn. f_equal. rewrite <- (Nat.add_0_r p), <- nth_skipn, E. reflexivity.
Qed.

(** Substitutions only: the Levenshtein distance is at most the Hamming
    distance. *)
Lemma levenshtein_le_hamming (a b : list Z) :
  length a = length b -> (levenshtein a b <= Z.to_nat (hamming a b))%nat.
Proof. intros H. apply levenshtein_le_edit, edit_hamming, H. Qed.

(** One deletion, one insertion and the substitutions between the two
    shortened strings. *)
Lemma levenshtein_le_indel (q w : list Z) (p pw : nat) :
  length q = length w -> (p < length q)%nat -> (pw < length w)%nat ->
  (levenshtein q w
   <= 2 + Z.to_nat (hamming (remove_at p q) (remove_at pw w)))%nat.
Proof.
  intros Hl Hp Hpw. apply levenshtein_le_edit.
  rewrite (remove_at_split p q Hp) at 1.
  rewrite (remove_at_split pw w Hpw) at 1.
  apply edit_delete_at with (a := remove_at p q); [|reflexivity].
  apply edit_insert_at with (b := remove_at pw w); [|reflexivity].
  apply edit_hamming. rewrite !remove_at_length by lia. lia.
Qed.


(** ** Loops with early return *)

Lemma loop_until_some {A S R : Type} (body : A -> S -> S * option R)
      (l : list A) (s s' : S) (r : R) :
  loop_until body l s = (s', Some r) ->
  exists x s0, In x l /\ body x s0 = (s', Some r).
Proof.
  revert s. induction l as [|x l IH]; intros s H; cbn [loop_until] in H.
  - discriminate.
  - destruct (body x s) as [s1 [r1|]] eqn:E.
    + exists x, s. split; [left; reflexivity|]. rewrite E. exact H.
    + destruct (IH s1 H) as (y & s0 & Hy & Hb).
      exists y, s0. split; [right; exact Hy | exact Hb].
Qed.

Lemma fold_left_invariant {A S : Type} (P : S -> Prop) (f : S -> A -> S)
      (l : list A) (s : S) :
  (forall s x, In x l -> P s -> P (f s x)) -> P s -> P (fold_left f l s).
Proof.
  revert s. induction l as [|x l IH]; intros s Hf Hs; cbn [fold_left].
  - exact Hs.
  - apply IH.
    + intros s1 y Hy. apply Hf. right. exact Hy.
    + apply Hf; [left; reflexivity | exact Hs].
Qed.

Lemma in_range_from (a b j : Z) : In j (range_from a b) <-> a <= j < b.
Proof.
  unfold range_from. rewrite in_map_iff. split.
  - intros (t & <- & Ht). apply in_range in Ht. lia.
  - intros H. exists (j - a). split; [lia|]. apply in_range. lia.
Qed.

(** ** The sort of the probe order *)

Lemma init_order (n : nat) (i : Z) :
  fold_left (fun order p => upd order p p) (range n) zeros i
  = if (0 <=? i) && (i <? Z.of_nat n) then i else 0.
Proof.
  induction n as [|n IH].
  - cbn [range seq map fold_left]. unfold zeros.
    destruct (Z.leb_spec 0 i), (Z.ltb_spec i (Z.of_nat 0)); cbn [andb];
      try reflexivity. cbn in *. lia.
  - rewrite range_S, fold_left_app. cbn [fold_left]. unfold upd at 1.
    rewrite IH.
    destruct (Z.eqb_spec i (Z.of_nat n)), (Z.leb_spec 0 i),
      (Z.ltb_spec i (Z.of_nat n)), (Z.ltb_spec i (Z.of_nat (S n)));
      cbn [andb]; lia.
Qed.

Lemma sort_order_unfold (len : Z -> Z) :
  sort_order len
  = fold_left
      (fun order i => fold_left (swap_step len i) (range_from (i + 1) 10) order)
      (range 10)
      (fold_left (fun order p => upd order p p) (range 10) zeros).
Proof. reflexivity. Qed.

Lemma swap_step_ok (len : Z -> Z) (i j jb : Z) (order : arr Z) :
  0 <= i < 10 -> i < j < 10 -> i < jb <= j ->
  order_ok len i order ->
  (forall y, i < y < jb -> len (order i) <= len (order y)) ->
  (jb = j) ->
  order_ok len i (swap_step len i order j)
  /\ (forall y, i < y < j + 1 ->
        len (swap_step len i order j i) <= len (swap_step len i order j y)).
Proof.
  intros Hi Hj Hjb (R & Inj & Srt) Hrow ->. unfold swap_step.
  destruct (Z.gtb_spec (len (order i)) (len (order j))) as [G | L].
  - split; [split; [|split]|].
    + intros x Hx. unfold upd.
      destruct (Z.eqb_spec x j); [apply R; lia|].
      destruct (Z.eqb_spec x i); apply R; lia.
    + intros x y Hx Hy. unfold upd.
      destruct (Z.eqb_spec x j), (Z.eqb_spec y j), (Z.eqb_spec x i),
        (Z.eqb_spec y i); subst; intros E; try lia;
        try (apply Inj in E; lia).
    + intros x y Hx Hy. unfold upd.
      destruct (Z.eqb_spec x j), (Z.eqb_spec x i); try lia.
      destruct (Z.eqb_spec y j), (Z.eqb_spec y i); subst; try lia;
        apply Srt; lia.
    + intros y Hy. unfold upd.
      destruct (Z.eqb_spec i j); [lia|]. rewrite Z.eqb_refl.
      destruct (Z.eqb_spec y j), (Z.eqb_spec y i); subst; try lia.
      specialize (Hrow y ltac:(lia)). lia.
  - split; [split; [|split]; assumption|].
    intros y Hy. destruct (Z.eq_dec y j) as [-> | Ny]; [lia|].
    apply Hrow. lia.
Qed.

Lemma inner_loop_ok (len : Z -> Z) (i : Z) (n : nat) (order : arr Z) :
  0 <= i < 10 -> i + 1 + Z.of_nat n <= 10 ->
  order_ok len i order ->
  let order' :=
    fold_left (swap_step len i) (map (fun t => i + 1 + t) (range n)) order in
  order_ok len i order'
  /\ (forall y, i < y < i + 1 + Z.of_nat n -> len (order' i) <= len (order' y)).
Proof.
  intros Hi. induction n as [|n IH]; intros Hn Hok; cbv zeta.
  - cbn [range seq map fold_left]. split; [exact Hok|]. intros y Hy. lia.
  - rewrite range_S, map_app, fold_left_app. cbn [map fold_left].
    destruct (IH ltac:(lia) Hok) as [Hok' Hrow]. cbv zeta in Hok', Hrow.
    set (o := fold_left (swap_step len i) (map (fun t => i + 1 + t) (range n))
                        order) in *.
    destruct (swap_step_ok len i (i + 1 + Z.of_nat n) (i + 1 + Z.of_nat n) o)
      as [A B]; try lia; auto.
    split; [exact A|]. intros y Hy. apply B. lia.
Qed.

Lemma init_order_ok (len : Z -> Z) :
  order_ok len 0 (fold_left (fun order p => upd order p p) (range 10) zeros).
Proof.
  split; [|split].
  - intros x Hx. rewrite init_order.
    destruct (Z.leb_spec 0 x), (Z.ltb_spec x (Z.of_nat 10)); cbn [andb]; lia.
  - intros x y Hx Hy. rewrite !init_order.
    destruct (Z.leb_spec 0 x), (Z.ltb_spec x (Z.of_nat 10)),
      (Z.leb_spec 0 y), (Z.ltb_spec y (Z.of_nat 10)); cbn [andb]; lia.
  - intros x y Hx. lia.
Qed.

Lemma outer_loop_ok (len : Z -> Z) (k : nat) :
  (k <= 10)%nat ->
  order_ok len (Z.of_nat k)
    (fold_left
       (fun order i => fold_left (swap_step len i) (range_from (i + 1) 10) order)
       (range k)
       (fold_left (fun order p => upd order p p) (range 10) zeros)).
Proof.
  induction k as [|k IH]; intros Hk.
  - change (range 0) with (@nil Z). cbn [fold_left]. apply init_order_ok.
  - rewrite range_S, fold_left_app. cbn [fold_left].
    specialize (IH ltac:(lia)).
    set (o := fold_left _ (range k) _) in *.
    unfold range_from.
    replace (Z.to_nat (10 - (Z.of_nat k + 1))) with (10 - S k)%nat by lia.
    destruct (inner_loop_ok len (Z.of_nat k) (10 - S k) o) as [A B];
      try lia; auto.
    cbv zeta in A, B.
    set (o' := fold_left _ _ o) in *.
    destruct A as (R & Inj & Srt). split; [exact R|]. split; [exact Inj|].
    intros x y Hx Hy.
    destruct (Z.eq_dec x (Z.of_nat k)) as [-> | Nx].
    + apply B. lia.
    + apply Srt; lia.
Qed.

Lemma sort_order_ok (len : Z -> Z) : order_ok len 10 (sort_order len).
Proof. rewrite sort_order_unfold. apply (outer_loop_ok len 10). lia. Qed.


(** ** What a hit of the search establishes *)

Lemma phase_a_hit (idx : CaseFilterIndex) (q : list Z) (k g : Z)
      (vis vis' : arr Z) (r : Z) :
  phase_a idx q k g vis = (vis', Some r) ->
  r = 1
  /\ exists p i,
       0 <= p < 10 /\ 0 <= i < pair_len idx q p
       /\ hamming_packed15 (pack_keyword q)
            (codes idx (h_ids (hidx idx) (pair_start idx q p + i))) <= k.
Proof.
  unfold phase_a. intros H.
  apply loop_until_some in H. destruct H as (oi & s0 & Hoi & H).
  apply in_range in Hoi.
  destruct (sort_order_ok (pair_len idx q)) as (R & _ & _).
  specialize (R oi ltac:(lia)).
  set (p := sort_order (pair_len idx q) oi) in *. clearbody p.
  destruct (pair_len idx q p =? 0); [discriminate|].
  apply loop_until_some in H. destruct H as (i & s1 & Hi & H).
  apply in_range in Hi.
  destruct (s1 (h_ids (hidx idx) (pair_start idx q p + i)) =? g);
    [discriminate|].
  destruct (Z.leb_spec
              (hamming_packed15 (pack_keyword q)
                 (codes idx (h_ids (hidx idx) (pair_start idx q p + i)))) k)
    as [L | G]; [|discriminate].
  injection H as _ <-. split; [reflexivity|].
  exists p, i. split; [lia|]. split; [lia | exact L].
Qed.

Lemma scan_del_hit (idx : CaseFilterIndex) (qdel_code k g slot : Z)
      (vis vis' : arr Z) (r : Z) :
  scan_del idx qdel_code k g slot vis = (vis', Some r) ->
  r = 1
  /\ exists i,
       0 <= i < d_offsets (del7 idx) (slot + 1) - d_offsets (del7 idx) slot
       /\ 2 + hamming_packed14 qdel_code
                (casefilter_pack_delete
                   (codes idx (Z.land (d_idpos (del7 idx)
                                         (d_offsets (del7 idx) slot + i))
                                      0xFFFFF))
                   (Z.land (Z.shiftr (d_idpos (del7 idx)
                                        (d_offsets (del7 idx) slot + i)) 20)
                           0xF)) <= k.
Proof.
  unfold scan_del. intros H.
  destruct (d_offsets (del7 idx) (slot + 1) >? d_offsets (del7 idx) slot);
    [|discriminate].
  apply loop_until_some in H. destruct H as (i & s1 & Hi & H).
  apply in_range in Hi.
  set (v := d_idpos (del7 idx) (d_offsets (del7 idx) slot + i)) in *.
  destruct (s1 (Z.land v 1048575) =? g); [discriminate|].
  match type of H with
  | (if ?a <=? ?b then _ else _) = _ => destruct (Z.leb_spec a b) as [L | G]
  end; [|discriminate].
  injection H as _ <-. split; [reflexivity|].
  exists i. split; [lia | exact L].
Qed.

Lemma phase_b_hit (idx : CaseFilterIndex) (q : list Z) (k g : Z)
      (vis vis' : arr Z) (r : Z) :
  phase_b idx q k g vis = (vis', Some r) ->
  r = 1
  /\ exists pos slot i,
       0 <= pos < 15
       /\ (slot = to_int (pack_key7 (left7 (query_del q pos)))
           \/ slot = to_int (pack_key7 (right7 (query_del q pos))))
       /\ 0 <= i < d_offsets (del7 idx) (slot + 1) - d_offsets (del7 idx) slot
       /\ 2 + hamming_packed14 (casefilter_pack_delete (pack_keyword q) pos)
                (casefilter_pack_delete
                   (codes idx (Z.land (d_idpos (del7 idx)
                                         (d_offsets (del7 idx) slot + i))
                                      0xFFFFF))
                   (Z.land (Z.shiftr (d_idpos (del7 idx)
                                        (d_offsets (del7 idx) slot + i)) 20)
                           0xF)) <= k.
Proof.
  unfold phase_b. intros H.
  apply loop_until_some in H. destruct H as (pos & s0 & Hpos & H).
  apply in_range in Hpos.
  destruct (scan_del idx (casefilter_pack_delete (pack_keyword q) pos) k g
              (to_int (pack_key7 (left7 (query_del q pos)))) s0)
    as [v1 [r1|]] eqn:E1.
  - injection H as <- <-. apply scan_del_hit in E1.
    destruct E1 as (-> & i & Hi & Hh). split; [reflexivity|].
    exists pos, (to_int (pack_key7 (left7 (query_del q pos)))), i.
    split; [lia|]. split; [left; reflexivity|]. split; assumption.
  - apply scan_del_hit in H.
    destruct H as (-> & i & Hi & Hh). split; [reflexivity|].
    exists pos, (to_int (pack_key7 (right7 (query_del q pos)))), i.
    split; [lia|]. split; [right; reflexivity|]. split; assumption.
Qed.

Lemma strlen_word (n : nat) (w : list Z) :
  word_over n w -> strlen w = Z.of_nat n.
Proof.
  intros [Hl Hf]. subst n. induction Hf as [|c w Hc Hw IH]; [reflexivity|].
  cbn [strlen length]. unfold is_AJ in Hc.
  destruct (Z.eqb_spec c 0); [lia|]. rewrite IH. lia.
Qed.

(** A search that returns 1 found its candidate in one of the two phases. *)
Lemma search_hit (st st' : SearchState) (idx : CaseFilterIndex) (q : list Z)
      (k : Z) :
  casefilter_search st (Some idx) (Some q) k = (st', 1) ->
  (exists p i,
      0 <= p < 10 /\ 0 <= i < pair_len idx q p
      /\ hamming_packed15 (pack_keyword q)
           (codes idx (h_ids (hidx idx) (pair_start idx q p + i))) <= k)
  \/ (exists pos slot i,
        0 <= pos < 15
        /\ (slot = to_int (pack_key7 (left7 (query_del q pos)))
            \/ slot = to_int (pack_key7 (right7 (query_del q pos))))
        /\ 0 <= i < d_offsets (del7 idx) (slot + 1) - d_offsets (del7 idx) slot
        /\ 2 + hamming_packed14 (casefilter_pack_delete (pack_keyword q) pos)
                 (casefilter_pack_delete
                    (codes idx (Z.land (d_idpos (del7 idx)
                                          (d_offsets (del7 idx) slot + i))
                                       0xFFFFF))
                    (Z.land (Z.shiftr (d_idpos (del7 idx)
                                         (d_offsets (del7 idx) slot + i)) 20)
                            0xF)) <= k).
Proof.
  unfold casefilter_search. intros H.
  destruct (negb (strlen q =? KEYWORD_LEN)); [discriminate|].
  set (st1 := if keyword_count idx >? visited_cap st
              then mkState (Some zeros) (keyword_count idx) 1 else st) in *.
  clearbody st1.
  destruct (visited_buf st1) as [visited|]; [|discriminate].
  cbv zeta in H.
  set (g := if wrap32 (gen st1 + 1) =? 0 then 1 else wrap32 (gen st1 + 1)) in *.
  set (v0 := if wrap32 (gen st1 + 1) =? 0
             then memset0 visited (visited_cap st1) else visited) in *.
  clearbody g v0.
  destruct (phase_a idx q k g v0) as [v1 [r1|]] eqn:EA.
  - apply phase_a_hit in EA. destruct EA as (_ & HA). left. exact HA.
  - destruct (phase_b idx q k (wrap32 (g + 1)) v1) as [v2 [r2|]] eqn:EB.
    + apply phase_b_hit in EB. destruct EB as (_ & HB). right. exact HB.
    + discriminate.
Qed.

(** ** Soundness of the search *)

Lemma pack_idpos_fields (id pos : Z) :
  0 <= id < 1048576 -> 0 <= pos < 16 ->
  Z.land (pack_idpos id pos) 0xFFFFF = id
  /\ Z.land (Z.shiftr (pack_idpos id pos) 20) 0xF = pos.
Proof.
  intros Hid Hpos. unfold pack_idpos, wrap32.
  rewrite (Z.mod_small id), (Z.mod_small pos) by lia.
  change 0xFFFFF with (Z.ones 20). rewrite (Z.land_ones id) by lia.
  change (2 ^ 20) with 1048576. rewrite (Z.mod_small id) by lia.
  rewrite Z.shiftl_mul_pow2 by lia. change (2 ^ 20) with 1048576.
  rewrite (Z.mod_small (pos * 1048576)) by lia.
  change (pos * 1048576) with (pos * 2 ^ 20).
  rewrite <- Z.shiftl_mul_pow2 by lia.
  rewrite lor_low_high by (change (2 ^ 20) with 1048576; lia).
  change (2 ^ 20) with 1048576. split.
  - rewrite Z.land_ones by lia. change (2 ^ 20) with 1048576.
    symmetry. apply (Z.mod_unique _ _ pos); lia.
  - rewrite Z.shiftr_div_pow2 by lia. change (2 ^ 20) with 1048576.
    replace ((id + pos * 1048576) / 1048576) with pos
      by (apply (Z.div_unique _ _ _ id); lia).
    apply land15_small. lia.
Qed.

Section Soundness.
Variables (cap : Z) (ws : list (list Z)) (q : list Z).
Hypothesis Hws : Forall (word_over 15) ws.
Hypothesis Hn : Z.of_nat (length ws) <= 1048576.
Hypothesis Hq : word_over 15 q.

(** A candidate read from a pair run is a word of the dictionary. *)
Lemma pair_candidate (p i : Z) :
  0 <= p < 10 -> 0 <= i < pair_len (csr_index (insert_all cap ws)) q p ->
  exists w, In w ws /\ word_over 15 w
    /\ codes (insert_all cap ws)
             (h_ids (hidx (csr_index (insert_all cap ws)))
                    (pair_start (csr_index (insert_all cap ws)) q p + i))
       = encode w.
Proof.
  intros Hp Hi.
  destruct (pair_slot_range q p (word_over_valid15 q Hq) Hp) as [_ Bs].
  unfold pair_len, pair_start in *.
  revert Hi Bs. generalize (pair_slot q p). intros s Hi Bs.
  rewrite !csr_h_offsets in Hi by lia. rewrite csr_h_offsets by lia.
  rewrite cnt_lt_succ in Hi. rewrite csr_h_ids.
  pose proof (csr_run_sound H_SLOTS (h_postings (insert_all cap ws)) s i
                (h_postings_in_range cap ws Hws Hn) ltac:(lia)) as Hin.
  revert Hin.
  generalize (csr_payload H_SLOTS (h_postings (insert_all cap ws))
                (cnt_lt s (h_postings (insert_all cap ws)) + i)).
  intros v Hin.
  apply in_h_postings in Hin. destruct Hin as (id & p' & Hid & _ & E).
  injection E as _ ->.
  destruct (insert_all_spec cap ws) as [Ec _].
  rewrite Ec, Nat2Z.id in Hid.
  destruct (insert_all_valid cap ws id Hws Hid) as (_ & Hcode & Hw & _).
  exists (nth (Z.to_nat id) ws []). split; [apply nth_In; lia|].
  split; [exact Hw | exact Hcode].
Qed.

(** A candidate read from a deletion run is a word of the dictionary with
    one of its positions. *)
Lemma del_candidate (slot i : Z) :
  0 <= slot < 10000000 ->
  0 <= i < d_offsets (del7 (csr_index (insert_all cap ws))) (slot + 1)
           - d_offsets (del7 (csr_index (insert_all cap ws))) slot ->
  exists w posw,
    In w ws /\ word_over 15 w /\ 0 <= posw < 15
    /\ codes (insert_all cap ws)
             (Z.land (d_idpos (del7 (csr_index (insert_all cap ws)))
                        (d_offsets (del7 (csr_index (insert_all cap ws))) slot + i))
                     0xFFFFF) = encode w
    /\ Z.land (Z.shiftr (d_idpos (del7 (csr_index (insert_all cap ws)))
                           (d_offsets (del7 (csr_index (insert_all cap ws))) slot + i))
                        20)
              0xF = posw.
Proof.
  intros Hs Hi.
  rewrite !csr_d_offsets in Hi by lia. rewrite csr_d_offsets by lia.
  rewrite cnt_lt_succ in Hi. rewrite csr_d_idpos.
  pose proof (csr_run_sound CASEFILTER_DEL_KEY_SPACE
                (d_postings (insert_all cap ws)) slot i
                (d_postings_in_range cap ws Hws Hn) ltac:(lia)) as Hin.
  revert Hin.
  generalize (csr_payload CASEFILTER_DEL_KEY_SPACE
                (d_postings (insert_all cap ws))
                (cnt_lt slot (d_postings (insert_all cap ws)) + i)).
  intros v Hin.
  apply in_d_postings in Hin. destruct Hin as (id & posw & Hid & Hpw & E).
  assert (Ev : v = pack_idpos id posw)
    by (destruct E as [E | E]; injection E as _ ->; reflexivity).
  subst v. clear E.
  destruct (insert_all_spec cap ws) as [Ec _].
  rewrite Ec, Nat2Z.id in Hid.
  destruct (insert_all_valid cap ws id Hws Hid) as (_ & Hcode & Hw & _).
  destruct (pack_idpos_fields id posw ltac:(lia) ltac:(lia)) as [F1 F2].
  exists (nth (Z.to_nat id) ws []), posw.
  split; [apply nth_In; lia|]. split; [exact Hw|]. split; [exact Hpw|].
  rewrite F1, F2. split; [exact Hcode | reflexivity].
Qed.

Lemma sound_from_hit (st st' : SearchState) :
  casefilter_search st (Some (csr_index (insert_all cap ws))) (Some q) 3
  = (st', 1) ->
  exists w, In w ws /\ (levenshtein q w <= 3)%nat.
Proof.
  intros H. apply search_hit in H. destruct Hq as [Lq Fq].
  change (codes (csr_index (insert_all cap ws)))
    with (codes (insert_all cap ws)) in H.
  destruct H as [(p & i & Hp & Hi & Hh) | (pos & slot & i & Hpos & Hs & Hi & Hh)].
  - destruct (pair_candidate p i Hp Hi) as (w & Hin & Hw & Hcode).
    exists w. split; [exact Hin|].
    rewrite Hcode, pack_keyword_encode, hamming_packed15_encode in Hh
      by (auto; split; auto).
    pose proof (levenshtein_le_hamming q w) as L.
    destruct Hw as [Lw Fw]. specialize (L ltac:(lia)).
    pose proof (hamming_nonneg q w). lia.
  - assert (Bs : 0 <= slot < 10000000).
    { destruct (del_keys_range _ (query_del_word q pos
                  (word_over_valid15 q (conj Lq Fq)) Hpos)) as [Bl Br].
      destruct Hs as [-> | ->]; rewrite to_int_id; lia. }
    destruct (del_candidate slot i Bs Hi) as (w & posw & Hin & Hw & Hpw & Hcode & Hp).
    exists w. split; [exact Hin|].
    rewrite Hcode, Hp, pack_keyword_encode in Hh by (split; auto).
    destruct Hw as [Lw Fw].
    replace pos with (Z.of_nat (Z.to_nat pos)) in Hh by lia.
    replace posw with (Z.of_nat (Z.to_nat posw)) in Hh by lia.
    rewrite !pack_delete_encode in Hh by (auto; lia).
    rewrite hamming_packed14_encode in Hh
      by (split; auto using remove_at_Forall; rewrite remove_at_length; lia).
    pose proof (levenshtein_le_indel q w (Z.to_nat pos) (Z.to_nat posw)) as L.
    specialize (L ltac:(lia) ltac:(lia) ltac:(lia)).
    pose proof (hamming_nonneg (remove_at (Z.to_nat pos) q)
                               (remove_at (Z.to_nat posw) w)). lia.
Qed.
End Soundness.

(** Claim C2 (soundness of search).  For the index built from at most [2^20]
    words of 15 characters over [{A..J}], a query [q] of 15 characters over
    [{A..J}] and any state of the visited-set: if [casefilter_search] with
    [k = 3] returns 1, some word of the dictionary is within Levenshtein
    distance 3 of [q]. *)
Theorem search_soundness (cap : Z) (ws : list (list Z)) (q : list Z)
        (st st' : SearchState) :
  Forall (word_over 15) ws -> Z.of_nat (length ws) <= 1048576 ->
  word_over 15 q ->
  casefilter_search st (Some (build_index cap ws)) (Some q) 3 = (st', 1) ->
  exists w, In w ws /\ (levenshtein q w <= 3)%nat.
Proof.
  intros Hws Hn Hq. rewrite (build_index_csr cap ws Hws Hn).
  apply sound_from_hit; assumption.
Qed.


(** ** Concrete inputs *)

Lemma word_over_dec (n : nat) (w : list Z) :
  word_overb n w = true -> word_over n w.
Proof.
  intros H. apply andb_true_iff in H. destruct H as [L F].
  apply Nat.eqb_eq in L. split; [exact L|].
  apply Forall_forall. intros c Hc.
  rewrite forallb_forall in F. specialize (F c Hc).
  unfold is_AJ. lia.
Qed.

Lemma words_over_dec (n : nat) (ws : list (list Z)) :
  forallb (word_overb n) ws = true -> Forall (word_over n) ws.
Proof.
  intros H. apply Forall_forall. intros w Hw. apply word_over_dec.
  rewrite forallb_forall in H. auto.
Qed.

(** The index built from a short list of valid words, in closed form. *)
Lemma build_index_small (cap : Z) (ws : list (list Z)) :
  forallb (word_overb 15) ws && Nat.leb (length ws) 16 = true ->
  build_index cap ws = csr_index (insert_all cap ws).
Proof.
  intros H. apply andb_true_iff in H. destruct H as [H L].
  apply Nat.leb_le in L. apply build_index_csr; [|lia].
  apply Forall_forall. intros w Hw. apply word_over_dec.
  rewrite forallb_forall in H. auto.
Qed.

(** ** The probe order of Phase A *)

Lemma probe_order_nth (idx : CaseFilterIndex) (q : list Z) (x : nat) :
  (x < 10)%nat ->
  nth x (probe_order idx q) 0 = sort_order (pair_len idx q) (Z.of_nat x).
Proof.
  intros Hx. unfold probe_order.
  rewrite (nth_map_in _ _ _ 0 0) by (rewrite range_length; lia).
  rewrite nth_range by lia. reflexivity.
Qed.

Lemma loop_until_map {A B S R : Type} (f : A -> B)
      (body : B -> S -> S * option R) (l : list A) (s : S) :
  loop_until body (map f l) s = loop_until (fun x => body (f x)) l s.
Proof.
  revert s. induction l as [|x l IH]; intros s; [reflexivity|].
  cbn [map loop_until]. destruct (body (f x) s) as [s' [r|]];
    [reflexivity | apply IH].
Qed.

(** Phase A is the run of [probe_pair] over [probe_order], one pair after
    the other, up to the first probe that returns. *)
Lemma phase_a_over_probe_order (idx : CaseFilterIndex) (query : list Z)
      (k g : Z) (visited : arr Z) :
  phase_a idx query k g visited
  = loop_until (probe_pair idx query k g) (probe_order idx query) visited.
Proof. unfold probe_order. rewrite loop_until_map. reflexivity. Qed.

Lemma probe_order_sorted (idx : CaseFilterIndex) (query : list Z) :
  let order := probe_order idx query in
  length order = 10%nat
  /\ NoDup order
  /\ (forall p, 0 <= p < 10 <-> In p order)
  /\ (forall x y, (x < y < 10)%nat ->
        pair_len idx query (nth x order 0) <= pair_len idx query (nth y order 0)).
Proof.
  intros order.
  destruct (sort_order_ok (pair_len idx query)) as (R & Inj & Srt).
  assert (L : length order = 10%nat)
    by (unfold order, probe_order; rewrite length_map, range_length; reflexivity).
  assert (ND : NoDup order).
  { apply (NoDup_nth order 0). intros i j Hi Hj E. rewrite L in Hi, Hj.
    unfold order in E. rewrite !probe_order_nth in E by lia.
    apply Inj in E; lia. }
  assert (Inc : incl order (range 10)).
  { intros p Hp. unfold order, probe_order in Hp. apply in_map_iff in Hp.
    destruct Hp as (x & <- & Hx). apply in_range in Hx.
    apply in_range. apply R. lia. }
  split; [exact L|]. split; [exact ND|]. split.
  - intros p. split.
    + intros Hp.
      assert (Inc' : incl (range 10) order).
      { apply (NoDup_length_incl ND); [rewrite range_length; lia | exact Inc]. }
      apply Inc'. apply in_range. lia.
    + intros Hp. apply Inc in Hp. apply in_range in Hp. lia.
  - intros x y Hxy. unfold order. rewrite !probe_order_nth by lia.
    apply Srt; lia.
Qed.

(** Claim C7, as amended.  Phase A of [casefilter_search] takes the pair
    probes one after the other in the order of the sorted array, up to the
    first probe that returns, a probe with an empty run being skipped; the
    sorted array lists each of the ten pairs once, in ascending order of
    posting-list length.  The order among probes of equal length is left
    open. *)
Theorem phase_a_probes_ascending (idx : CaseFilterIndex) (query : list Z) :
  let order := probe_order idx query in
  (forall k g visited,
      phase_a idx query k g visited
      = loop_until (probe_pair idx query k g) order visited)
  /\ (forall k g p visited,
        pair_len idx query p = 0 ->
        probe_pair idx query k g p visited = (visited, None))
  /\ length order = 10%nat
  /\ NoDup order
  /\ (forall p, 0 <= p < 10 <-> In p order)
  /\ (forall x y, (x < y < 10)%nat ->
        pair_len idx query (nth x order 0) <= pair_len idx query (nth y order 0)).
Proof.
  intros order. split; [|split].
  - intros k g visited. apply phase_a_over_probe_order.
  - intros k g p visited E. unfold probe_pair. rewrite E. reflexivity.
  - apply probe_order_sorted.
Qed.

(** Claim C7, as stated, fails: on the index of the single word [A^15] the
    query [AAAAAAAAABBBBBB] meets the word under the pairs 0, 1 and 4, each
    with one posting; Phase A runs its probes in the order
    2, 3, 5, 6, 7, 8, 9, 4, 0, 1 and so takes pair 4 before pairs 0 and 1. *)
Lemma phase_a_probes_not_stable :
  let idx := build_index 1 [chars "AAAAAAAAAAAAAAA"] in
  let q := chars "AAAAAAAAABBBBBB" in
  word_over 15 q
  /\ (forall k g visited,
        phase_a idx q k g visited
        = loop_until (probe_pair idx q k g) [2; 3; 5; 6; 7; 8; 9; 4; 0; 1]
                     visited)
  /\ pair_len idx q 4 = 1 /\ pair_len idx q 0 = 1 /\ pair_len idx q 1 = 1
  /\ ~ stable_probe_order idx q.
Proof.
  cbv zeta. rewrite build_index_small by (vm_compute; reflexivity).
  assert (E : probe_order (csr_index (insert_all 1 [chars "AAAAAAAAAAAAAAA"]))
                (chars "AAAAAAAAABBBBBB")
              = [2; 3; 5; 6; 7; 8; 9; 4; 0; 1]) by (vm_compute; reflexivity).
  split; [apply word_over_dec; vm_compute; reflexivity|].
  split; [intros k g visited; rewrite phase_a_over_probe_order, E; reflexivity|].
  split; [vm_compute; reflexivity|].
  split; [vm_compute; reflexivity|].
  split; [vm_compute; reflexivity|].
  intros H. specialize (H 7%nat 8%nat ltac:(lia)). cbv zeta in H.
  destruct H as [_ H]. rewrite E in H. cbn [nth] in H.
  assert (4 < 0); [apply H; vm_compute; reflexivity | lia].
Qed.


(** ** Inserting a word *)





(** ** Searches that find no candidate *)

Lemma loop_until_none {A S R : Type} (body : A -> S -> S * option R)
      (l : list A) (s : S) :
  (forall x, In x l -> body x s = (s, None)) ->
  loop_until body l s = (s, @None R).
Proof.
  induction l as [|x l IH]; intros H; [reflexivity|].
  cbn [loop_until]. rewrite (H x (or_introl eq_refl)).
  apply IH. intros y Hy. apply H. right. exact Hy.
Qed.

Lemma phase_a_empty (idx : CaseFilterIndex) (q : list Z) (k g : Z)
      (vis : arr Z) :
  pairs_empty idx q = true -> phase_a idx q k g vis = (vis, None).
Proof.
  intros H. unfold pairs_empty in H. rewrite forallb_forall in H.
  unfold phase_a. apply loop_until_none. intros oi Hoi.
  apply in_range in Hoi.
  destruct (sort_order_ok (pair_len idx q)) as (R & _ & _).
  specialize (R oi ltac:(lia)).
  rewrite (H (sort_order (pair_len idx q) oi)); [reflexivity|].
  apply in_range. lia.
Qed.

Lemma scan_del_empty (idx : CaseFilterIndex) (qdel_code k g slot : Z)
      (vis : arr Z) :
  negb (d_offsets (del7 idx) (slot + 1) >? d_offsets (del7 idx) slot) = true ->
  scan_del idx qdel_code k g slot vis = (vis, None).
Proof.
  intros H. unfold scan_del.
  destruct (d_offsets (del7 idx) (slot + 1) >? d_offsets (del7 idx) slot);
    [discriminate | reflexivity].
Qed.

Lemma phase_b_empty (idx : CaseFilterIndex) (q : list Z) (k g : Z)
      (vis : arr Z) :
  dels_empty idx q = true -> phase_b idx q k g vis = (vis, None).
Proof.
  intros H. unfold dels_empty in H. rewrite forallb_forall in H.
  unfold phase_b. apply loop_until_none. intros pos Hpos.
  specialize (H pos Hpos). cbv zeta in H. apply andb_true_iff in H.
  destruct H as [Hl Hr].
  rewrite scan_del_empty by exact Hl. apply scan_del_empty. exact Hr.
Qed.

(** A search that finds no candidate in either phase answers 0, leaves the
    marks alone and advances the generation by two, the second time without
    the test for zero. *)
Lemma search_idle (idx : CaseFilterIndex) (q : list Z) (k cap g : Z)
      (vis : arr Z) :
  strlen q = 15 -> keyword_count idx <= cap ->
  pairs_empty idx q = true -> dels_empty idx q = true ->
  0 <= g -> g + 1 < 4294967296 ->
  casefilter_search (mkState (Some vis) cap g) (Some idx) (Some q) k
  = (mkState (Some vis) cap (wrap32 (g + 2)), 0).
Proof.
  intros Hq Hc Ha Hb Hg Hg'. unfold casefilter_search.
  rewrite Hq. change (15 =? KEYWORD_LEN) with true. cbn [negb].
  cbn [visited_cap visited_buf gen].
  destruct (Z.gtb_spec (keyword_count idx) cap) as [G | _]; [lia|].
  cbn [visited_cap visited_buf gen].
  assert (E : wrap32 (g + 1) = g + 1) by (apply Z.mod_small; lia).
  rewrite E. destruct (Z.eqb_spec (g + 1) 0) as [Z0 | _]; [lia|].
  rewrite phase_a_empty by exact Ha. rewrite phase_b_empty by exact Hb.
  replace (g + 1 + 1) with (g + 2) by lia. reflexivity.
Qed.

Lemma search_all_cons (st : SearchState) (idx : CaseFilterIndex)
      (q : list Z) (qs : list (list Z)) :
  search_all st idx (q :: qs)
  = (fst (search_all (fst (casefilter_search st (Some idx) (Some q) 3)) idx qs),
     snd (casefilter_search st (Some idx) (Some q) 3)
     :: snd (search_all (fst (casefilter_search st (Some idx) (Some q) 3)) idx qs)).
Proof.
  cbn [search_all]. change MAX_EDIT_DIST with 3.
  destruct (casefilter_search st (Some idx) (Some q) 3) as [st1 r].
  cbn [fst snd]. destruct (search_all st1 idx qs) as [st2 rs]. reflexivity.
Qed.

Lemma search_all_app (st : SearchState) (idx : CaseFilterIndex)
      (qs qs' : list (list Z)) :
  search_all st idx (qs ++ qs')
  = (fst (search_all (fst (search_all st idx qs)) idx qs'),
     snd (search_all st idx qs)
     ++ snd (search_all (fst (search_all st idx qs)) idx qs')).
Proof.
  revert st. induction qs as [|q qs IH]; intros st.
  - cbn [app search_all fst snd]. destruct (search_all st idx qs'); reflexivity.
  - rewrite <- app_comm_cons, !search_all_cons, IH. reflexivity.
Qed.

(** [n] such searches in a row: the generation advances by [2 n], and may
    end at zero. *)
Lemma search_all_idle (idx : CaseFilterIndex) (q : list Z) (cap : Z)
      (vis : arr Z) (n : nat) (g : Z) :
  strlen q = 15 -> keyword_count idx <= cap ->
  pairs_empty idx q = true -> dels_empty idx q = true ->
  0 <= g < 4294967296 -> g + 2 * Z.of_nat n <= 4294967296 ->
  search_all (mkState (Some vis) cap g) idx (repeat q n)
  = (mkState (Some vis) cap (wrap32 (g + 2 * Z.of_nat n)), repeat 0 n).
Proof.
  intros Hq Hc Ha Hb. revert g. induction n as [|n IH]; intros g Hg Hn.
  - cbn [repeat search_all]. rewrite Z.add_0_r.
    unfold wrap32. rewrite Z.mod_small by lia. reflexivity.
  - cbn [repeat]. rewrite search_all_cons.
    rewrite (search_idle idx q 3 cap g vis) by (auto; lia).
    cbn [fst snd].
    destruct n as [|n'].
    + cbn [repeat search_all fst snd]. reflexivity.
    + assert (E : wrap32 (g + 2) = g + 2) by (apply Z.mod_small; lia).
      rewrite E, IH by lia. cbn [fst snd].
      replace (g + 2 + 2 * Z.of_nat (S n')) with (g + 2 * Z.of_nat (S (S n')))
        by lia.
      reflexivity.
Qed.


(** ** The generation counter after [2^31] searches *)

Lemma dict_ab_index : build_index 1024 dict_ab = csr_index (insert_all 1024 dict_ab).
Proof. apply build_index_small. vm_compute. reflexivity. Qed.

Lemma idle_facts :
  strlen query_idle = 15
  /\ keyword_count (csr_index (insert_all 1024 dict_ab)) <= 2
  /\ pairs_empty (csr_index (insert_all 1024 dict_ab)) query_idle = true
  /\ dels_empty (csr_index (insert_all 1024 dict_ab)) query_idle = true.
Proof.
  split; [vm_compute; reflexivity|]. split; [vm_compute; discriminate|].
  split; vm_compute; reflexivity.
Qed.

Lemma first_search_a :
  casefilter_search initial_state (Some (csr_index (insert_all 1024 dict_ab)))
    (Some word_a) 3
  = (mkState (Some (upd zeros 0 2)) 2 2, 1).
Proof. vm_compute. reflexivity. Qed.

Lemma big_nat (m : Z) : 0 <= m -> Z.of_nat (Z.to_nat m) = m.
Proof. apply Z2Nat.id. Qed.

(** The state after [word_a] and [n] idle searches. *)
Lemma history_state (n : nat) :
  2 + 2 * Z.of_nat n <= 4294967296 ->
  search_all initial_state (csr_index (insert_all 1024 dict_ab))
    (word_a :: repeat query_idle n)
  = (mkState (Some (upd zeros 0 2)) 2 (wrap32 (2 + 2 * Z.of_nat n)),
     1 :: repeat 0 n).
Proof.
  intros Hn. destruct idle_facts as (Hq & Hc & Ha & Hb).
  rewrite search_all_cons, first_search_a. cbn [fst snd].
  rewrite (search_all_idle _ query_idle 2 (upd zeros 0 2) n 2 Hq Hc Ha Hb)
    by lia.
  reflexivity.
Qed.

Lemma shift_fresh :
  casefilter_search initial_state (Some (csr_index (insert_all 1024 dict_ab)))
    (Some query_shift) 3
  = (mkState (Some (upd zeros 1 3)) 2 3, 1).
Proof. vm_compute. reflexivity. Qed.

Lemma shift_after_wrap :
  casefilter_search (mkState (Some (upd zeros 0 2)) 2 4294967294)
    (Some (csr_index (insert_all 1024 dict_ab))) (Some query_shift) 3
  = (mkState (Some (upd zeros 0 2)) 2 0, 0).
Proof. vm_compute. reflexivity. Qed.

Lemma a_after_shift :
  casefilter_search (mkState (Some (upd zeros 1 3)) 2 3)
    (Some (csr_index (insert_all 1024 dict_ab))) (Some word_a) 3
  = (mkState (Some (upd (upd zeros 1 3) 0 4)) 2 4, 1).
Proof. vm_compute. reflexivity. Qed.

Lemma shift_history (n : nat) :
  Z.of_nat n = 2147483646 ->
  let idx := csr_index (insert_all 1024 dict_ab) in
  let hist := word_a :: repeat query_idle n in
  snd (casefilter_search initial_state (Some idx) (Some query_shift) 3) = 1
  /\ snd (casefilter_search (fst (search_all initial_state idx hist))
            (Some idx) (Some query_shift) 3) = 0
  /\ snd (search_all initial_state idx (hist ++ [query_shift]))
     = 1 :: repeat 0 n ++ [0]
  /\ snd (search_all initial_state idx (query_shift :: hist))
     = 1 :: 1 :: repeat 0 n.
Proof.
  intros Hn idx hist. subst idx hist.
  destruct idle_facts as (Hq & Hc & Ha & Hb).
  pose proof (history_state n ltac:(lia)) as Hst.
  rewrite Hn in Hst. change (wrap32 (2 + 2 * 2147483646)) with 4294967294 in Hst.
  split; [rewrite shift_fresh; reflexivity|].
  split; [rewrite Hst; cbn [fst]; rewrite shift_after_wrap; reflexivity|].
  split.
  - rewrite search_all_app, Hst. cbn [fst snd].
    rewrite search_all_cons, shift_after_wrap. reflexivity.
  - rewrite search_all_cons, shift_fresh. cbn [fst snd].
    rewrite search_all_cons, a_after_shift. cbn [fst snd].
    rewrite (search_all_idle _ query_idle 2 (upd (upd zeros 1 3) 0 4) n 4
               Hq Hc Ha Hb) by lia.
    reflexivity.
Qed.

Lemma b_after_wrap :
  casefilter_search (mkState (Some (upd zeros 0 2)) 2 0)
    (Some (csr_index (insert_all 1024 dict_ab))) (Some word_b) 3
  = (mkState (Some (upd (upd zeros 0 2) 1 1)) 2 1, 1).
Proof. vm_compute. reflexivity. Qed.

Lemma near_fresh :
  casefilter_search initial_state (Some (csr_index (insert_all 1024 dict_ab)))
    (Some query_near) 3
  = (mkState (Some (upd zeros 0 2)) 2 2, 1).
Proof. vm_compute. reflexivity. Qed.

Lemma near_after_wrap :
  snd (casefilter_search (mkState (Some (upd (upd zeros 0 2) 1 1)) 2 1)
         (Some (csr_index (insert_all 1024 dict_ab))) (Some query_near) 3)
  = 0.
Proof. vm_compute. reflexivity. Qed.

Lemma near_history (n : nat) :
  Z.of_nat n = 2147483647 ->
  let idx := csr_index (insert_all 1024 dict_ab) in
  let hist := word_a :: repeat query_idle n ++ [word_b] in
  snd (casefilter_search initial_state (Some idx) (Some query_near) 3) = 1
  /\ snd (casefilter_search (fst (search_all initial_state idx hist))
            (Some idx) (Some query_near) 3) = 0.
Proof.
  intros Hn idx hist. subst idx hist.
  pose proof (history_state n ltac:(lia)) as Hst.
  rewrite Hn in Hst. change (wrap32 (2 + 2 * 2147483647)) with 0 in Hst.
  split; [rewrite near_fresh; reflexivity|].
  rewrite app_comm_cons, search_all_app, Hst. cbn [fst snd].
  rewrite search_all_cons, b_after_wrap. cbn [fst snd search_all].
  apply near_after_wrap.
Qed.

(** Claim C9 at its failing input.  On the index of [word_a] and [word_b],
    a fresh search for [query_shift] answers 1 (Phase B meets [word_b]
    after deleting the last character of the query and the first of the
    word).  After one search for [word_a] and [2^31 - 2] searches for
    [query_idle] the generation of Phase A is [2^32 - 1]; the second
    increment takes it to 0 without the test the first increment has, the
    never-marked entry of [word_b] equals it, the candidate is skipped and
    the same query answers 0.  Asking [query_shift] first or last changes
    the number of 1s among the answers. *)
Theorem search_depends_on_history :
  let idx := build_index 1024 dict_ab in
  let st := fst (search_all initial_state idx history_shift) in
  snd (casefilter_search initial_state (Some idx) (Some query_shift) 3) = 1
  /\ snd (casefilter_search st (Some idx) (Some query_shift) 3) = 0
  /\ snd (search_all initial_state idx (history_shift ++ [query_shift]))
     = 1 :: repeat 0 (Z.to_nat 2147483646) ++ [0]
  /\ snd (search_all initial_state idx (query_shift :: history_shift))
     = 1 :: 1 :: repeat 0 (Z.to_nat 2147483646).
Proof.
  cbv zeta. rewrite dict_ab_index. unfold history_shift.
  apply shift_history. apply big_nat. discriminate.
Qed.

(** Claim C1 at its failing input (the defect of claim C9).  [query_near]
    is at Hamming distance 3 from [word_a] and a fresh search answers 1.
    After [word_a] (marked with generation 2), [2^31 - 1] searches for
    [query_idle] (the generation wraps to 0 in Phase B of the last one) and
    [word_b] (generation 1), the next search runs Phase A with generation 2
    again: the old mark of [word_a] equals it, the candidate is skipped
    before its first evaluation, Phase B has no match, and the answer
    is 0. *)
Theorem phase_a_miss_after_wrap :
  let idx := build_index 1024 dict_ab in
  let st := fst (search_all initial_state idx history_near) in
  In word_a dict_ab
  /\ hamming query_near word_a = 3
  /\ snd (casefilter_search initial_state (Some idx) (Some query_near) 3) = 1
  /\ snd (casefilter_search st (Some idx) (Some query_near) 3) = 0.
Proof.
  cbv zeta. rewrite dict_ab_index. unfold history_near.
  split; [left; reflexivity|].
  split; [vm_compute; reflexivity|].
  apply near_history. apply big_nat. discriminate.
Qed.


(** ** Reading back what the serializer wrote *)

Lemma fread_exact_app (a b : list Z) (n : Z) :
  Z.of_nat (length a) = n -> fread_exact n (a ++ b) = Some (a, b).
Proof.
  intros H. unfold fread_exact.
  rewrite length_app.
  destruct (Z.ltb_spec (Z.of_nat (length a + length b)) n); [lia|].
  replace (Z.to_nat n) with (length a + 0)%nat by lia.
  rewrite firstn_app_2, skipn_app, skipn_all2 by lia.
  rewrite Nat.add_0_r, Nat.sub_diag. cbn [firstn skipn app].
  rewrite app_nil_r. reflexivity.
Qed.

Lemma fread_field_app (a b : list Z) (n : Z) :
  Z.of_nat (length a) = n -> fread_field n (a ++ b) = Done (a, b).
Proof.
  intros H. unfold fread_field. rewrite fread_exact_app by exact H. reflexivity.
Qed.

Lemma fread_array_app (elt count : Z) (a b : list Z) :
  0 <= count -> Z.of_nat (length a) = elt * count ->
  fread_array elt count (a ++ b) = Done (a, b).
Proof.
  intros Hc H. unfold fread_array.
  destruct (Z.ltb_spec count 0); [lia|]. apply fread_field_app, H.
Qed.

(** ** The arithmetic of [int] *)

Lemma wrap32_to_int (x : Z) : wrap32 (to_int x) = wrap32 x.
Proof.
  unfold to_int, wrap32. destruct (x <? 2147483648); [reflexivity|].
  replace (x - 4294967296) with (x + (-1) * 4294967296) by lia.
  apply Z.mod_add. discriminate.
Qed.

Lemma to_int_wrap_int (x : Z) :
  -2147483648 <= x < 2147483648 -> to_int (wrap32 x) = x.
Proof.
  intros H. unfold to_int, wrap32.
  destruct (Z.neg_nonneg_cases x) as [Neg | Pos].
  - replace (x mod 4294967296) with (x + 4294967296).
    + destruct (Z.ltb_spec (x + 4294967296) 2147483648); lia.
    + symmetry. replace x with (x + 4294967296 + (-1) * 4294967296) at 1 by lia.
      rewrite Z.mod_add by discriminate. apply Z.mod_small. lia.
  - rewrite Z.mod_small by lia.
    destruct (Z.ltb_spec x 2147483648); lia.
Qed.

Lemma int_add_wrap (a b : Z) :
  int_add (to_int (wrap32 a)) b = to_int (wrap32 (a + b)).
Proof.
  unfold int_add. f_equal. unfold wrap32 at 1 3.
  rewrite <- Zplus_mod_idemp_l. fold (wrap32 (to_int (wrap32 a))).
  rewrite wrap32_to_int. unfold wrap32. rewrite Zmod_mod.
  rewrite Zplus_mod_idemp_l. reflexivity.
Qed.

Lemma int_add_small (a b : Z) :
  -2147483648 <= a + b < 2147483648 -> int_add a b = a + b.
Proof. intros H. unfold int_add. apply to_int_wrap_int, H. Qed.

Lemma offsets_allocated (slots : Z) :
  0 <= slots < 2147483647 -> (int_add slots 1 <? 0) = false.
Proof.
  intros H. rewrite int_add_small by lia. apply Z.ltb_ge. lia.
Qed.

Lemma int_mul_small (a b : Z) :
  -2147483648 <= a * b < 2147483648 -> int_mul a b = a * b.
Proof. intros H. unfold int_mul. apply to_int_wrap_int, H. Qed.

Lemma le_bytes_length (n : nat) (x : Z) : length (le_bytes n x) = n.
Proof. unfold le_bytes. rewrite length_map. apply range_length. Qed.

Lemma le_bytes_S (n : nat) (x : Z) :
  le_bytes (S n) x = Z.land x 255 :: le_bytes n (Z.shiftr x 8).
Proof.
  unfold le_bytes, range. cbn [seq map]. rewrite Z.mul_0_r, Z.shiftr_0_r.
  f_equal. rewrite <- seq_shift, !map_map. apply map_ext. intros t.
  rewrite Z.shiftr_shiftr by lia. do 2 f_equal. lia.
Qed.

Lemma le_value_le_bytes (n : nat) (x : Z) :
  0 <= x < 256 ^ Z.of_nat n -> le_value (le_bytes n x) = x.
Proof.
  revert x. induction n as [|n IH]; intros x Hx.
  - change (256 ^ Z.of_nat 0) with 1 in Hx. cbn. lia.
  - rewrite le_bytes_S. cbn [le_value].
    rewrite Nat2Z.inj_succ, Z.pow_succ_r in Hx by lia.
    rewrite IH.
    + change 255 with (Z.ones 8). rewrite Z.land_ones, Z.shiftr_div_pow2 by lia.
      change (2 ^ 8) with 256. pose proof (Z.div_mod x 256). lia.
    + rewrite Z.shiftr_div_pow2 by lia. change (2 ^ 8) with 256.
      split; [apply Z.div_pos; lia|].
      apply Z.div_lt_upper_bound; lia.
Qed.

Lemma int_of_le32 (x : Z) :
  0 <= x < 2147483648 -> int_of_bytes (le32 x) = x.
Proof.
  intros H. unfold int_of_bytes, le32.
  assert (E : wrap32 x = x) by (apply Z.mod_small; lia).
  rewrite E, (le_value_le_bytes 4) by (change (256 ^ Z.of_nat 4) with 4294967296; lia).
  unfold to_int. destruct (Z.ltb_spec x 2147483648); lia.
Qed.

Lemma le32_length (x : Z) : length (le32 x) = 4%nat.
Proof. apply le_bytes_length. Qed.

(** The little-endian read of three bytes gives back a 24-bit value. *)
Lemma le24_value (v : Z) :
  0 <= v < 16777216 ->
  let buf := le24 v in
  Z.lor (Z.lor (char_at buf 0) (Z.shiftl (char_at buf 1) 8))
        (Z.shiftl (char_at buf 2) 16) = v.
Proof.
  intros Hv. cbv zeta.
  assert (E : le24 v = [Z.land v 255; Z.land (Z.shiftr v 8) 255;
                        Z.land (Z.shiftr v 16) 255]).
  { unfold le24. rewrite !le_bytes_S. rewrite !Z.shiftr_shiftr by lia.
    reflexivity. }
  rewrite E. change (char_at _ 0) with (Z.land v 255).
  change (char_at _ 1) with (Z.land (Z.shiftr v 8) 255).
  change (char_at _ 2) with (Z.land (Z.shiftr v 16) 255).
  change 255 with (Z.ones 8).
  rewrite !Z.land_ones, !Z.shiftr_div_pow2 by lia.
  change (2 ^ 8) with 256. change (2 ^ 16) with 65536.
  assert (B0 : 0 <= v mod 256 < 256) by (apply Z.mod_pos_bound; lia).
  assert (B1 : 0 <= (v / 256) mod 256 < 256) by (apply Z.mod_pos_bound; lia).
  assert (B2 : 0 <= (v / 65536) mod 256 < 256) by (apply Z.mod_pos_bound; lia).
  rewrite (lor_low_high (v mod 256)) by (change (2 ^ 8) with 256; lia).
  rewrite lor_low_high by (change (2 ^ 8) with 256; change (2 ^ 16) with 65536; lia).
  change (2 ^ 8) with 256. change (2 ^ 16) with 65536.
  assert (Q : v / 65536 = v / 256 / 256) by (rewrite Z.div_div by lia; reflexivity).
  assert (S2 : (v / 65536) mod 256 = v / 65536).
  { apply Z.mod_small. split; [apply Z.div_pos; lia|].
    apply Z.div_lt_upper_bound; lia. }
  pose proof (Z.div_mod v 256). pose proof (Z.div_mod (v / 256) 256). lia.
Qed.

(** Element [i] of a stream of [n] pieces of [w] bytes each. *)
Lemma flat_map_length_w (w : nat) (f : Z -> list Z) (n : nat) :
  (forall i, length (f i) = w) ->
  length (flat_map f (range n)) = (w * n)%nat.
Proof.
  intros Hf. induction n as [|n IH]; [cbn; lia|].
  rewrite range_S, flat_map_app, length_app, IH. cbn [flat_map].
  rewrite app_nil_r, Hf. lia.
Qed.

Lemma bytes_from_app_l (a b : list Z) (from : Z) (n : nat) :
  0 <= from -> from + Z.of_nat n <= Z.of_nat (length a) ->
  bytes_from (a ++ b) from n = bytes_from a from n.
Proof.
  intros H0 H. unfold bytes_from. apply map_ext_in. intros t Ht.
  apply in_range in Ht. unfold char_at. apply app_nth1. lia.
Qed.

Lemma bytes_from_app_r (a b : list Z) (from : Z) (n : nat) :
  Z.of_nat (length a) <= from ->
  bytes_from (a ++ b) from n = bytes_from b (from - Z.of_nat (length a)) n.
Proof.
  intros H. unfold bytes_from. apply map_ext_in. intros t Ht.
  apply in_range in Ht. unfold char_at. rewrite app_nth2 by lia.
  f_equal. lia.
Qed.

Lemma elem_flat_map (w : nat) (f : Z -> list Z) (n : nat) (i : Z) :
  (forall i, length (f i) = w) -> 0 <= i < Z.of_nat n ->
  elem (Z.of_nat w) (flat_map f (range n)) i = f i.
Proof.
  intros Hf. unfold elem. rewrite Nat2Z.id.
  induction n as [|n IH]; intros Hi; [lia|].
  rewrite range_S, flat_map_app. cbn [flat_map]. rewrite app_nil_r.
  destruct (Z.eq_dec i (Z.of_nat n)) as [-> | Ne].
  - rewrite bytes_from_app_r
      by (rewrite (flat_map_length_w w) by exact Hf; lia).
    rewrite (flat_map_length_w w) by exact Hf.
    replace (Z.of_nat w * Z.of_nat n - Z.of_nat (w * n)) with 0 by lia.
    rewrite <- (Hf (Z.of_nat n)). apply bytes_from_all.
  - rewrite bytes_from_app_l
      by (rewrite ?(flat_map_length_w w) by exact Hf; nia).
    apply IH. lia.
Qed.

Lemma fold_upd_range {A : Type} (g : Z -> A) (n : nat) (a0 : arr A) (j : Z) :
  fold_left (fun a i => upd a i (g i)) (range n) a0 j
  = if (0 <=? j) && (j <? Z.of_nat n) then g j else a0 j.
Proof.
  induction n as [|n IH].
  - cbn. destruct (Z.leb_spec 0 j), (Z.ltb_spec j 0); cbn; auto; lia.
  - rewrite range_S, fold_left_app. cbn [fold_left]. unfold upd at 1.
    rewrite IH.
    destruct (Z.eqb_spec j (Z.of_nat n)) as [-> | Ne].
    + destruct (Z.leb_spec 0 (Z.of_nat n)),
        (Z.ltb_spec (Z.of_nat n) (Z.of_nat (S n))); cbn; auto; lia.
    + destruct (Z.leb_spec 0 j), (Z.ltb_spec j (Z.of_nat n)),
        (Z.ltb_spec j (Z.of_nat (S n))); cbn; auto; lia.
Qed.

Lemma max_count_bound (counts : arr Z) (n : nat) (m0 : Z) :
  let maxc := fold_left (fun maxc i => if counts i >? maxc then counts i else maxc)
                        (range n) m0 in
  m0 <= maxc /\ forall i, 0 <= i < Z.of_nat n -> counts i <= maxc.
Proof.
  cbv zeta. induction n as [|n IH].
  - cbn. split; [lia|]. intros i Hi. lia.
  - rewrite range_S, fold_left_app. cbn [fold_left].
    destruct IH as [Hm Hc].
    set (m := fold_left _ (range n) m0) in *.
    destruct (Z.gtb_spec (counts (Z.of_nat n)) m) as [G | L].
    + split; [lia|]. intros i Hi.
      destruct (Z.eq_dec i (Z.of_nat n)) as [-> | Ne]; [lia|].
      specialize (Hc i ltac:(lia)). lia.
    + split; [lia|]. intros i Hi.
      destruct (Z.eq_dec i (Z.of_nat n)) as [-> | Ne]; [lia|].
      apply Hc. lia.
Qed.

Lemma le16_length (x : Z) : length (le16 x) = 2%nat.
Proof. apply le_bytes_length. Qed.

(** The counts written are the counts read. *)
Lemma read_counts_serialize (counts : arr Z) (slots : Z) (tail : list Z) :
  0 <= slots ->
  (forall i, 0 <= i < slots -> 0 <= counts i < 4294967296) ->
  exists counts',
    read_counts slots (serialize_counts counts slots ++ tail)
    = Done (counts', tail)
    /\ forall i, 0 <= i < slots -> counts' i = counts i.
Proof.
  intros Hs Hc. unfold serialize_counts, read_counts.
  destruct (max_count_bound counts (Z.to_nat slots) 0) as [_ Hm].
  fold (max_count counts slots) in Hm.
  destruct (Z.leb_spec (max_count counts slots) 65535) as [Small | Big].
  - cbv zeta iota. change (16 =? 16) with true. cbv iota. rewrite <- app_assoc.
    rewrite (fread_field_app [16]) by reflexivity.
    cbn [bind]. change (char_at [16] 0 =? 16) with true. cbv iota.
    rewrite fread_array_app
      by (try rewrite (flat_map_length_w 2) by (intros; apply le16_length); lia).
    cbn [bind].
    eexists. split; [reflexivity|].
    intros i Hi. rewrite fold_upd_range.
    destruct (Z.leb_spec 0 i), (Z.ltb_spec i (Z.of_nat (Z.to_nat slots)));
      cbn [andb]; try lia.
    rewrite (elem_flat_map 2) by (try (intros; apply le16_length); lia).
    unfold le16. specialize (Hm i ltac:(lia)). specialize (Hc i Hi).
    rewrite (Z.mod_small (counts i)) by lia.
    apply (le_value_le_bytes 2). change (256 ^ Z.of_nat 2) with 65536. lia.
  - cbv zeta iota. change (32 =? 16) with false. cbv iota. rewrite <- app_assoc.
    rewrite (fread_field_app [32]) by reflexivity.
    cbn [bind]. change (char_at [32] 0 =? 16) with false. cbv iota.
    rewrite fread_array_app
      by (try rewrite (flat_map_length_w 4) by (intros; apply le32_length); lia).
    cbn [bind].
    eexists. split; [reflexivity|].
    intros i Hi. cbv beta.
    destruct (Z.leb_spec 0 i), (Z.ltb_spec i slots); cbn [andb]; try lia.
    rewrite (elem_flat_map 4) by (try (intros; apply le32_length); lia).
    unfold le32. specialize (Hc i Hi).
    assert (E : wrap32 (counts i) = counts i) by (apply Z.mod_small; lia).
    rewrite E. apply (le_value_le_bytes 4).
    change (256 ^ Z.of_nat 4) with 4294967296. lia.
Qed.

Lemma psum_ext (f g : arr Z) (n : nat) :
  (forall i, 0 <= i < Z.of_nat n -> f i = g i) -> psum f n = psum g n.
Proof.
  induction n as [|n IH]; intros H; [reflexivity|].
  cbn [psum]. rewrite IH by (intros i Hi; apply H; lia).
  rewrite (H (Z.of_nat n)) by lia. reflexivity.
Qed.

(** The offsets computed on loading are the prefix sums of the counts in
    the arithmetic of [int]. *)
Lemma prefix_pass_int (counts : arr Z) (n : nat) (j : Z) :
  fold_left
    (fun offsets i =>
       upd offsets (i + 1) (int_add (offsets i) (to_int (counts i))))
    (range n) (upd zeros 0 0) j
  = if (0 <=? j) && (j <=? Z.of_nat n)
    then to_int (wrap32 (psum counts (Z.to_nat j))) else 0.
Proof.
  induction n as [|n IH] in j |- *.
  - cbn [range seq map fold_left]. unfold upd, zeros.
    destruct (Z.eqb_spec j 0) as [->|]; [reflexivity|].
    destruct (Z.leb_spec 0 j), (Z.leb_spec j (Z.of_nat 0)); cbn; try reflexivity; lia.
  - rewrite range_S, fold_left_app. cbn [fold_left].
    destruct (Z.eqb_spec j (Z.of_nat n + 1)) as [->|Hne].
    + rewrite upd_same, IH.
      destruct (Z.leb_spec 0 (Z.of_nat n)), (Z.leb_spec (Z.of_nat n) (Z.of_nat n));
        try lia. cbn [andb].
      destruct (Z.leb_spec 0 (Z.of_nat n + 1)),
        (Z.leb_spec (Z.of_nat n + 1) (Z.of_nat (S n))); try lia. cbn [andb].
      replace (Z.to_nat (Z.of_nat n + 1)) with (S n) by lia.
      rewrite Nat2Z.id. cbn [psum]. apply int_add_wrap.
    + rewrite upd_other, IH by exact Hne.
      destruct (Z.leb_spec 0 j); cbn [andb]; [|reflexivity].
      destruct (Z.leb_spec j (Z.of_nat n)), (Z.leb_spec j (Z.of_nat (S n)));
        try reflexivity; lia.
Qed.

Lemma prefix_offsets_wrap (counts : arr Z) (slots j : Z) :
  0 <= j <= slots ->
  prefix_offsets counts slots j = to_int (wrap32 (psum counts (Z.to_nat j))).
Proof.
  intros Hj. unfold prefix_offsets. rewrite prefix_pass_int.
  destruct (Z.leb_spec 0 j), (Z.leb_spec j (Z.of_nat (Z.to_nat slots)));
    cbn [andb]; lia.
Qed.

Lemma prefix_offsets_psum (counts : arr Z) (slots j : Z) :
  0 <= j <= slots ->
  -2147483648 <= psum counts (Z.to_nat j) < 2147483648 ->
  prefix_offsets counts slots j = psum counts (Z.to_nat j).
Proof.
  intros Hj Hr. rewrite prefix_offsets_wrap by exact Hj.
  apply to_int_wrap_int, Hr.
Qed.

(** The payload entries written are the entries read. *)
Lemma read_payload_serialize (f : Z -> Z) (n : nat) (tail : list Z) :
  (forall i, 0 <= i < Z.of_nat n -> 0 <= f i < 16777216) ->
  exists a,
    read_payload (Z.of_nat n) (flat_map (fun i => le24 (f i)) (range n) ++ tail)
    = Done (a, tail)
    /\ forall i, 0 <= i < Z.of_nat n -> a i = f i.
Proof.
  unfold read_payload. rewrite Nat2Z.id.
  revert tail. induction n as [|n IH]; intros tail Hf.
  - exists zeros. split; [reflexivity|]. intros i Hi. lia.
  - rewrite !range_S, flat_map_app, fold_left_app. cbn [flat_map fold_left].
    rewrite app_nil_r, <- app_assoc.
    destruct (IH (le24 (f (Z.of_nat n)) ++ tail)) as (a & Ea & Ha).
    { intros i Hi. apply Hf. lia. }
    rewrite Ea. cbn [bind].
    rewrite fread_field_app by (unfold le24; rewrite le_bytes_length; reflexivity).
    cbn [bind]. eexists. split; [reflexivity|].
    intros i Hi. unfold upd.
    destruct (Z.eqb_spec i (Z.of_nat n)) as [-> | Ne].
    + apply le24_value. apply Hf. lia.
    + apply Ha. lia.
Qed.

(** The pair table written is the pair table read. *)
Lemma deserialize_hindex_serialize (h : HIndex) (tail : list Z) :
  hindex_ok h ->
  exists h',
    deserialize_hindex (serialize_hindex h ++ tail) = Done (h', tail)
    /\ hindex_same h h'.
Proof.
  unfold hindex_ok, hindex_same.
  destruct h as [ks pc offsets counts ids].
  cbn [h_key_space h_pair_count h_offsets h_counts h_ids].
  set (slots := ks * pc). set (total := offsets slots).
  intros (Hks & Hpc & Hsl & Hc & Ho & Hor & Ht & Hi).
  assert (Hs : 0 <= slots) by (unfold slots; nia).
  unfold serialize_hindex, deserialize_hindex.
  cbn [h_key_space h_pair_count h_offsets h_counts h_ids]. cbv zeta.
  fold slots. fold total. rewrite <- !app_assoc.
  rewrite fread_field_app by (rewrite le32_length; reflexivity). cbn [bind].
  rewrite fread_field_app by (rewrite le32_length; reflexivity). cbn [bind].
  rewrite !int_of_le32 by lia.
  rewrite int_mul_small by (fold slots; lia). fold slots.
  destruct (read_counts_serialize counts slots
              (le32 total
               ++ flat_map (fun i => le24 (wrap32 (ids i))) (range (Z.to_nat total))
               ++ tail) Hs Hc) as (counts' & Ec & Hc').
  rewrite Ec. cbn [bind]. rewrite offsets_allocated by lia.
  rewrite fread_field_app by (rewrite le32_length; reflexivity). cbn [bind].
  rewrite int_of_le32 by lia.
  assert (Ho' : forall j, 0 <= j <= slots ->
                  prefix_offsets counts' slots j = offsets j).
  { intros j Hj.
    assert (Ep : psum counts' (Z.to_nat j) = offsets j).
    { rewrite Ho by lia. apply psum_ext. intros i Hi'. apply Hc'. lia. }
    rewrite prefix_offsets_psum; [exact Ep | lia |].
    rewrite Ep. specialize (Hor j Hj). lia. }
  rewrite (Ho' slots) by lia. fold total. rewrite Z.eqb_refl. cbn [negb].
  destruct (read_payload_serialize (fun i => wrap32 (ids i)) (Z.to_nat total) tail)
    as (a & Ea & Ha).
  { intros i Hi'. specialize (Hi i ltac:(lia)).
    unfold wrap32. rewrite Z.mod_small; lia. }
  rewrite Z2Nat.id in Ea by lia.
  rewrite Ea. cbn [bind]. eexists. split; [reflexivity|].
  cbn [h_key_space h_pair_count h_offsets h_counts h_ids].
  split; [reflexivity|]. split; [reflexivity|]. split; [exact Hc'|].
  split; [exact Ho'|].
  intros i Hi'. rewrite Ha by lia. specialize (Hi i Hi').
  unfold wrap32. apply Z.mod_small. lia.
Qed.

(** The deletion table written is the deletion table read; the entries are
    written through the mask [0xFFFFFF]. *)
Lemma deserialize_dindex_serialize (d : DelIndex) (tail : list Z) :
  dindex_ok d ->
  exists d',
    deserialize_dindex (serialize_dindex d ++ tail) = Done (d', tail)
    /\ dindex_same d d'.
Proof.
  unfold dindex_ok, dindex_same.
  destruct d as [slots offsets counts idpos].
  cbn [d_key_space d_offsets d_counts d_idpos].
  set (total := offsets slots).
  intros (Hks & Hc & Ho & Hor & Ht).
  unfold serialize_dindex, deserialize_dindex.
  cbn [d_key_space d_offsets d_counts d_idpos]. cbv zeta.
  fold total. rewrite <- !app_assoc.
  rewrite fread_field_app by (rewrite le32_length; reflexivity). cbn [bind].
  rewrite !int_of_le32 by lia.
  destruct (read_counts_serialize counts slots
              (le32 total
               ++ flat_map (fun i => le24 (Z.land (idpos i) 0xFFFFFF))
                           (range (Z.to_nat total))
               ++ tail) ltac:(lia) Hc) as (counts' & Ec & Hc').
  rewrite Ec. cbn [bind]. rewrite offsets_allocated by lia.
  rewrite fread_field_app by (rewrite le32_length; reflexivity). cbn [bind].
  rewrite int_of_le32 by lia.
  assert (Ho' : forall j, 0 <= j <= slots ->
                  prefix_offsets counts' slots j = offsets j).
  { intros j Hj.
    assert (Ep : psum counts' (Z.to_nat j) = offsets j).
    { rewrite Ho by lia. apply psum_ext. intros i Hi'. apply Hc'. lia. }
    rewrite prefix_offsets_psum; [exact Ep | lia |].
    rewrite Ep. specialize (Hor j Hj). lia. }
  rewrite (Ho' slots) by lia. fold total. rewrite Z.eqb_refl. cbn [negb].
  destruct (read_payload_serialize (fun i => Z.land (idpos i) 0xFFFFFF)
              (Z.to_nat total) tail) as (a & Ea & Ha).
  { intros i Hi'. change 0xFFFFFF with (Z.ones 24). rewrite Z.land_ones by lia.
    change 16777216 with (2 ^ 24). apply Z.mod_pos_bound. lia. }
  rewrite Z2Nat.id in Ea by lia.
  rewrite Ea. cbn [bind]. eexists. split; [reflexivity|].
  cbn [d_key_space d_offsets d_counts d_idpos].
  split; [reflexivity|]. split; [exact Hc'|]. split; [exact Ho'|].
  intros i Hi'. apply Ha. lia.
Qed.

(** The index written is the index read: the count, the records, the codes
    recomputed from the records, and the two tables. *)
Lemma deserialize_serialize_from (idx : CaseFilterIndex) (tail : list Z) :
  0 <= keyword_count idx < 2147483648 ->
  (forall i, 0 <= i < keyword_count idx -> length (keywords idx i) = 16%nat) ->
  hindex_ok (hidx idx) -> dindex_ok (del7 idx) ->
  exists idx',
    casefilter_deserialize_from (casefilter_serialize idx ++ tail)
    = Done (idx', tail)
    /\ keyword_count idx' = keyword_count idx
    /\ (forall i, 0 <= i < keyword_count idx ->
          keywords idx' i = keywords idx i
          /\ codes idx' i = pack_keyword (keywords idx i))
    /\ hindex_same (hidx idx) (hidx idx')
    /\ dindex_same (del7 idx) (del7 idx').
Proof.
  intros Hn Hk Hh Hd.
  unfold casefilter_serialize, casefilter_deserialize_from.
  rewrite <- !app_assoc.
  rewrite fread_field_app by (rewrite le32_length; reflexivity). cbn [bind].
  rewrite int_of_le32 by lia.
  rewrite fread_array_app
    by (try rewrite (flat_map_length_w 16) by (intros; apply bytes_from_length);
        lia).
  cbn [bind].
  destruct (deserialize_hindex_serialize (hidx idx)
              (serialize_dindex (del7 idx) ++ tail) Hh) as (h' & Eh & Sh).
  rewrite Eh. cbn [bind].
  destruct (deserialize_dindex_serialize (del7 idx) tail Hd) as (d' & Ed & Sd).
  rewrite Ed. cbn [bind]. cbv zeta. eexists. split; [reflexivity|].
  cbn [keyword_count keywords codes hidx del7].
  split; [reflexivity|]. split; [|split; assumption].
  intros i Hi.
  assert (Ek : (if (0 <=? i) && (i <? keyword_count idx)
                then elem 16 (flat_map (fun i => bytes_from (keywords idx i) 0 16)
                                (range (Z.to_nat (keyword_count idx)))) i
                else repeat 0 16) = keywords idx i).
  { destruct (Z.leb_spec 0 i), (Z.ltb_spec i (keyword_count idx));
      cbn [andb]; try lia.
    rewrite (elem_flat_map 16) by (try (intros; apply bytes_from_length); lia).
    rewrite <- (Hk i Hi). apply bytes_from_all. }
  split; [exact Ek|].
  rewrite fold_upd_range, Ek.
  destruct (Z.leb_spec 0 i), (Z.ltb_spec i (Z.of_nat (Z.to_nat (keyword_count idx))));
    cbn [andb]; first [reflexivity | lia].
Qed.

(** ** The tables of a finalized index survive the format *)

Lemma csr_cell_posting (slots : Z) (ps : list (Z * Z)) (j : Z) :
  0 <= slots ->
  (forall sv, In sv ps -> 0 <= fst sv < slots) ->
  0 <= j < Z.of_nat (length ps) ->
  exists s, In (s, csr_payload slots ps j) ps.
Proof.
  intros Hs Hin Hj.
  assert (Hall : cnt_lt (Z.of_nat (Z.to_nat slots)) ps = Z.of_nat (length ps)).
  { apply cnt_lt_all. intros sv Hsv. specialize (Hin sv Hsv). lia. }
  destruct (cell_slot ps (Z.to_nat slots) j) as (s & Hs' & Hr).
  { intros sv Hsv. specialize (Hin sv Hsv). lia. }
  { lia. }
  rewrite cnt_lt_succ in Hr. exists s.
  replace j with (cnt_lt s ps + (j - cnt_lt s ps)) by lia.
  apply csr_run_sound; [exact Hin | lia].
Qed.

Section CsrTables.
Variables (ps : list (Z * Z)) (slots : Z).
Hypothesis Hslots : 0 <= slots.
Hypothesis Hok : slots_ok slots ps = true.

Lemma csr_counts_range (i : Z) : 0 <= csr_counts ps i < 4294967296.
Proof. unfold csr_counts, wrap32. apply Z.mod_pos_bound. lia. Qed.

Lemma csr_offsets_psum (j : Z) :
  0 <= j <= slots ->
  csr_offsets slots ps j = psum (csr_counts ps) (Z.to_nat j).
Proof.
  intros Hj. destruct (slots_ok_spec slots ps Hok) as [Hin Hl].
  rewrite csr_offsets_in by lia. unfold csr_counts.
  rewrite psum_counts; [rewrite Z2Nat.id by lia; reflexivity | | exact Hl].
  intros sv Hsv. specialize (Hin sv Hsv). lia.
Qed.

Lemma csr_offsets_range (j : Z) :
  0 <= j <= slots -> 0 <= csr_offsets slots ps j < 2147483648.
Proof.
  intros Hj. destruct (slots_ok_spec slots ps Hok) as [_ Hl].
  rewrite csr_offsets_in by lia. unfold cnt_lt.
  pose proof (filter_length_le (fun sv => fst sv <? j) ps) as Hf.
  split; [apply Nat2Z.is_nonneg|].
  apply Z.le_lt_trans with (Z.of_nat (length ps)); [|exact Hl].
  apply Nat2Z.inj_le, Hf.
Qed.

Lemma csr_offsets_total :
  csr_offsets slots ps slots = Z.of_nat (length ps).
Proof.
  destruct (slots_ok_spec slots ps Hok) as [Hin Hl].
  rewrite csr_offsets_in by lia. apply cnt_lt_all.
  intros sv Hsv. specialize (Hin sv Hsv). lia.
Qed.

Lemma csr_payload_range (bound i : Z) :
  (forall sv, In sv ps -> 0 <= snd sv < bound) ->
  0 <= i < Z.of_nat (length ps) -> 0 <= csr_payload slots ps i < bound.
Proof.
  intros Hv Hi. destruct (slots_ok_spec slots ps Hok) as [Hin Hl].
  destruct (csr_cell_posting slots ps i Hslots Hin Hi) as (s & Hs).
  apply (Hv _ Hs).
Qed.
End CsrTables.

Lemma csr_hindex_ok (ks pc : Z) (ps : list (Z * Z)) :
  0 <= ks < 2147483648 -> 0 <= pc < 2147483648 ->
  ks * pc < 2147483647 ->
  slots_ok (ks * pc) ps = true ->
  (forall sv, In sv ps -> 0 <= snd sv < 16777216) ->
  hindex_ok (mkHIndex ks pc (csr_offsets (ks * pc) ps) (csr_counts ps)
                      (csr_payload (ks * pc) ps)).
Proof.
  intros Hks Hpc Hsl Hok Hv. unfold hindex_ok.
  cbn [h_key_space h_pair_count h_offsets h_counts h_ids].
  assert (Hs : 0 <= ks * pc) by nia.
  destruct (slots_ok_spec _ _ Hok) as [_ Hl].
  rewrite (csr_offsets_total ps (ks * pc) Hs Hok).
  split; [exact Hks|]. split; [exact Hpc|]. split; [exact Hsl|].
  split; [intros i _; apply csr_counts_range|].
  split; [intros j Hj; apply csr_offsets_psum; assumption|].
  split; [intros j Hj; apply csr_offsets_range; assumption|].
  split; [split; [apply Nat2Z.is_nonneg | exact Hl]|].
  intros i Hi. apply (csr_payload_range ps (ks * pc) Hs Hok); assumption.
Qed.

Lemma csr_dindex_ok (ks : Z) (ps : list (Z * Z)) :
  0 <= ks < 2147483647 ->
  slots_ok ks ps = true ->
  dindex_ok (mkDelIndex ks (csr_offsets ks ps) (csr_counts ps)
                        (csr_payload ks ps)).
Proof.
  intros Hks Hok. unfold dindex_ok.
  cbn [d_key_space d_offsets d_counts d_idpos].
  destruct (slots_ok_spec _ _ Hok) as [_ Hl].
  rewrite (csr_offsets_total ps ks ltac:(lia) Hok).
  split; [exact Hks|].
  split; [intros i _; apply csr_counts_range|].
  split; [intros j Hj; apply csr_offsets_psum; assumption|].
  split; [intros j Hj; apply csr_offsets_range; assumption|].
  split; [apply Nat2Z.is_nonneg | exact Hl].
Qed.

Lemma pack_idpos_range (id pos : Z) :
  0 <= id < 1048576 -> 0 <= pos < 16 -> 0 <= pack_idpos id pos < 16777216.
Proof.
  intros Hid Hpos. unfold pack_idpos, wrap32.
  rewrite (Z.mod_small id), (Z.mod_small pos) by lia.
  rewrite Z.shiftl_mul_pow2 by lia. change (2 ^ 20) with 1048576.
  rewrite (Z.mod_small (pos * 1048576)) by lia.
  change 1048575 with (Z.ones 20). rewrite Z.land_ones by lia.
  change (2 ^ 20) with 1048576. rewrite (Z.mod_small id) by lia.
  replace (pos * 1048576) with (Z.shiftl pos 20)
    by (rewrite Z.shiftl_mul_pow2 by lia; reflexivity).
  rewrite lor_low_high by (change (2 ^ 20) with 1048576; lia).
  change (2 ^ 20) with 1048576. lia.
Qed.

Section BuiltTables.
Variables (cap : Z) (ws : list (list Z)).
Hypothesis Hws : Forall (word_over 15) ws.
Hypothesis Hn : Z.of_nat (length ws) <= 1048576.

Lemma built_hindex_ok : hindex_ok (hidx (csr_index (insert_all cap ws))).
Proof.
  apply (csr_hindex_ok CASEFILTER_H_KEY_SPACE CASEFILTER_HPAIR_COUNT
           (h_postings (insert_all cap ws))).
  - split; [discriminate | reflexivity].
  - split; [discriminate | reflexivity].
  - reflexivity.
  - apply h_slots_ok; assumption.
  - intros sv Hsv. apply in_h_postings in Hsv.
    destruct Hsv as (id & p & Hid & _ & ->). cbn [snd].
    destruct (insert_all_spec cap ws) as [Ec _].
    rewrite Ec, Nat2Z.id in Hid. lia.
Qed.

Lemma built_dindex_ok : dindex_ok (del7 (csr_index (insert_all cap ws))).
Proof.
  apply (csr_dindex_ok CASEFILTER_DEL_KEY_SPACE
           (d_postings (insert_all cap ws))).
  - split; [discriminate | reflexivity].
  - apply d_slots_ok; assumption.
Qed.

Lemma built_idpos_range (j : Z) :
  0 <= j < 30 * Z.of_nat (length ws) ->
  0 <= d_idpos (del7 (csr_index (insert_all cap ws))) j < 16777216.
Proof.
  intros Hj. rewrite csr_d_idpos.
  apply (csr_payload_range (d_postings (insert_all cap ws))
           CASEFILTER_DEL_KEY_SPACE).
  - discriminate.
  - apply d_slots_ok; assumption.
  - intros sv Hsv. apply in_d_postings in Hsv.
    destruct Hsv as (id & pos & Hid & Hpos & E).
    destruct (insert_all_spec cap ws) as [Ec _].
    rewrite Ec, Nat2Z.id in Hid.
    assert (Es : snd sv = pack_idpos id pos)
      by (destruct E as [-> | ->]; reflexivity).
    rewrite Es. apply pack_idpos_range; lia.
  - rewrite d_postings_length.
    destruct (insert_all_spec cap ws) as [Ec _]. rewrite Ec, Nat2Z.id. lia.
Qed.

Lemma built_records (i : Z) :
  0 <= i < Z.of_nat (length ws) ->
  length (keywords (insert_all cap ws) i) = 16%nat
  /\ codes (insert_all cap ws) i = pack_keyword (keywords (insert_all cap ws) i).
Proof.
  intros Hi. destruct (insert_all_spec cap ws) as [_ Hs].
  destruct (Hs (Z.to_nat i) ltac:(lia)) as [Ek Ec].
  rewrite Z2Nat.id in Ek, Ec by lia.
  destruct (insert_all_valid cap ws i Hws Hi) as (Ek' & _ & [Lw _] & _).
  split.
  - rewrite Ek', length_app, Lw. reflexivity.
  - rewrite Ec, Ek, keyword_record_code. reflexivity.
Qed.
End BuiltTables.

(** Claim C3.  For the finalized index [idx] of [N <= 2^20] words of 15
    characters over [{A..J}], [casefilter_deserialize] accepts the bytes
    written by [casefilter_serialize] and returns an index with the same
    [keyword_count], the same 16-byte record and the same nibble code
    (recomputed from the record) for every id, and in both tables the same
    counts, offsets that are the prefix sums of the counts read and equal
    the offsets of [idx], and the same payload entries: the ids of the pair
    table, and the entries of the deletion table cut to their low 24 bits,
    which loses nothing. *)
Theorem serialize_deserialize_round_trip (cap : Z) (ws : list (list Z)) :
  Forall (word_over 15) ws -> Z.of_nat (length ws) <= 1048576 ->
  let idx := build_index cap ws in
  let n := Z.of_nat (length ws) in
  exists idx',
    casefilter_deserialize (casefilter_serialize idx) = Some idx'
    /\ keyword_count idx = n /\ keyword_count idx' = n
    /\ (forall i, 0 <= i < n ->
          keywords idx' i = keywords idx i /\ codes idx' i = codes idx i)
    /\ (h_key_space (hidx idx') = 1000000 /\ h_pair_count (hidx idx') = 10
        /\ (forall s, 0 <= s < 10000000 ->
              h_counts (hidx idx') s = h_counts (hidx idx) s)
        /\ (forall s, 0 <= s <= 10000000 ->
              h_offsets (hidx idx') s = psum (h_counts (hidx idx')) (Z.to_nat s)
              /\ h_offsets (hidx idx') s = h_offsets (hidx idx) s)
        /\ (forall j, 0 <= j < 10 * n ->
              h_ids (hidx idx') j = h_ids (hidx idx) j))
    /\ (d_key_space (del7 idx') = 10000000
        /\ (forall s, 0 <= s < 10000000 ->
              d_counts (del7 idx') s = d_counts (del7 idx) s)
        /\ (forall s, 0 <= s <= 10000000 ->
              d_offsets (del7 idx') s = psum (d_counts (del7 idx')) (Z.to_nat s)
              /\ d_offsets (del7 idx') s = d_offsets (del7 idx) s)
        /\ (forall j, 0 <= j < 30 * n ->
              d_idpos (del7 idx') j = Z.land (d_idpos (del7 idx) j) 0xFFFFFF
              /\ d_idpos (del7 idx') j = d_idpos (del7 idx) j)).
Proof.
  intros Hws Hn idx n. subst idx.
  rewrite (build_index_csr cap ws Hws Hn).
  pose proof (built_hindex_ok cap ws Hws Hn) as Hh.
  pose proof (built_dindex_ok cap ws Hws Hn) as Hd.
  pose proof (built_idpos_range cap ws Hws Hn) as Hp.
  pose proof (built_records cap ws Hws) as Hr.
  destruct (insert_all_spec cap ws) as [Ec _].
  assert (Th : h_offsets (hidx (csr_index (insert_all cap ws))) 10000000 = 10 * n).
  { rewrite csr_h_offsets by lia.
    rewrite cnt_lt_all by (apply h_postings_in_range; assumption).
    rewrite h_postings_length, Ec, Nat2Z.id. unfold n. lia. }
  assert (Td : d_offsets (del7 (csr_index (insert_all cap ws))) 10000000 = 30 * n).
  { rewrite csr_d_offsets by lia.
    rewrite cnt_lt_all by (apply d_postings_in_range; assumption).
    rewrite d_postings_length, Ec, Nat2Z.id. unfold n. lia. }
  change (codes (csr_index (insert_all cap ws)))
    with (codes (insert_all cap ws)).
  change (keywords (csr_index (insert_all cap ws)))
    with (keywords (insert_all cap ws)).
  change (keyword_count (csr_index (insert_all cap ws)))
    with (keyword_count (insert_all cap ws)).
  destruct (deserialize_serialize_from (csr_index (insert_all cap ws)) [])
    as (idx' & E & En & Ek & Sh & Sd).
  { change (keyword_count (csr_index (insert_all cap ws)))
      with (keyword_count (insert_all cap ws)). lia. }
  { intros i Hi. apply Hr.
    change (keyword_count (csr_index (insert_all cap ws)))
      with (keyword_count (insert_all cap ws)) in Hi. lia. }
  { exact Hh. }
  { exact Hd. }
  rewrite app_nil_r in E.
  change (keyword_count (csr_index (insert_all cap ws)))
    with (keyword_count (insert_all cap ws)) in En, Ek.
  change (keywords (csr_index (insert_all cap ws)))
    with (keywords (insert_all cap ws)) in Ek.
  unfold hindex_same in Sh. unfold dindex_same in Sd.
  change (h_key_space (hidx (csr_index (insert_all cap ws)))) with 1000000 in Sh.
  change (h_pair_count (hidx (csr_index (insert_all cap ws)))) with 10 in Sh.
  change (d_key_space (del7 (csr_index (insert_all cap ws)))) with 10000000 in Sd.
  cbv zeta in Sh, Sd. change (1000000 * 10) with 10000000 in Sh.
  rewrite Th in Sh. rewrite Td in Sd.
  destruct Sh as (Sh1 & Sh2 & Sh3 & Sh4 & Sh5).
  destruct Sd as (Sd1 & Sd3 & Sd4 & Sd5).
  revert E En Ek Sh1 Sh2 Sh3 Sh4 Sh5 Sd1 Sd3 Sd4 Sd5 Hh Hd Hp Hr.
  unfold hindex_ok, dindex_ok.
  change (h_key_space (hidx (csr_index (insert_all cap ws)))) with 1000000.
  change (h_pair_count (hidx (csr_index (insert_all cap ws)))) with 10.
  change (d_key_space (del7 (csr_index (insert_all cap ws)))) with 10000000.
  cbv zeta. change (1000000 * 10) with 10000000.
  generalize (casefilter_serialize (csr_index (insert_all cap ws))).
  generalize (hidx (csr_index (insert_all cap ws))).
  generalize (del7 (csr_index (insert_all cap ws))).
  intros d h bytes E En Ek Sh1 Sh2 Sh3 Sh4 Sh5 Sd1 Sd3 Sd4 Sd5 Hh Hd Hp Hr.
  destruct Hh as (_ & _ & _ & _ & Oh & _). destruct Hd as (_ & _ & Od & _).
  exists idx'. unfold casefilter_deserialize. rewrite E.
  split; [reflexivity|]. split; [exact Ec|]. split; [lia|].
  split.
  { intros i Hi. destruct (Ek i ltac:(lia)) as [K1 K2].
    split; [exact K1|]. rewrite K2. symmetry. apply Hr. exact Hi. }
  split.
  { split; [exact Sh1|]. split; [exact Sh2|]. split; [exact Sh3|].
    split; [|exact Sh5].
    intros s Hs. split; [|apply Sh4; exact Hs].
    rewrite Sh4, Oh by exact Hs. apply psum_ext.
    intros i Hi. symmetry. apply Sh3. lia. }
  split; [exact Sd1|]. split; [exact Sd3|]. split.
  { intros s Hs. split; [|apply Sd4; exact Hs].
    rewrite Sd4, Od by exact Hs. apply psum_ext.
    intros i Hi. symmetry. apply Sd3. lia. }
  intros j Hj. split; [apply Sd5; exact Hj|].
  rewrite Sd5 by exact Hj. specialize (Hp j Hj).
  change 0xFFFFFF with (Z.ones 24). rewrite Z.land_ones by lia.
  apply Z.mod_small. change (2 ^ 24) with 16777216. exact Hp.
Qed.


(** ** Short reads *)




























(** ** When the search must answer 1 *)

(** A loop returns if its body returns at some element for every state an
    invariant allows, and the body keeps the invariant while it goes on. *)
Lemma loop_until_hits {A S R : Type} (body : A -> S -> S * option R)
      (Inv : S -> Prop) (l : list A) (x : A) :
  In x l ->
  (forall y s s', Inv s -> body y s = (s', None) -> Inv s') ->
  (forall s, Inv s -> exists s' r, body x s = (s', Some r)) ->
  forall s, Inv s -> exists s' r, loop_until body l s = (s', Some r).
Proof.
  intros Hx Hkeep Hhit. induction l as [|y l IH]; [destruct Hx|].
  intros s Hs. cbn [loop_until].
  destruct (body y s) as [s1 [r|]] eqn:E.
  - exists s1, r. reflexivity.
  - destruct Hx as [-> | Hx].
    + destruct (Hhit s Hs) as (s' & r & E'). congruence.
    + apply IH; [exact Hx|]. apply (Hkeep y s s1 Hs E).
Qed.

(** Every pair is somewhere in the sorted order. *)
Lemma sort_order_onto (len : Z -> Z) (p : Z) :
  0 <= p < 10 -> exists oi, 0 <= oi < 10 /\ sort_order len oi = p.
Proof.
  intros Hp. destruct (sort_order_ok len) as (R & Inj & _).
  set (order := map (sort_order len) (range 10)).
  assert (L : length order = 10%nat)
    by (unfold order; rewrite length_map, range_length; reflexivity).
  assert (Hn : forall x, (x < 10)%nat ->
                 nth x order 0 = sort_order len (Z.of_nat x)).
  { intros x Hx. unfold order.
    rewrite (nth_map_in _ _ _ 0 0) by (rewrite range_length; lia).
    rewrite nth_range by lia. reflexivity. }
  assert (ND : NoDup order).
  { apply (NoDup_nth order 0). intros i j Hi Hj E. rewrite L in Hi, Hj.
    rewrite !Hn in E by lia. apply Inj in E; lia. }
  assert (Inc : incl order (range 10)).
  { intros y Hy. unfold order in Hy. apply in_map_iff in Hy.
    destruct Hy as (x & <- & Hx). apply in_range in Hx.
    apply in_range. apply R. lia. }
  assert (Inc' : incl (range 10) order).
  { apply (NoDup_length_incl ND); [rewrite range_length; lia | exact Inc]. }
  assert (Hin : In p order) by (apply Inc', in_range; lia).
  unfold order in Hin. apply in_map_iff in Hin.
  destruct Hin as (oi & E & Hoi). apply in_range in Hoi.
  exists oi. split; [lia | exact E].
Qed.

(** Phase A returns when some pair run holds a word within distance [k],
    provided no word within distance [k] already bears the mark [g]. *)
Lemma phase_a_complete (idx : CaseFilterIndex) (q : list Z) (k g n : Z)
      (vis : arr Z) (p i : Z) :
  (forall id, 0 <= id < n -> vis id = g ->
     k < hamming_packed15 (pack_keyword q) (codes idx id)) ->
  0 <= p < 10 -> 0 <= i < pair_len idx q p ->
  0 <= h_ids (hidx idx) (pair_start idx q p + i) < n ->
  hamming_packed15 (pack_keyword q)
    (codes idx (h_ids (hidx idx) (pair_start idx q p + i))) <= k ->
  exists vis', phase_a idx q k g vis = (vis', Some 1).
Proof.
  intros Hvis Hp Hi Hid Hh.
  set (Inv := fun v : arr Z =>
                forall id, 0 <= id < n -> v id = g ->
                  k < hamming_packed15 (pack_keyword q) (codes idx id)).
  assert (Hinner : forall p' y s s',
             Inv s ->
             (let id := h_ids (hidx idx) (pair_start idx q p' + y) in
              if s id =? g then (s, None)
              else if hamming_packed15 (pack_keyword q) (codes idx id) <=? k
                   then (upd s id g, Some 1) else (upd s id g, @None Z))
             = (s', None) -> Inv s').
  { intros p' y s s' Hs. cbv zeta.
    destruct (Z.eqb_spec (s (h_ids (hidx idx) (pair_start idx q p' + y))) g).
    - intros E. injection E as <-. exact Hs.
    - destruct (Z.leb_spec (hamming_packed15 (pack_keyword q)
                  (codes idx (h_ids (hidx idx) (pair_start idx q p' + y)))) k);
        [discriminate|].
      intros E. injection E as <-. intros id Hr. unfold upd.
      destruct (Z.eqb_spec id (h_ids (hidx idx) (pair_start idx q p' + y)))
        as [-> | Ne]; [intros _; lia | apply Hs; exact Hr]. }
  destruct (sort_order_onto (pair_len idx q) p Hp) as (oi & Hoi & Eo).
  unfold phase_a.
  destruct (loop_until_hits
              (fun oi visited =>
                 let p := sort_order (pair_len idx q) oi in
                 if pair_len idx q p =? 0 then (visited, None)
                 else
                   loop_until
                     (fun i visited =>
                        let id := h_ids (hidx idx) (pair_start idx q p + i) in
                        if visited id =? g then (visited, None)
                        else
                          let visited := upd visited id g in
                          let hd := hamming_packed15 (pack_keyword q)
                                      (codes idx id) in
                          if hd <=? k then (visited, Some 1)
                          else (visited, None))
                     (range (Z.to_nat (pair_len idx q p))) visited)
              Inv (range 10) oi) with vis as (vis' & r & E).
  - apply in_range. lia.
  - intros y s s' Hs. cbv zeta.
    destruct (pair_len idx q (sort_order (pair_len idx q) y) =? 0).
    + intros E. injection E as <-. exact Hs.
    + revert s Hs.
      induction (range (Z.to_nat (pair_len idx q (sort_order (pair_len idx q) y))))
        as [|z l IH]; intros s Hs E.
      * cbn [loop_until] in E. injection E as <-. exact Hs.
      * cbn [loop_until] in E.
        match type of E with
        | match ?b with _ => _ end = _ => destruct b as [s1 [r1|]] eqn:Eb
        end; [discriminate|].
        apply (IH s1); [|exact E].
        apply (Hinner (sort_order (pair_len idx q) y) z s s1 Hs).
        cbv zeta in Eb |- *.
        destruct (s (h_ids (hidx idx)
                       (pair_start idx q (sort_order (pair_len idx q) y) + z)) =? g);
          [exact Eb|].
        destruct (hamming_packed15 (pack_keyword q) _ <=? k); exact Eb.
  - intros s Hs. cbv zeta. rewrite Eo.
    destruct (Z.eqb_spec (pair_len idx q p) 0) as [Z0 | _]; [lia|].
    apply (loop_until_hits _ Inv (range (Z.to_nat (pair_len idx q p))) i).
    + apply in_range. lia.
    + intros y s0 s' Hs0 E. apply (Hinner p y s0 s' Hs0).
      cbv zeta in E |- *.
      destruct (s0 (h_ids (hidx idx) (pair_start idx q p + y)) =? g);
        [exact E|].
      destruct (hamming_packed15 (pack_keyword q) _ <=? k); exact E.
    + intros s0 Hs0. cbv zeta.
      destruct (Z.eqb_spec (s0 (h_ids (hidx idx) (pair_start idx q p + i))) g)
        as [Eg | _].
      * specialize (Hs0 _ Hid Eg). lia.
      * destruct (Z.leb_spec (hamming_packed15 (pack_keyword q)
                    (codes idx (h_ids (hidx idx) (pair_start idx q p + i))))
                    k); [|lia].
        eexists. eexists. reflexivity.
    + exact Hs.
  - exact Hvis.
  - exists vis'. pose proof E as E'. apply phase_a_hit in E'.
    destruct E' as [-> _]. exact E.
Qed.

(** Phase B returns when some deletion run of the query holds an entry
    whose word, with its position deleted, is within distance [k - 2] of
    the query with its position deleted, provided that word does not bear
    the mark [g]. *)
Lemma scan_del_complete (idx : CaseFilterIndex) (qdel_code k g slot : Z)
      (vis : arr Z) (i : Z) :
  vis (Z.land (d_idpos (del7 idx) (d_offsets (del7 idx) slot + i)) 0xFFFFF)
  <> g ->
  0 <= i < d_offsets (del7 idx) (slot + 1) - d_offsets (del7 idx) slot ->
  2 + hamming_packed14 qdel_code
        (casefilter_pack_delete
           (codes idx (Z.land (d_idpos (del7 idx) (d_offsets (del7 idx) slot + i))
                              0xFFFFF))
           (Z.land (Z.shiftr (d_idpos (del7 idx) (d_offsets (del7 idx) slot + i))
                             20) 0xF)) <= k ->
  exists vis', scan_del idx qdel_code k g slot vis = (vis', Some 1).
Proof.
  intros Hvis Hi Hh. unfold scan_del.
  destruct (Z.gtb_spec (d_offsets (del7 idx) (slot + 1))
                       (d_offsets (del7 idx) slot)) as [_ | L]; [|lia].
  destruct (loop_until_hits
              (fun i visited =>
                 let v := d_idpos (del7 idx) (d_offsets (del7 idx) slot + i) in
                 let id := Z.land v 0xFFFFF in
                 if visited id =? g then (visited, None)
                 else
                   let kwdel_code :=
                     casefilter_pack_delete (codes idx id)
                                            (Z.land (Z.shiftr v 20) 0xF) in
                   let hd14 := hamming_packed14 qdel_code kwdel_code in
                   if 2 + hd14 <=? k then (upd visited id g, Some 1)
                   else (visited, @None Z))
              (fun v : arr Z => v = vis)
              (range (Z.to_nat (d_offsets (del7 idx) (slot + 1)
                                - d_offsets (del7 idx) slot))) i)
    with vis as (vis' & r & E).
  - apply in_range. lia.
  - intros y s s' -> E. cbv zeta in E.
    destruct (vis (Z.land (d_idpos (del7 idx) (d_offsets (del7 idx) slot + y))
                          1048575) =? g); [congruence|].
    match type of E with
    | (if ?c then _ else _) = _ => destruct c
    end; [discriminate | congruence].
  - intros s ->. cbv zeta.
    destruct (Z.eqb_spec
                (vis (Z.land (d_idpos (del7 idx) (d_offsets (del7 idx) slot + i))
                             1048575)) g) as [Eg | _];
      [exfalso; apply (Hvis Eg)|].
    match goal with
    | |- exists _ _, (if ?a <=? ?b then _ else _) = _ =>
        destruct (Z.leb_spec a b); [|lia]
    end.
    eexists. eexists. reflexivity.
  - reflexivity.
  - exists vis'. pose proof E as E'.
    assert (Hs : scan_del idx qdel_code k g slot vis = (vis', Some r)).
    { unfold scan_del.
      destruct (Z.gtb_spec (d_offsets (del7 idx) (slot + 1))
                           (d_offsets (del7 idx) slot)); [exact E | lia]. }
    apply scan_del_hit in Hs. destruct Hs as [-> _]. exact E.
Qed.

Lemma scan_del_keeps (idx : CaseFilterIndex) (qdel_code k g slot : Z)
      (vis vis' : arr Z) :
  scan_del idx qdel_code k g slot vis = (vis', None) -> vis' = vis.
Proof.
  unfold scan_del.
  destruct (d_offsets (del7 idx) (slot + 1) >? d_offsets (del7 idx) slot);
    [|congruence].
  generalize (range (Z.to_nat (d_offsets (del7 idx) (slot + 1)
                               - d_offsets (del7 idx) slot))).
  intros l. revert vis. induction l as [|y l IH]; intros vis E.
  - cbn [loop_until] in E. congruence.
  - cbn [loop_until] in E. cbv zeta in E.
    destruct (vis (Z.land (d_idpos (del7 idx) (d_offsets (del7 idx) slot + y))
                          1048575) =? g); [apply IH; exact E|].
    match type of E with
    | match (if ?c then _ else _) with _ => _ end = _ => destruct c
    end; [discriminate | apply IH; exact E].
Qed.

Lemma phase_b_complete (idx : CaseFilterIndex) (q : list Z) (k g : Z)
      (vis : arr Z) (pos slot i : Z) :
  vis (Z.land (d_idpos (del7 idx) (d_offsets (del7 idx) slot + i)) 0xFFFFF)
  <> g ->
  0 <= pos < 15 ->
  slot = to_int (pack_key7 (left7 (query_del q pos)))
  \/ slot = to_int (pack_key7 (right7 (query_del q pos))) ->
  0 <= i < d_offsets (del7 idx) (slot + 1) - d_offsets (del7 idx) slot ->
  2 + hamming_packed14 (casefilter_pack_delete (pack_keyword q) pos)
        (casefilter_pack_delete
           (codes idx (Z.land (d_idpos (del7 idx) (d_offsets (del7 idx) slot + i))
                              0xFFFFF))
           (Z.land (Z.shiftr (d_idpos (del7 idx) (d_offsets (del7 idx) slot + i))
                             20) 0xF)) <= k ->
  exists vis', phase_b idx q k g vis = (vis', Some 1).
Proof.
  intros Hvis Hpos Hslot Hi Hh. unfold phase_b.
  destruct (loop_until_hits
              (fun pos visited =>
                 let qdel_code := casefilter_pack_delete (pack_keyword q) pos in
                 let qdel := query_del q pos in
                 let lslot := to_int (pack_key7 (left7 qdel)) in
                 match scan_del idx qdel_code k g lslot visited with
                 | (visited, Some r) => (visited, Some r)
                 | (visited, None) =>
                     let rslot := to_int (pack_key7 (right7 qdel)) in
                     scan_del idx qdel_code k g rslot visited
                 end)
              (fun v : arr Z => v = vis) (range 15) pos)
    with vis as (vis' & r & E).
  - apply in_range. lia.
  - intros y s s' -> E. cbv zeta in E.
    destruct (scan_del idx (casefilter_pack_delete (pack_keyword q) y) k g
                (to_int (pack_key7 (left7 (query_del q y)))) vis)
      as [v1 [r1|]] eqn:E1; [discriminate|].
    apply scan_del_keeps in E1. subst v1.
    apply scan_del_keeps in E. exact E.
  - intros s ->. cbv zeta.
    destruct (scan_del idx (casefilter_pack_delete (pack_keyword q) pos) k g
                (to_int (pack_key7 (left7 (query_del q pos)))) vis)
      as [v1 [r1|]] eqn:E1; [eexists; eexists; reflexivity|].
    apply scan_del_keeps in E1 as Ev. subst v1.
    destruct Hslot as [-> | ->].
    + destruct (scan_del_complete idx
                  (casefilter_pack_delete (pack_keyword q) pos) k g _ vis i
                  Hvis Hi Hh) as (v' & E'). congruence.
    + destruct (scan_del_complete idx
                  (casefilter_pack_delete (pack_keyword q) pos) k g _ vis i
                  Hvis Hi Hh) as (v' & E'). eexists. eexists. exact E'.
  - reflexivity.
  - exists vis'. pose proof E as E'. apply phase_b_hit in E'.
    destruct E' as [-> _]. exact E.
Qed.

(** *** The pigeonhole arguments *)

Lemma hamming_split (n : nat) (a b : list Z) :
  hamming a b
  = hamming (firstn n a) (firstn n b) + hamming (skipn n a) (skipn n b).
Proof.
  revert a b. induction n as [|n IH]; intros a b; [reflexivity|].
  destruct a as [|x a], b as [|y b]; cbn [firstn skipn hamming]; try lia.
  - destruct (skipn n a); reflexivity.
  - rewrite (IH a b). lia.
Qed.

Lemma hamming_zero_eq (a b : list Z) :
  length a = length b -> hamming a b = 0 -> a = b.
Proof.
  revert b. induction a as [|x a IH]; intros [|y b] L H; try discriminate;
    [reflexivity|].
  cbn [hamming] in H. pose proof (hamming_nonneg a b).
  destruct (Z.eqb_spec x y) as [-> | Ne]; [|lia].
  f_equal. apply IH; [cbn in L; lia | lia].
Qed.

Lemma block_firstn_skipn (w : list Z) (b : nat) :
  length w = 15%nat -> (b <= 4)%nat ->
  block w (Z.of_nat b) = firstn 3 (skipn (3 * b) w).
Proof.
  intros L Hb. unfold block.
  replace (Z.of_nat b * 3) with (Z.of_nat (3 * b)) by lia.
  apply bytes_from_firstn_skipn. lia.
Qed.

Lemma blocks_of_15 (l : list Z) :
  length l = 15%nat ->
  block l 0 = firstn 3 l /\ block l 1 = firstn 3 (skipn 3 l)
  /\ block l 2 = firstn 3 (skipn 6 l) /\ block l 3 = firstn 3 (skipn 9 l)
  /\ block l 4 = skipn 12 l.
Proof.
  intros L.
  split; [exact (block_firstn_skipn l 0 L ltac:(lia))|].
  split; [exact (block_firstn_skipn l 1 L ltac:(lia))|].
  split; [exact (block_firstn_skipn l 2 L ltac:(lia))|].
  split; [exact (block_firstn_skipn l 3 L ltac:(lia))|].
  change (block l 4) with (block l (Z.of_nat 4)).
  rewrite (block_firstn_skipn l 4 L ltac:(lia)).
  apply firstn_all2. rewrite length_skipn. lia.
Qed.

(** The Hamming distance of two words is the sum over their blocks. *)
Lemma hamming_blocks (q w : list Z) :
  length q = 15%nat -> length w = 15%nat ->
  hamming q w
  = hamming (block q 0) (block w 0) + hamming (block q 1) (block w 1)
    + hamming (block q 2) (block w 2) + hamming (block q 3) (block w 3)
    + hamming (block q 4) (block w 4).
Proof.
  intros Lq Lw.
  destruct (blocks_of_15 q Lq) as (-> & -> & -> & -> & ->).
  destruct (blocks_of_15 w Lw) as (-> & -> & -> & -> & ->).
  rewrite (hamming_split 3 q w).
  rewrite (hamming_split 3 (skipn 3 q) (skipn 3 w)), !skipn_skipn.
  change (3 + 3)%nat with 6%nat.
  rewrite (hamming_split 3 (skipn 6 q) (skipn 6 w)), !skipn_skipn.
  change (3 + 6)%nat with 9%nat.
  rewrite (hamming_split 3 (skipn 9 q) (skipn 9 w)), !skipn_skipn.
  change (3 + 9)%nat with 12%nat. lia.
Qed.

(** Two words of 15 characters that differ in at most 3 positions agree on
    two of their five blocks. *)
Lemma two_blocks_agree (q w : list Z) :
  length q = 15%nat -> length w = 15%nat -> hamming q w <= 3 ->
  exists b1 b2,
    0 <= b1 < b2 /\ b2 <= 4
    /\ block q b1 = block w b1 /\ block q b2 = block w b2.
Proof.
  intros Lq Lw H. rewrite (hamming_blocks q w Lq Lw) in H.
  assert (D : forall b, hamming (block q b) (block w b) = 0 ->
                        block q b = block w b).
  { intros b. apply hamming_zero_eq. unfold block.
    rewrite !bytes_from_length. reflexivity. }
  pose proof (hamming_nonneg (block q 0) (block w 0)).
  pose proof (hamming_nonneg (block q 1) (block w 1)).
  pose proof (hamming_nonneg (block q 2) (block w 2)).
  pose proof (hamming_nonneg (block q 3) (block w 3)).
  pose proof (hamming_nonneg (block q 4) (block w 4)).
  destruct (Z.eq_dec (hamming (block q 0) (block w 0)) 0) as [Z0 | N0],
    (Z.eq_dec (hamming (block q 1) (block w 1)) 0) as [Z1 | N1],
    (Z.eq_dec (hamming (block q 2) (block w 2)) 0) as [Z2 | N2],
    (Z.eq_dec (hamming (block q 3) (block w 3)) 0) as [Z3 | N3],
    (Z.eq_dec (hamming (block q 4) (block w 4)) 0) as [Z4 | N4]; try lia;
    first [ exists 0, 1; split; [lia|]; split; [lia|]; split; apply D; assumption
          | exists 0, 2; split; [lia|]; split; [lia|]; split; apply D; assumption
          | exists 0, 3; split; [lia|]; split; [lia|]; split; apply D; assumption
          | exists 0, 4; split; [lia|]; split; [lia|]; split; apply D; assumption
          | exists 1, 2; split; [lia|]; split; [lia|]; split; apply D; assumption
          | exists 1, 3; split; [lia|]; split; [lia|]; split; apply D; assumption
          | exists 1, 4; split; [lia|]; split; [lia|]; split; apply D; assumption
          | exists 2, 3; split; [lia|]; split; [lia|]; split; apply D; assumption
          | exists 2, 4; split; [lia|]; split; [lia|]; split; apply D; assumption
          | exists 3, 4; split; [lia|]; split; [lia|]; split; apply D; assumption ].
Qed.

(** Every two blocks are a pair of the table [pair_i], [pair_j]. *)
Lemma pair_of_blocks (b1 b2 : Z) :
  0 <= b1 < b2 -> b2 <= 4 ->
  exists p, 0 <= p < 10
    /\ nth (Z.to_nat p) pair_i 0 = b1 /\ nth (Z.to_nat p) pair_j 0 = b2.
Proof.
  intros H1 H2.
  assert (C : (b1 = 0 /\ b2 = 1) \/ (b1 = 0 /\ b2 = 2) \/ (b1 = 0 /\ b2 = 3)
              \/ (b1 = 0 /\ b2 = 4) \/ (b1 = 1 /\ b2 = 2) \/ (b1 = 1 /\ b2 = 3)
              \/ (b1 = 1 /\ b2 = 4) \/ (b1 = 2 /\ b2 = 3) \/ (b1 = 2 /\ b2 = 4)
              \/ (b1 = 3 /\ b2 = 4)) by lia.
  destruct C as [[-> ->] | [[-> ->] | [[-> ->] | [[-> ->] | [[-> ->] |
                [[-> ->] | [[-> ->] | [[-> ->] | [[-> ->] | [-> ->]]]]]]]]]].
  - exists 0. split; [lia|]. split; reflexivity.
  - exists 1. split; [lia|]. split; reflexivity.
  - exists 2. split; [lia|]. split; reflexivity.
  - exists 3. split; [lia|]. split; reflexivity.
  - exists 4. split; [lia|]. split; reflexivity.
  - exists 5. split; [lia|]. split; reflexivity.
  - exists 6. split; [lia|]. split; reflexivity.
  - exists 7. split; [lia|]. split; reflexivity.
  - exists 8. split; [lia|]. split; reflexivity.
  - exists 9. split; [lia|]. split; reflexivity.
Qed.

(** The pigeonhole argument of Case A. *)
Lemma shared_pair_key (q w : list Z) :
  length q = 15%nat -> length w = 15%nat -> hamming q w <= 3 ->
  exists p, 0 <= p < 10 /\ pair_key q p = pair_key w p.
Proof.
  intros Lq Lw H.
  destruct (two_blocks_agree q w Lq Lw H) as (b1 & b2 & Hb & Hb' & E1 & E2).
  destruct (pair_of_blocks b1 b2 Hb Hb') as (p & Hp & P1 & P2).
  exists p. split; [exact Hp|]. unfold pair_key. rewrite P1, P2, E1, E2.
  reflexivity.
Qed.

(** The pigeonhole argument of Case B. *)
Lemma shared_half (u v : list Z) :
  length u = 14%nat -> length v = 14%nat -> hamming u v <= 1 ->
  left7 u = left7 v \/ right7 u = right7 v.
Proof.
  intros Lu Lv H.
  destruct (halves_of_14 u Lu) as [-> ->].
  destruct (halves_of_14 v Lv) as [-> ->].
  rewrite (hamming_split 7 u v) in H.
  pose proof (hamming_nonneg (firstn 7 u) (firstn 7 v)).
  pose proof (hamming_nonneg (skipn 7 u) (skipn 7 v)).
  destruct (Z.eq_dec (hamming (firstn 7 u) (firstn 7 v)) 0) as [Z0 | N0].
  - left. apply hamming_zero_eq; [|exact Z0].
    rewrite !length_firstn. lia.
  - right. apply hamming_zero_eq; [|lia].
    rewrite !length_skipn. lia.
Qed.

(** *** Candidates in the tables of a finalized index *)

Lemma loop_until_inv {A S R : Type} (body : A -> S -> S * option R)
      (Inv : S -> Prop) (l : list A) :
  (forall y s s' r, Inv s -> body y s = (s', r) -> Inv s') ->
  forall s s' r, Inv s -> loop_until body l s = (s', r) -> Inv s'.
Proof.
  intros Hb. induction l as [|y l IH]; intros s s' r Hs E.
  - cbn [loop_until] in E. injection E as <- _. exact Hs.
  - cbn [loop_until] in E. destruct (body y s) as [s1 [r1|]] eqn:E1.
    + injection E as <- _. apply (Hb y s s1 _ Hs E1).
    + apply (IH s1 s' r); [|exact E]. apply (Hb y s s1 _ Hs E1).
Qed.

(** Phase A leaves in the visited-set only old marks and its own. *)
Lemma phase_a_marks (idx : CaseFilterIndex) (q : list Z) (k g : Z)
      (vis vis' : arr Z) (r : option Z) :
  phase_a idx q k g vis = (vis', r) ->
  forall id, vis' id = vis id \/ vis' id = g.
Proof.
  unfold phase_a.
  apply (loop_until_inv _ (fun v : arr Z => forall id, v id = vis id \/ v id = g)).
  - intros oi s s' r' Hs. cbv zeta.
    destruct (pair_len idx q (sort_order (pair_len idx q) oi) =? 0).
    + intros E. injection E as <- _. exact Hs.
    + apply (loop_until_inv _
               (fun v : arr Z => forall id, v id = vis id \/ v id = g));
        [|exact Hs].
      intros i s0 s1 r1 Hs0. cbv zeta.
      destruct (s0 (h_ids (hidx idx) _) =? g).
      * intros E. injection E as <- _. exact Hs0.
      * assert (Hu : forall id,
                  upd s0 (h_ids (hidx idx)
                            (pair_start idx q (sort_order (pair_len idx q) oi) + i))
                      g id = vis id
                  \/ upd s0 (h_ids (hidx idx)
                               (pair_start idx q (sort_order (pair_len idx q) oi) + i))
                         g id = g).
        { intros id. unfold upd. destruct (id =? _); [right; reflexivity | apply Hs0]. }
        destruct (hamming_packed15 (pack_keyword q) _ <=? k);
          intros E; injection E as <- _; exact Hu.
  - intros id. left. reflexivity.
Qed.

Lemma pair_key_record (w : list Z) (p : Z) :
  length w = 15%nat -> 0 <= p < 10 -> pair_key (w ++ [0]) p = pair_key w p.
Proof.
  intros L Hp. destruct (pair_cases p Hp) as [Hi Hj].
  unfold pair_key, block. rewrite !bytes_from_app_l by lia. reflexivity.
Qed.

Lemma del_string_record (w : list Z) (pos : Z) :
  length w = 15%nat -> 0 <= pos < 15 ->
  del_string (w ++ [0]) pos = remove_at (Z.to_nat pos) w.
Proof.
  intros L Hp. rewrite del_string_remove by exact Hp.
  rewrite bytes_from_app_l by lia. rewrite bytes_from_word by exact L.
  reflexivity.
Qed.

Section Candidates.
Variables (cap : Z) (ws : list (list Z)) (q : list Z) (id : nat).
Hypothesis Hws : Forall (word_over 15) ws.
Hypothesis Hn : Z.of_nat (length ws) <= 1048576.
Hypothesis Hq : word_over 15 q.
Hypothesis Hid : (id < length ws)%nat.

(** The word [id] is listed in the run of every pair whose key it shares
    with the query. *)
Lemma pair_run_has (p : Z) :
  0 <= p < 10 -> pair_key q p = pair_key (nth id ws []) p ->
  exists i,
    0 <= i < pair_len (csr_index (insert_all cap ws)) q p
    /\ h_ids (hidx (csr_index (insert_all cap ws)))
             (pair_start (csr_index (insert_all cap ws)) q p + i)
       = Z.of_nat id.
Proof.
  intros Hp Ek.
  destruct (insert_all_valid cap ws (Z.of_nat id) Hws ltac:(lia))
    as (Ekw & _ & [Lw Fw] & _).
  rewrite Nat2Z.id in Ekw, Lw, Fw.
  assert (Es : pair_slot q p = pair_slot (keywords (insert_all cap ws) (Z.of_nat id)) p).
  { unfold pair_slot. rewrite Ekw, pair_key_record, Ek by assumption.
    reflexivity. }
  destruct (pair_slot_range q p (word_over_valid15 q Hq) Hp) as [_ Bs].
  assert (Hin : In (pair_slot q p, Z.of_nat id) (h_postings (insert_all cap ws))).
  { apply in_h_postings. exists (Z.of_nat id), p.
    destruct (insert_all_spec cap ws) as [Ec _]. rewrite Ec, Nat2Z.id.
    split; [lia|]. split; [exact Hp|]. rewrite Es. reflexivity. }
  destruct (csr_run_complete H_SLOTS _ _ _
              (h_postings_in_range cap ws Hws Hn) Hin) as (i & Hi & Ei).
  exists i. unfold pair_len, pair_start.
  revert Hi Ei Bs. generalize (pair_slot q p). intros s Hi Ei Bs.
  rewrite !csr_h_offsets by lia. rewrite cnt_lt_succ, csr_h_ids.
  split; [lia | exact Ei].
Qed.

(** The word [id] with its position [posw] is listed in the run of each
    half it shares with the query after their deletions. *)
Lemma del_run_has (pos posw : Z) (slot : Z) :
  0 <= pos < 15 -> 0 <= posw < 15 ->
  (slot = to_int (pack_key7 (left7 (query_del q pos)))
   /\ left7 (query_del q pos)
      = left7 (remove_at (Z.to_nat posw) (nth id ws [])))
  \/ (slot = to_int (pack_key7 (right7 (query_del q pos)))
      /\ right7 (query_del q pos)
         = right7 (remove_at (Z.to_nat posw) (nth id ws []))) ->
  0 <= slot < 10000000
  /\ exists i,
       0 <= i < d_offsets (del7 (csr_index (insert_all cap ws))) (slot + 1)
                - d_offsets (del7 (csr_index (insert_all cap ws))) slot
       /\ d_idpos (del7 (csr_index (insert_all cap ws)))
                  (d_offsets (del7 (csr_index (insert_all cap ws))) slot + i)
          = pack_idpos (Z.of_nat id) posw.
Proof.
  intros Hpos Hposw Hs.
  destruct (insert_all_valid cap ws (Z.of_nat id) Hws ltac:(lia))
    as (Ekw & _ & [Lw Fw] & _).
  rewrite Nat2Z.id in Ekw, Lw, Fw.
  destruct (del_keys_range _ (query_del_word q pos
              (word_over_valid15 q Hq) Hpos)) as [Bl Br].
  assert (Ed : del_string (keywords (insert_all cap ws) (Z.of_nat id)) posw
               = remove_at (Z.to_nat posw) (nth id ws []))
    by (rewrite Ekw; apply del_string_record; assumption).
  assert (Hin : In (slot, pack_idpos (Z.of_nat id) posw)
                   (d_postings (insert_all cap ws))
                /\ 0 <= slot < 10000000).
  { destruct Hs as [[-> E] | [-> E]]; rewrite to_int_id by lia.
    - split; [|lia]. apply in_d_postings. exists (Z.of_nat id), posw.
      destruct (insert_all_spec cap ws) as [Ec _]. rewrite Ec, Nat2Z.id.
      split; [lia|]. split; [exact Hposw|]. left. rewrite Ed, E. reflexivity.
    - split; [|lia]. apply in_d_postings. exists (Z.of_nat id), posw.
      destruct (insert_all_spec cap ws) as [Ec _]. rewrite Ec, Nat2Z.id.
      split; [lia|]. split; [exact Hposw|]. right. rewrite Ed, E. reflexivity. }
  destruct Hin as [Hin Bs]. split; [exact Bs|].
  destruct (csr_run_complete CASEFILTER_DEL_KEY_SPACE _ _ _
              (d_postings_in_range cap ws Hws Hn) Hin) as (i & Hi & Ei).
  exists i. rewrite !csr_d_offsets by lia. rewrite cnt_lt_succ, csr_d_idpos.
  split; [lia | exact Ei].
Qed.
End Candidates.

(** *** The search from a fresh generation *)

(** The state the two phases start from. *)
Lemma fresh_after_alloc (n : Z) (st : SearchState) :
  fresh_state n st ->
  let st1 := if n >? visited_cap st then mkState (Some zeros) n 1 else st in
  exists vis,
    visited_buf st1 = Some vis
    /\ 0 <= gen st1 <= 4294967293
    /\ forall id, 0 <= id < n -> vis id <= gen st1.
Proof.
  intros H. cbv zeta. destruct (Z.gtb_spec n (visited_cap st)) as [G | L].
  - exists zeros. cbn [visited_buf gen]. split; [reflexivity|].
    split; [lia|]. intros id _. unfold zeros. lia.
  - destruct H as [H | H]; [lia | exact H].
Qed.

Section FreshSearch.
Variables (cap : Z) (ws : list (list Z)) (q : list Z).
Hypothesis Hws : Forall (word_over 15) ws.
Hypothesis Hn : Z.of_nat (length ws) <= 1048576.
Hypothesis Hq : word_over 15 q.

Lemma code_distance (id : nat) :
  (id < length ws)%nat ->
  hamming_packed15 (pack_keyword q) (codes (insert_all cap ws) (Z.of_nat id))
  = hamming q (nth id ws []).
Proof.
  intros Hid.
  destruct (insert_all_valid cap ws (Z.of_nat id) Hws ltac:(lia))
    as (_ & Ec & Hw & _).
  rewrite Nat2Z.id in Ec, Hw.
  rewrite Ec, pack_keyword_encode by exact Hq.
  apply hamming_packed15_encode; assumption.
Qed.

Lemma deleted_code_distance (id : nat) (pos posw : Z) :
  (id < length ws)%nat -> 0 <= pos < 15 -> 0 <= posw < 15 ->
  hamming_packed14 (casefilter_pack_delete (pack_keyword q) pos)
    (casefilter_pack_delete (codes (insert_all cap ws) (Z.of_nat id)) posw)
  = hamming (remove_at (Z.to_nat pos) q)
            (remove_at (Z.to_nat posw) (nth id ws [])).
Proof.
  intros Hid Hpos Hposw.
  destruct (insert_all_valid cap ws (Z.of_nat id) Hws ltac:(lia))
    as (_ & Ec & [Lw Fw] & _).
  rewrite Nat2Z.id in Ec, Lw, Fw. destruct Hq as [Lq Fq].
  rewrite Ec, pack_keyword_encode by (split; assumption).
  replace pos with (Z.of_nat (Z.to_nat pos)) at 1 by lia.
  replace posw with (Z.of_nat (Z.to_nat posw)) at 1 by lia.
  rewrite !pack_delete_encode by (auto; lia).
  apply hamming_packed14_encode; split;
    auto using remove_at_Forall; rewrite remove_at_length; lia.
Qed.

Lemma search_complete_fresh (st : SearchState) :
  fresh_state (Z.of_nat (length ws)) st ->
  near_match ws q ->
  snd (casefilter_search st (Some (csr_index (insert_all cap ws))) (Some q) 3)
  = 1.
Proof.
  intros Hst (w & Hw & Hnear).
  destruct (In_nth ws w [] Hw) as (id & Hid & <-).
  destruct (insert_all_spec cap ws) as [Ec _].
  unfold casefilter_search.
  rewrite (strlen_word 15 q Hq). change (Z.of_nat 15 =? KEYWORD_LEN) with true.
  cbn [negb]. cbv zeta.
  change (keyword_count (csr_index (insert_all cap ws)))
    with (keyword_count (insert_all cap ws)).
  rewrite Ec.
  destruct (fresh_after_alloc _ st Hst) as (vis & Ev & Hg & Hm).
  cbv zeta in Ev, Hg, Hm. revert Ev Hg Hm.
  generalize (if Z.of_nat (length ws) >? visited_cap st
              then mkState (Some zeros) (Z.of_nat (length ws)) 1 else st).
  intros st1 Ev Hg Hm. rewrite Ev.
  assert (E1 : wrap32 (gen st1 + 1) = gen st1 + 1)
    by (apply Z.mod_small; lia).
  rewrite E1. destruct (Z.eqb_spec (gen st1 + 1) 0) as [Z0 | _]; [lia|].
  assert (E2 : wrap32 (gen st1 + 1 + 1) = gen st1 + 2)
    by (unfold wrap32; rewrite Z.mod_small; lia).
  rewrite E2.
  change (codes (csr_index (insert_all cap ws)))
    with (codes (insert_all cap ws)).
  destruct (phase_a (csr_index (insert_all cap ws)) q 3 (gen st1 + 1) vis)
    as [v1 [r1|]] eqn:EA.
  { apply phase_a_hit in EA. destruct EA as [-> _]. reflexivity. }
  destruct Hnear as [Hh | (i & j & Hi & Hj & Hh)].
  - exfalso.
    destruct Hq as [Lq Fq].
    destruct (insert_all_valid cap ws (Z.of_nat id) Hws ltac:(lia))
      as (_ & _ & [Lw Fw] & _).
    rewrite Nat2Z.id in Lw.
    destruct (shared_pair_key q (nth id ws []) Lq Lw Hh) as (p & Hp & Ek).
    destruct (pair_run_has cap ws q id Hws Hn (conj Lq Fq) Hid p Hp Ek)
      as (i & Hi & Ei).
    destruct (phase_a_complete (csr_index (insert_all cap ws)) q 3
                (gen st1 + 1) (Z.of_nat (length ws)) vis p i) as (v' & E').
    + intros id' Hid' Em. specialize (Hm id' Hid'). lia.
    + exact Hp.
    + exact Hi.
    + rewrite Ei. lia.
    + change (codes (csr_index (insert_all cap ws)))
        with (codes (insert_all cap ws)).
      rewrite Ei, code_distance by exact Hid. exact Hh.
    + congruence.
  - destruct Hq as [Lq Fq].
    destruct (insert_all_valid cap ws (Z.of_nat id) Hws ltac:(lia))
      as (_ & _ & [Lw Fw] & _).
    rewrite Nat2Z.id in Lw.
    assert (Eq : query_del q (Z.of_nat i) = remove_at i q).
    { rewrite query_del_remove, bytes_from_word, Nat2Z.id by lia.
      reflexivity. }
    assert (Hhalf : left7 (remove_at i q) = left7 (remove_at j (nth id ws []))
                    \/ right7 (remove_at i q)
                       = right7 (remove_at j (nth id ws [])))
      by (apply shared_half; [rewrite remove_at_length; lia
                             | rewrite remove_at_length; lia | exact Hh]).
    assert (Hrun : exists slot,
               (slot = to_int (pack_key7 (left7 (query_del q (Z.of_nat i))))
                \/ slot = to_int (pack_key7 (right7 (query_del q (Z.of_nat i)))))
               /\ 0 <= slot < 10000000
               /\ exists i',
                    0 <= i' < d_offsets (del7 (csr_index (insert_all cap ws)))
                                        (slot + 1)
                              - d_offsets (del7 (csr_index (insert_all cap ws)))
                                          slot
                    /\ d_idpos (del7 (csr_index (insert_all cap ws)))
                               (d_offsets (del7 (csr_index (insert_all cap ws)))
                                          slot + i')
                       = pack_idpos (Z.of_nat id) (Z.of_nat j)).
    { destruct Hhalf as [El | Er].
      - exists (to_int (pack_key7 (left7 (query_del q (Z.of_nat i))))).
        split; [left; reflexivity|].
        apply (del_run_has cap ws q id Hws Hn (conj Lq Fq) Hid
                 (Z.of_nat i) (Z.of_nat j)); try lia.
        left. split; [reflexivity|]. rewrite Eq, Nat2Z.id. exact El.
      - exists (to_int (pack_key7 (right7 (query_del q (Z.of_nat i))))).
        split; [right; reflexivity|].
        apply (del_run_has cap ws q id Hws Hn (conj Lq Fq) Hid
                 (Z.of_nat i) (Z.of_nat j)); try lia.
        right. split; [reflexivity|]. rewrite Eq, Nat2Z.id. exact Er. }
    destruct Hrun as (slot & Hslot & Bs & i' & Hi' & Ei').
    destruct (pack_idpos_fields (Z.of_nat id) (Z.of_nat j)
                ltac:(lia) ltac:(lia)) as [F1 F2].
    destruct (phase_b_complete (csr_index (insert_all cap ws)) q 3
                (gen st1 + 2) v1 (Z.of_nat i) slot i') as (v' & E').
    + rewrite Ei', F1.
      destruct (phase_a_marks _ _ _ _ _ _ _ EA (Z.of_nat id)) as [Em | Em];
        rewrite Em; [|lia].
      specialize (Hm (Z.of_nat id) ltac:(lia)). lia.
    + lia.
    + exact Hslot.
    + exact Hi'.
    + change (codes (csr_index (insert_all cap ws)))
        with (codes (insert_all cap ws)).
      rewrite Ei', F1, F2.
      rewrite (deleted_code_distance id (Z.of_nat i) (Z.of_nat j))
        by (assumption || lia).
      rewrite !Nat2Z.id. lia.
    + rewrite E'. reflexivity.
Qed.
End FreshSearch.

(** *** What a hit means, and the answers of the search *)

Lemma search_result_bit (st : SearchState) (idx : option CaseFilterIndex)
      (q : option (list Z)) (k : Z) :
  snd (casefilter_search st idx q k) = 0
  \/ snd (casefilter_search st idx q k) = 1.
Proof.
  unfold casefilter_search.
  destruct idx as [idx|], q as [q|]; try (left; reflexivity).
  destruct (negb (strlen q =? KEYWORD_LEN)); [left; reflexivity|].
  cbv zeta.
  destruct (visited_buf _) as [vis|]; [|left; reflexivity].
  destruct (phase_a idx q k _ _) as [v1 [r1|]] eqn:EA.
  - apply phase_a_hit in EA. destruct EA as [-> _]. right. reflexivity.
  - destruct (phase_b idx q k _ v1) as [v2 [r2|]] eqn:EB.
    + apply phase_b_hit in EB. destruct EB as [-> _]. right. reflexivity.
    + left. reflexivity.
Qed.

Section HitMeaning.
Variables (cap : Z) (ws : list (list Z)) (q : list Z).
Hypothesis Hws : Forall (word_over 15) ws.
Hypothesis Hn : Z.of_nat (length ws) <= 1048576.
Hypothesis Hq : word_over 15 q.

Lemma search_hit_near (st st' : SearchState) :
  casefilter_search st (Some (csr_index (insert_all cap ws))) (Some q) 3
  = (st', 1) ->
  near_match ws q.
Proof.
  intros H. apply search_hit in H. destruct Hq as [Lq Fq].
  change (codes (csr_index (insert_all cap ws)))
    with (codes (insert_all cap ws)) in H.
  destruct H as [(p & i & Hp & Hi & Hh) | (pos & slot & i & Hpos & Hs & Hi & Hh)].
  - destruct (pair_candidate cap ws q Hws Hn (conj Lq Fq) p i Hp Hi)
      as (w & Hin & Hw & Hcode).
    exists w. split; [exact Hin|]. left.
    rewrite Hcode, pack_keyword_encode, hamming_packed15_encode in Hh
      by (auto; split; auto).
    exact Hh.
  - assert (Bs : 0 <= slot < 10000000).
    { destruct (del_keys_range _ (query_del_word q pos
                  (word_over_valid15 q (conj Lq Fq)) Hpos)) as [Bl Br].
      destruct Hs as [-> | ->]; rewrite to_int_id; lia. }
    destruct (del_candidate cap ws Hws Hn slot i Bs Hi)
      as (w & posw & Hin & Hw & Hpw & Hcode & Hp).
    exists w. split; [exact Hin|]. right.
    exists (Z.to_nat pos), (Z.to_nat posw).
    split; [lia|]. split; [lia|].
    rewrite Hcode, Hp, pack_keyword_encode in Hh by (split; auto).
    destruct Hw as [Lw Fw].
    replace pos with (Z.of_nat (Z.to_nat pos)) in Hh by lia.
    replace posw with (Z.of_nat (Z.to_nat posw)) in Hh by lia.
    rewrite !pack_delete_encode in Hh by (auto; lia).
    rewrite hamming_packed14_encode in Hh
      by (split; auto using remove_at_Forall; rewrite remove_at_length; lia).
    lia.
Qed.

Lemma search_fresh_iff (st : SearchState) :
  fresh_state (Z.of_nat (length ws)) st ->
  (snd (casefilter_search st (Some (csr_index (insert_all cap ws))) (Some q) 3)
   = 1 <-> near_match ws q).
Proof.
  intros Hst. split.
  - destruct (casefilter_search st (Some (csr_index (insert_all cap ws)))
                (Some q) 3) as [st' r] eqn:E.
    cbn [snd]. intros ->. apply (search_hit_near st st' E).
  - apply search_complete_fresh; assumption.
Qed.
End HitMeaning.

(** *** The generation over a run of searches *)

Lemma scan_del_marks (idx : CaseFilterIndex) (qdel_code k g slot : Z)
      (vis vis' : arr Z) (r : option Z) :
  scan_del idx qdel_code k g slot vis = (vis', r) ->
  forall id, vis' id = vis id \/ vis' id = g.
Proof.
  unfold scan_del.
  destruct (d_offsets (del7 idx) (slot + 1) >? d_offsets (del7 idx) slot).
  - apply (loop_until_inv _
             (fun v : arr Z => forall id, v id = vis id \/ v id = g));
      [|intros id; left; reflexivity].
    intros i s s' r' Hs. cbv zeta.
    destruct (s (Z.land (d_idpos (del7 idx) (d_offsets (del7 idx) slot + i))
                        1048575) =? g).
    + intros E. injection E as <- _. exact Hs.
    + match goal with
      | |- (if ?c then _ else _) = _ -> _ => destruct c
      end; intros E; injection E as <- _; [|exact Hs].
      intros id. unfold upd. destruct (id =? _); [right; reflexivity | apply Hs].
  - intros E. injection E as <- _. intros id. left. reflexivity.
Qed.

Lemma phase_b_marks (idx : CaseFilterIndex) (q : list Z) (k g : Z)
      (vis vis' : arr Z) (r : option Z) :
  phase_b idx q k g vis = (vis', r) ->
  forall id, vis' id = vis id \/ vis' id = g.
Proof.
  unfold phase_b.
  apply (loop_until_inv _
           (fun v : arr Z => forall id, v id = vis id \/ v id = g));
    [|intros id; left; reflexivity].
  intros pos s s' r' Hs. cbv zeta.
  destruct (scan_del idx (casefilter_pack_delete (pack_keyword q) pos) k g
              (to_int (pack_key7 (left7 (query_del q pos)))) s)
    as [v1 [r1|]] eqn:E1.
  - intros E. injection E as <- _. intros id.
    destruct (scan_del_marks _ _ _ _ _ _ _ _ E1 id) as [-> | ->];
      [apply Hs | right; reflexivity].
  - intros E id.
    destruct (scan_del_marks _ _ _ _ _ _ _ _ E id) as [-> | ->];
      [|right; reflexivity].
    destruct (scan_del_marks _ _ _ _ _ _ _ _ E1 id) as [-> | ->];
      [apply Hs | right; reflexivity].
Qed.

(** A search advances the generation by at most two and leaves no mark
    above it. *)
Lemma search_step_bounded (idx : CaseFilterIndex) (q : list Z) (k b : Z)
      (st : SearchState) :
  strlen q = 15 -> 1 <= b <= 4294967293 ->
  bounded_state (keyword_count idx) b st ->
  bounded_state (keyword_count idx) (b + 2)
                (fst (casefilter_search st (Some idx) (Some q) k)).
Proof.
  intros Hq Hb Hst. unfold casefilter_search.
  rewrite Hq. change (15 =? KEYWORD_LEN) with true. cbn [negb]. cbv zeta.
  assert (H1 : exists vis,
             visited_buf (if keyword_count idx >? visited_cap st
                          then mkState (Some zeros) (keyword_count idx) 1
                          else st) = Some vis
             /\ 0 <= gen (if keyword_count idx >? visited_cap st
                          then mkState (Some zeros) (keyword_count idx) 1
                          else st) <= b
             /\ forall id, 0 <= id < keyword_count idx ->
                  vis id <= gen (if keyword_count idx >? visited_cap st
                                 then mkState (Some zeros) (keyword_count idx) 1
                                 else st)).
  { destruct (Z.gtb_spec (keyword_count idx) (visited_cap st)) as [G | L].
    - exists zeros. cbn [visited_buf gen]. split; [reflexivity|].
      split; [lia|]. intros id _. unfold zeros. lia.
    - destruct Hst as [Hst | Hst]; [lia | exact Hst]. }
  destruct H1 as (vis & Ev & Hg & Hm). revert Ev Hg Hm.
  generalize (if keyword_count idx >? visited_cap st
              then mkState (Some zeros) (keyword_count idx) 1 else st).
  intros st1 Ev Hg Hm. rewrite Ev.
  assert (E1 : wrap32 (gen st1 + 1) = gen st1 + 1)
    by (apply Z.mod_small; lia).
  rewrite E1. destruct (Z.eqb_spec (gen st1 + 1) 0) as [Z0 | _]; [lia|].
  assert (E2 : wrap32 (gen st1 + 1 + 1) = gen st1 + 2)
    by (unfold wrap32; rewrite Z.mod_small; lia).
  rewrite E2.
  destruct (phase_a idx q k (gen st1 + 1) vis) as [v1 [r1|]] eqn:EA.
  - cbn [fst]. right. exists v1. cbn [visited_buf gen].
    split; [reflexivity|]. split; [lia|]. intros id Hid.
    destruct (phase_a_marks _ _ _ _ _ _ _ EA id) as [-> | ->];
      [specialize (Hm id Hid); lia | lia].
  - assert (Hv1 : forall id, 0 <= id < keyword_count idx ->
                    v1 id <= gen st1 + 2).
    { intros id Hid.
      destruct (phase_a_marks _ _ _ _ _ _ _ EA id) as [-> | ->];
        [specialize (Hm id Hid); lia | lia]. }
    destruct (phase_b idx q k (gen st1 + 2) v1) as [v2 [r2|]] eqn:EB;
      cbn [fst]; right; exists v2; cbn [visited_buf gen];
      (split; [reflexivity|]); (split; [lia|]); intros id Hid;
      destruct (phase_b_marks _ _ _ _ _ _ _ EB id) as [-> | ->];
      try (apply Hv1; exact Hid); lia.
Qed.

(** On an index without words the search answers 0 and a fresh process
    stays as it is. *)
Lemma search_empty_index (idx : CaseFilterIndex) (q : option (list Z)) (k : Z) :
  keyword_count idx <= 0 ->
  casefilter_search initial_state (Some idx) q k = (initial_state, 0).
Proof.
  intros H. unfold casefilter_search. destruct q as [q|]; [|reflexivity].
  destruct (negb (strlen q =? KEYWORD_LEN)); [reflexivity|].
  cbv zeta. cbn [visited_cap initial_state].
  destruct (Z.gtb_spec (keyword_count idx) 0); [lia | reflexivity].
Qed.

Section History.
Variables (cap : Z) (ws : list (list Z)).
Hypothesis Hws : Forall (word_over 15) ws.
Hypothesis Hn : Z.of_nat (length ws) <= 1048576.

Lemma search_all_bounded (qs : list (list Z)) :
  Forall (word_over 15) qs ->
  forall (st : SearchState) (b : Z),
    bounded_state (Z.of_nat (length ws)) b st ->
    1 <= b -> b + 2 * Z.of_nat (length qs) <= 4294967295 ->
    (0 < length ws)%nat ->
    snd (search_all st (csr_index (insert_all cap ws)) qs)
    = map (fun q => snd (casefilter_search initial_state
                           (Some (csr_index (insert_all cap ws))) (Some q) 3))
          qs.
Proof.
  intros Hqs. induction Hqs as [|q qs Hq Hqs IH]; intros st b Hst Hb Hl Hpos;
    [reflexivity|].
  rewrite search_all_cons. cbn [snd map]. cbn [length] in Hl.
  destruct (insert_all_spec cap ws) as [Ec _].
  f_equal.
  - assert (Hf : fresh_state (Z.of_nat (length ws)) st).
    { destruct Hst as [Hst | (vis & Ev & Hg & Hm)]; [left; exact Hst|].
      right. exists vis. split; [exact Ev|]. split; [lia | exact Hm]. }
    assert (Hi : fresh_state (Z.of_nat (length ws)) initial_state)
      by (left; cbn [visited_cap initial_state]; lia).
    pose proof (search_fresh_iff cap ws q Hws Hn Hq st Hf) as [A1 A2].
    pose proof (search_fresh_iff cap ws q Hws Hn Hq initial_state Hi) as [B1 B2].
    destruct (search_result_bit st (Some (csr_index (insert_all cap ws)))
                (Some q) 3) as [Ea | Ea],
      (search_result_bit initial_state (Some (csr_index (insert_all cap ws)))
         (Some q) 3) as [Eb | Eb]; rewrite ?Ea, ?Eb in *; try reflexivity.
    + specialize (A2 (B1 eq_refl)). discriminate.
    + specialize (B2 (A1 eq_refl)). discriminate.
  - apply (IH _ (b + 2)); try lia.
    pose proof (search_step_bounded (csr_index (insert_all cap ws)) q 3 b st
                  (strlen_word 15 q Hq) ltac:(lia)) as Hs.
    change (keyword_count (csr_index (insert_all cap ws)))
      with (keyword_count (insert_all cap ws)) in Hs.
    rewrite Ec in Hs. apply Hs. exact Hst.
Qed.
End History.


(** ** The search on a loaded index *)

Lemma loop_until_ext {A S R : Type} (body body' : A -> S -> S * option R)
      (l : list A) :
  (forall x s, In x l -> body x s = body' x s) ->
  forall s, loop_until body l s = loop_until body' l s.
Proof.
  induction l as [|x l IH]; intros H s; [reflexivity|].
  cbn [loop_until]. rewrite (H x s (or_introl eq_refl)).
  destruct (body' x s) as [s' [r|]]; [reflexivity|].
  apply IH. intros y s0 Hy. apply H. right. exact Hy.
Qed.

(** The sort looks at the lengths of the ten pairs only. *)
Section SortExt.
Variables len len' : Z -> Z.
Hypothesis Hlen : forall p, 0 <= p < 10 -> len p = len' p.

Lemma swap_step_ext (i j : Z) (o : arr Z) :
  0 <= o i < 10 -> 0 <= o j < 10 ->
  swap_step len i o j = swap_step len' i o j.
Proof.
  intros Hi Hj. unfold swap_step. rewrite (Hlen _ Hi), (Hlen _ Hj).
  reflexivity.
Qed.

Lemma inner_loop_ext (i : Z) (n : nat) (o : arr Z) :
  0 <= i < 10 -> i + 1 + Z.of_nat n <= 10 -> order_ok len i o ->
  fold_left (swap_step len i) (map (fun t => i + 1 + t) (range n)) o
  = fold_left (swap_step len' i) (map (fun t => i + 1 + t) (range n)) o.
Proof.
  intros Hi. induction n as [|n IH]; intros Hn Hok; [reflexivity|].
  rewrite range_S, map_app, !fold_left_app. cbn [map fold_left].
  rewrite <- IH by (lia || exact Hok).
  destruct (inner_loop_ok len i n o Hi ltac:(lia) Hok) as [(R & _ & _) _].
  apply swap_step_ext; apply R; lia.
Qed.

Lemma outer_loop_ext (k : nat) :
  (k <= 10)%nat ->
  fold_left
    (fun order i => fold_left (swap_step len i) (range_from (i + 1) 10) order)
    (range k) (fold_left (fun order p => upd order p p) (range 10) zeros)
  = fold_left
      (fun order i => fold_left (swap_step len' i) (range_from (i + 1) 10) order)
      (range k) (fold_left (fun order p => upd order p p) (range 10) zeros).
Proof.
  induction k as [|k IH]; intros Hk; [reflexivity|].
  rewrite range_S, !fold_left_app. cbn [fold_left].
  rewrite <- IH by lia. unfold range_from.
  apply inner_loop_ext; [lia | lia|].
  apply (outer_loop_ok len k). lia.
Qed.

Lemma sort_order_ext : sort_order len = sort_order len'.
Proof. rewrite !sort_order_unfold. apply (outer_loop_ext 10). lia. Qed.
End SortExt.

(** Two indices that agree on the cells a search reads give the same
    search. *)
Section Agree.
Variables (idx idx' : CaseFilterIndex) (q : list Z) (n : Z).
Hypothesis Hcount : keyword_count idx' = keyword_count idx.
Hypothesis Hoff : forall s, 0 <= s <= 10000000 ->
  h_offsets (hidx idx') s = h_offsets (hidx idx) s.
Hypothesis Hids : forall j, 0 <= j < h_offsets (hidx idx) 10000000 ->
  h_ids (hidx idx') j = h_ids (hidx idx) j.
Hypothesis Hcodes : forall id, 0 <= id < n -> codes idx' id = codes idx id.
Hypothesis Hdoff : forall s, 0 <= s <= 10000000 ->
  d_offsets (del7 idx') s = d_offsets (del7 idx) s.
Hypothesis Hidpos : forall j, 0 <= j < d_offsets (del7 idx) 10000000 ->
  d_idpos (del7 idx') j = d_idpos (del7 idx) j.
Hypothesis Hruns : forall s, 0 <= s < 10000000 ->
  0 <= h_offsets (hidx idx) s
  /\ h_offsets (hidx idx) (s + 1) <= h_offsets (hidx idx) 10000000.
Hypothesis Hdruns : forall s, 0 <= s < 10000000 ->
  0 <= d_offsets (del7 idx) s
  /\ d_offsets (del7 idx) (s + 1) <= d_offsets (del7 idx) 10000000.
Hypothesis Hid : forall j, 0 <= j < h_offsets (hidx idx) 10000000 ->
  0 <= h_ids (hidx idx) j < n.
Hypothesis Hdid : forall j, 0 <= j < d_offsets (del7 idx) 10000000 ->
  0 <= Z.land (d_idpos (del7 idx) j) 0xFFFFF < n.
Hypothesis Hslot : forall p, 0 <= p < 10 -> 0 <= pair_slot q p < 10000000.
Hypothesis Hdslot : forall pos, 0 <= pos < 15 ->
  0 <= to_int (pack_key7 (left7 (query_del q pos))) < 10000000
  /\ 0 <= to_int (pack_key7 (right7 (query_del q pos))) < 10000000.

Lemma pair_start_agree (p : Z) :
  0 <= p < 10 -> pair_start idx' q p = pair_start idx q p.
Proof.
  intros Hp. unfold pair_start. apply Hoff.
  specialize (Hslot p Hp). lia.
Qed.

Lemma pair_len_agree (p : Z) :
  0 <= p < 10 -> pair_len idx' q p = pair_len idx q p.
Proof.
  intros Hp. unfold pair_len. rewrite pair_start_agree by exact Hp.
  rewrite Hoff by (specialize (Hslot p Hp); lia). reflexivity.
Qed.

Lemma phase_a_agree (k g : Z) (vis : arr Z) :
  phase_a idx' q k g vis = phase_a idx q k g vis.
Proof.
  unfold phase_a. cbv zeta.
  rewrite (sort_order_ext (pair_len idx' q) (pair_len idx q) pair_len_agree).
  apply loop_until_ext. intros oi s Hoi. apply in_range in Hoi.
  destruct (sort_order_ok (pair_len idx q)) as (R & _ & _).
  specialize (R oi ltac:(lia)).
  revert R. generalize (sort_order (pair_len idx q) oi). intros p Hp.
  rewrite pair_len_agree by exact Hp.
  destruct (pair_len idx q p =? 0); [reflexivity|].
  apply loop_until_ext. intros i s0 Hi. apply in_range in Hi.
  rewrite pair_start_agree by exact Hp.
  assert (Hj : 0 <= pair_start idx q p + i < h_offsets (hidx idx) 10000000).
  { unfold pair_len, pair_start in *. specialize (Hslot p Hp).
    destruct (Hruns (pair_slot q p) Hslot). lia. }
  rewrite Hids by exact Hj. rewrite Hcodes by (apply Hid; exact Hj).
  reflexivity.
Qed.

Lemma scan_del_agree (qdel_code k g slot : Z) (vis : arr Z) :
  0 <= slot < 10000000 ->
  scan_del idx' qdel_code k g slot vis = scan_del idx qdel_code k g slot vis.
Proof.
  intros Hs. unfold scan_del. cbv zeta.
  rewrite !Hdoff by lia.
  destruct (d_offsets (del7 idx) (slot + 1) >? d_offsets (del7 idx) slot);
    [|reflexivity].
  apply loop_until_ext. intros i s0 Hi. apply in_range in Hi.
  assert (Hj : 0 <= d_offsets (del7 idx) slot + i
               < d_offsets (del7 idx) 10000000).
  { destruct (Hdruns slot Hs). lia. }
  rewrite Hidpos by exact Hj. rewrite Hcodes by (apply Hdid; exact Hj).
  reflexivity.
Qed.

Lemma phase_b_agree (k g : Z) (vis : arr Z) :
  phase_b idx' q k g vis = phase_b idx q k g vis.
Proof.
  unfold phase_b. cbv zeta.
  apply loop_until_ext. intros pos s Hpos. apply in_range in Hpos.
  destruct (Hdslot pos ltac:(lia)) as [Hl Hr].
  rewrite scan_del_agree by exact Hl.
  destruct (scan_del idx _ k g _ s) as [v [r|]]; [reflexivity|].
  apply scan_del_agree. exact Hr.
Qed.

Lemma search_agree (st : SearchState) (k : Z) :
  casefilter_search st (Some idx') (Some q) k
  = casefilter_search st (Some idx) (Some q) k.
Proof.
  unfold casefilter_search. rewrite Hcount.
  destruct (negb (strlen q =? KEYWORD_LEN)); [reflexivity|].
  cbv zeta.
  destruct (visited_buf _) as [vis|]; [|reflexivity].
  rewrite phase_a_agree.
  destruct (phase_a idx q k _ _) as [v1 [r1|]]; [reflexivity|].
  rewrite phase_b_agree. reflexivity.
Qed.
End Agree.

Section Loaded.
Variables (cap : Z) (ws : list (list Z)).
Hypothesis Hws : Forall (word_over 15) ws.
Hypothesis Hn : Z.of_nat (length ws) <= 1048576.

Lemma built_runs (s : Z) :
  0 <= s < 10000000 ->
  (0 <= h_offsets (hidx (csr_index (insert_all cap ws))) s
   /\ h_offsets (hidx (csr_index (insert_all cap ws))) (s + 1)
      <= h_offsets (hidx (csr_index (insert_all cap ws))) 10000000)
  /\ (0 <= d_offsets (del7 (csr_index (insert_all cap ws))) s
      /\ d_offsets (del7 (csr_index (insert_all cap ws))) (s + 1)
         <= d_offsets (del7 (csr_index (insert_all cap ws))) 10000000).
Proof.
  intros Hs. rewrite !csr_h_offsets, !csr_d_offsets by lia.
  split; (split; [unfold cnt_lt; lia | apply cnt_lt_mono; lia]).
Qed.

Lemma built_totals :
  h_offsets (hidx (csr_index (insert_all cap ws))) 10000000
  = 10 * Z.of_nat (length ws)
  /\ d_offsets (del7 (csr_index (insert_all cap ws))) 10000000
     = 30 * Z.of_nat (length ws).
Proof.
  destruct (insert_all_spec cap ws) as [Ec _].
  rewrite csr_h_offsets, csr_d_offsets by lia.
  rewrite cnt_lt_all by (apply h_postings_in_range; assumption).
  rewrite cnt_lt_all by (apply d_postings_in_range; assumption).
  rewrite h_postings_length, d_postings_length, Ec, Nat2Z.id. lia.
Qed.

Lemma built_ids_range (j : Z) :
  0 <= j < 10 * Z.of_nat (length ws) ->
  0 <= h_ids (hidx (csr_index (insert_all cap ws))) j < Z.of_nat (length ws).
Proof.
  intros Hj. rewrite csr_h_ids.
  destruct (insert_all_spec cap ws) as [Ec _].
  apply (csr_payload_range (h_postings (insert_all cap ws)) H_SLOTS).
  - discriminate.
  - apply h_slots_ok; assumption.
  - intros sv Hsv. apply in_h_postings in Hsv.
    destruct Hsv as (id & p & Hid & _ & ->). cbn [snd].
    rewrite Ec, Nat2Z.id in Hid. exact Hid.
  - rewrite h_postings_length, Ec, Nat2Z.id. lia.
Qed.

Lemma built_idpos_id (j : Z) :
  0 <= j < 30 * Z.of_nat (length ws) ->
  0 <= Z.land (d_idpos (del7 (csr_index (insert_all cap ws))) j) 0xFFFFF
  < Z.of_nat (length ws).
Proof.
  intros Hj. rewrite csr_d_idpos.
  destruct (insert_all_spec cap ws) as [Ec _].
  destruct (slots_ok_spec _ _ (d_slots_ok cap ws Hws Hn)) as [Hin _].
  destruct (csr_cell_posting CASEFILTER_DEL_KEY_SPACE
              (d_postings (insert_all cap ws)) j) as (s & Hs).
  - discriminate.
  - exact Hin.
  - rewrite d_postings_length, Ec, Nat2Z.id. lia.
  - apply in_d_postings in Hs. destruct Hs as (id & pos & Hid & Hpos & E).
    rewrite Ec, Nat2Z.id in Hid.
    assert (Ev : csr_payload CASEFILTER_DEL_KEY_SPACE
                   (d_postings (insert_all cap ws)) j = pack_idpos id pos)
      by (destruct E as [E | E]; injection E as _ ->; reflexivity).
    rewrite Ev.
    destruct (pack_idpos_fields id pos ltac:(lia) ltac:(lia)) as [-> _].
    exact Hid.
Qed.

Lemma search_loaded (idx' : CaseFilterIndex) (q : list Z) (st : SearchState)
      (k : Z) :
  word_over 15 q ->
  casefilter_deserialize
    (casefilter_serialize (csr_index (insert_all cap ws))) = Some idx' ->
  casefilter_search st (Some idx') (Some q) k
  = casefilter_search st (Some (csr_index (insert_all cap ws))) (Some q) k.
Proof.
  intros Hq Hd.
  destruct (insert_all_spec cap ws) as [Ec _].
  destruct (deserialize_serialize_from (csr_index (insert_all cap ws)) [])
    as (idx1 & E & En & Ek & Sh & Sd).
  { change (keyword_count (csr_index (insert_all cap ws)))
      with (keyword_count (insert_all cap ws)). lia. }
  { intros i Hi. apply (built_records cap ws Hws).
    change (keyword_count (csr_index (insert_all cap ws)))
      with (keyword_count (insert_all cap ws)) in Hi. lia. }
  { apply built_hindex_ok; assumption. }
  { apply built_dindex_ok; assumption. }
  rewrite app_nil_r in E. unfold casefilter_deserialize in Hd.
  rewrite E in Hd. cbn [option_map fst] in Hd. injection Hd as <-.
  destruct built_totals as [Th Td].
  unfold hindex_same in Sh. unfold dindex_same in Sd.
  change (h_key_space (hidx (csr_index (insert_all cap ws)))) with 1000000 in Sh.
  change (h_pair_count (hidx (csr_index (insert_all cap ws)))) with 10 in Sh.
  change (d_key_space (del7 (csr_index (insert_all cap ws)))) with 10000000 in Sd.
  cbv zeta in Sh, Sd. change (1000000 * 10) with 10000000 in Sh.
  destruct Sh as (_ & _ & _ & Sh4 & Sh5).
  destruct Sd as (_ & _ & Sd4 & Sd5).
  change (keyword_count (csr_index (insert_all cap ws)))
    with (keyword_count (insert_all cap ws)) in En, Ek.
  change (keywords (csr_index (insert_all cap ws)))
    with (keywords (insert_all cap ws)) in Ek.
  rewrite Ec in Ek.
  pose proof built_runs as Hr. pose proof built_ids_range as Hi.
  pose proof built_idpos_id as Hdi.
  pose proof (built_idpos_range cap ws Hws Hn) as Hp.
  pose proof (built_records cap ws Hws) as Hrec.
  rewrite <- Th in Hi. rewrite <- Td in Hdi, Hp.
  change (codes (insert_all cap ws))
    with (codes (csr_index (insert_all cap ws))) in Hrec.
  change (keyword_count (insert_all cap ws))
    with (keyword_count (csr_index (insert_all cap ws))) in En.
  revert En Ek Sh4 Sh5 Sd4 Sd5 Hr Hi Hdi Hp Hrec.
  generalize (csr_index (insert_all cap ws)). intros idx.
  intros En Ek Sh4 Sh5 Sd4 Sd5 Hr Hi Hdi Hp Hrec.
  apply (search_agree idx idx1 q (Z.of_nat (length ws))).
  - exact En.
  - exact Sh4.
  - exact Sh5.
  - intros id Hid. destruct (Ek id Hid) as [_ ->].
    symmetry. apply Hrec. exact Hid.
  - exact Sd4.
  - intros j Hj. rewrite Sd5 by exact Hj. specialize (Hp j Hj).
    change 0xFFFFFF with (Z.ones 24). rewrite Z.land_ones by lia.
    apply Z.mod_small. change (2 ^ 24) with 16777216. exact Hp.
  - intros s Hs. apply Hr. exact Hs.
  - intros s Hs. apply Hr. exact Hs.
  - exact Hi.
  - exact Hdi.
  - intros p Hp'.
    destruct (pair_slot_range q p (word_over_valid15 q Hq) Hp') as [_ B]. lia.
  - intros pos Hpos.
    destruct (del_keys_range _ (query_del_word q pos
                (word_over_valid15 q Hq) Hpos)) as [Bl Br].
    rewrite !to_int_id by lia. lia.
Qed.
End Loaded.


(** ** The answers of the search while the generation is fresh *)

(** Property X1.  On the finalized index of at most [2^20] words of 15
    characters over [{A..J}], from a state whose marks do not exceed the
    generation and whose generation is at most [2^32 - 3] (or whose buffer
    is about to be allocated), [casefilter_search] with [k = 3] answers 1
    exactly when some word is at Hamming distance at most 3 from the query
    or at Hamming distance at most 1 after one deletion on each side; it
    answers 0 otherwise. *)
Theorem search_answer_fresh (cap : Z) (ws : list (list Z)) (q : list Z)
        (st : SearchState) :
  Forall (word_over 15) ws -> Z.of_nat (length ws) <= 1048576 ->
  word_over 15 q ->
  fresh_state (Z.of_nat (length ws)) st ->
  let r := snd (casefilter_search st (Some (build_index cap ws)) (Some q) 3) in
  (r = 1 <-> near_match ws q) /\ (r = 0 <-> ~ near_match ws q).
Proof.
  intros Hws Hn Hq Hst. rewrite (build_index_csr cap ws Hws Hn). cbv zeta.
  pose proof (search_fresh_iff cap ws q Hws Hn Hq st Hst) as [A B].
  destruct (search_result_bit st (Some (csr_index (insert_all cap ws)))
              (Some q) 3) as [E | E]; rewrite E in *.
  - split; split; try discriminate; try reflexivity.
    + intros Hm. specialize (B Hm). discriminate.
    + intros _ Hm. specialize (B Hm). discriminate.
  - split; split; try discriminate; try reflexivity.
    + intros _. apply A. reflexivity.
    + intros Hm. exfalso. apply Hm, A. reflexivity.
Qed.

(** [query_near] on the index of [word_a] and [word_b], asked first. *)
Lemma search_answer_fresh_witness :
  fresh_state 2 initial_state
  /\ (snd (casefilter_search initial_state (Some (build_index 1024 dict_ab))
             (Some query_near) 3) = 1
      <-> near_match dict_ab query_near).
Proof.
  assert (Hws : Forall (word_over 15) dict_ab)
    by (apply words_over_dec; reflexivity).
  assert (Hn : Z.of_nat (length dict_ab) <= 1048576) by (cbn; lia).
  assert (Hq : word_over 15 query_near) by (apply word_over_dec; reflexivity).
  assert (Hst : fresh_state 2 initial_state) by (left; cbn; lia).
  split; [exact Hst|].
  exact (proj1 (search_answer_fresh 1024 dict_ab query_near initial_state
                  Hws Hn Hq Hst)).
Defined.

(** Property X2.  A process that answers at most [2^31 - 1] queries of 15
    characters over [{A..J}] gives each of them the answer a fresh process
    gives: the answers do not depend on the queries asked before. *)
Theorem search_all_history_independent (cap : Z) (ws qs : list (list Z)) :
  Forall (word_over 15) ws -> Z.of_nat (length ws) <= 1048576 ->
  Forall (word_over 15) qs -> Z.of_nat (length qs) <= 2147483647 ->
  snd (search_all initial_state (build_index cap ws) qs)
  = map (fun q => snd (casefilter_search initial_state
                         (Some (build_index cap ws)) (Some q) 3)) qs.
Proof.
  intros Hws Hn Hqs Hl. rewrite (build_index_csr cap ws Hws Hn).
  destruct ws as [|w ws].
  - clear Hl. induction Hqs as [|q qs Hq Hqs IH]; [reflexivity|].
    rewrite search_all_cons. cbn [map].
    rewrite !(search_empty_index (csr_index (insert_all cap [])) (Some q) 3)
      by (cbn; lia).
    cbn [fst snd]. f_equal. exact IH.
  - apply (search_all_bounded cap (w :: ws) Hws Hn qs Hqs initial_state 1);
      try lia.
    + left. cbn [visited_cap initial_state length]. lia.
    + cbn [length]. lia.
Qed.

Lemma search_all_history_independent_witness :
  snd (search_all initial_state (build_index 1024 dict_ab)
         [query_shift; word_a; query_idle; query_near])
  = map (fun q => snd (casefilter_search initial_state
                         (Some (build_index 1024 dict_ab)) (Some q) 3))
        [query_shift; word_a; query_idle; query_near].
Proof.
  apply search_all_history_independent.
  - apply words_over_dec. reflexivity.
  - cbn. lia.
  - apply words_over_dec. reflexivity.
  - cbn. lia.
Defined.

(** Property X3.  Two runs of at most [2^31 - 1] valid queries each, one a
    permutation of the other, give the same multiset of answers. *)
Theorem search_all_permutation (cap : Z) (ws qs qs' : list (list Z)) :
  Forall (word_over 15) ws -> Z.of_nat (length ws) <= 1048576 ->
  Forall (word_over 15) qs -> Z.of_nat (length qs) <= 2147483647 ->
  Permutation qs qs' ->
  Permutation (snd (search_all initial_state (build_index cap ws) qs))
              (snd (search_all initial_state (build_index cap ws) qs')).
Proof.
  intros Hws Hn Hqs Hl Hp.
  assert (Hqs' : Forall (word_over 15) qs').
  { apply Forall_forall. intros q Hq. rewrite Forall_forall in Hqs.
    apply Hqs. apply (Permutation_in _ (Permutation_sym Hp) Hq). }
  assert (Hl' : Z.of_nat (length qs') <= 2147483647)
    by (rewrite <- (Permutation_length Hp); exact Hl).
  rewrite (build_index_csr cap ws Hws Hn).
  destruct ws as [|w ws].
  - assert (Z0 : forall l, Forall (word_over 15) l ->
               snd (search_all initial_state (csr_index (insert_all cap [])) l)
               = map (fun _ => 0) l).
    { intros l Hf. induction Hf as [|q l Hq Hf IH]; [reflexivity|].
      rewrite search_all_cons.
      rewrite (search_empty_index (csr_index (insert_all cap [])) (Some q) 3)
        by (cbn; lia).
      cbn [fst snd map]. f_equal. exact IH. }
    rewrite (Z0 qs Hqs), (Z0 qs' Hqs'). apply Permutation_map. exact Hp.
  - rewrite (search_all_bounded cap (w :: ws) Hws Hn qs Hqs initial_state 1),
      (search_all_bounded cap (w :: ws) Hws Hn qs' Hqs' initial_state 1);
      try lia; try (cbn [length]; lia);
      try (left; cbn [visited_cap initial_state length]; lia).
    apply Permutation_map. exact Hp.
Qed.

Lemma search_all_permutation_witness :
  Permutation
    (snd (search_all initial_state (build_index 1024 dict_ab)
            [query_shift; word_a; query_idle]))
    (snd (search_all initial_state (build_index 1024 dict_ab)
            [query_idle; query_shift; word_a])).
Proof.
  apply search_all_permutation.
  - apply words_over_dec. reflexivity.
  - cbn. lia.
  - apply words_over_dec. reflexivity.
  - cbn. lia.
  - apply Permutation_sym.
    apply (Permutation_cons_app [query_shift; word_a] [] query_idle).
    rewrite app_nil_r. apply Permutation_refl.
Defined.


(** Property X4.  The search never answers 1 without cause, whatever the
    state of the visited-set: if [casefilter_search] with [k = 3] answers 1
    on the finalized index, some word is at Hamming distance at most 3 from
    the query, or at Hamming distance at most 1 after one deletion on each
    side. *)
Theorem search_hit_has_cause (cap : Z) (ws : list (list Z)) (q : list Z)
        (st : SearchState) :
  Forall (word_over 15) ws -> Z.of_nat (length ws) <= 1048576 ->
  word_over 15 q ->
  snd (casefilter_search st (Some (build_index cap ws)) (Some q) 3) = 1 ->
  near_match ws q.
Proof.
  intros Hws Hn Hq. rewrite (build_index_csr cap ws Hws Hn).
  destruct (casefilter_search st (Some (csr_index (insert_all cap ws)))
              (Some q) 3) as [st' r] eqn:E.
  cbn [snd]. intros ->. apply (search_hit_near cap ws q Hws Hn Hq st st' E).
Qed.

(** The fresh search for [query_shift], which answers 1. *)
Lemma search_hit_has_cause_witness :
  snd (casefilter_search initial_state (Some (build_index 1024 dict_ab))
         (Some query_shift) 3) = 1
  /\ near_match dict_ab query_shift.
Proof.
  assert (H : snd (casefilter_search initial_state
                     (Some (build_index 1024 dict_ab)) (Some query_shift) 3)
              = 1)
    by (rewrite dict_ab_index, shift_fresh; reflexivity).
  split; [exact H|].
  apply (search_hit_has_cause 1024 dict_ab query_shift initial_state).
  - apply words_over_dec. reflexivity.
  - cbn. lia.
  - apply word_over_dec. reflexivity.
  - exact H.
Defined.

(** Property X5.  The index written by [casefilter_serialize] loads, and
    the search gives on the loaded index what it gives on the index that
    was written: the same answer and the same next state, for every query
    of 15 characters over [{A..J}], every state and every [k]. *)
Theorem search_on_loaded_index (cap : Z) (ws : list (list Z)) :
  Forall (word_over 15) ws -> Z.of_nat (length ws) <= 1048576 ->
  exists idx',
    casefilter_deserialize (casefilter_serialize (build_index cap ws))
    = Some idx'
    /\ forall q st k,
         word_over 15 q ->
         casefilter_search st (Some idx') (Some q) k
         = casefilter_search st (Some (build_index cap ws)) (Some q) k.
Proof.
  intros Hws Hn. rewrite (build_index_csr cap ws Hws Hn).
  destruct (insert_all_spec cap ws) as [Ec _].
  destruct (deserialize_serialize_from (csr_index (insert_all cap ws)) [])
    as (idx1 & E & _).
  { change (keyword_count (csr_index (insert_all cap ws)))
      with (keyword_count (insert_all cap ws)). lia. }
  { intros i Hi. apply (built_records cap ws Hws).
    change (keyword_count (csr_index (insert_all cap ws)))
      with (keyword_count (insert_all cap ws)) in Hi. lia. }
  { apply built_hindex_ok; assumption. }
  { apply built_dindex_ok; assumption. }
  rewrite app_nil_r in E.
  assert (Ed : casefilter_deserialize
                 (casefilter_serialize (csr_index (insert_all cap ws)))
               = Some idx1)
    by (unfold casefilter_deserialize; rewrite E; reflexivity).
  exists idx1. split; [exact Ed|].
  intros q st k Hq. apply (search_loaded cap ws Hws Hn idx1 q st k Hq Ed).
Qed.

Lemma search_on_loaded_index_witness :
  exists idx',
    casefilter_deserialize (casefilter_serialize (build_index 1024 dict_ab))
    = Some idx'
    /\ casefilter_search initial_state (Some idx') (Some query_near) 3
       = casefilter_search initial_state (Some (build_index 1024 dict_ab))
           (Some query_near) 3.
Proof.
  destruct (search_on_loaded_index 1024 dict_ab) as (idx' & E & H).
  - apply words_over_dec. reflexivity.
  - cbn. lia.
  - exists idx'. split; [exact E|]. apply H. apply word_over_dec. reflexivity.
Defined.



(** Property X7.  On an index without words a fresh process answers 0 to
    every query and its visited-set stays unallocated. *)
Theorem search_empty_dictionary (idx : CaseFilterIndex) (q : option (list Z))
        (k : Z) :
  keyword_count idx <= 0 ->
  casefilter_search initial_state (Some idx) q k = (initial_state, 0).
Proof. apply search_empty_index. Qed.

Lemma search_empty_dictionary_witness :
  casefilter_search initial_state (Some (casefilter_finalize (casefilter_create 8)))
    (Some word_a) 3 = (initial_state, 0).
Proof.
  apply search_empty_dictionary. cbn. lia.
Defined.


(** ** The posting lists of the finalized index *)

Lemma in_run (slots : Z) (ps : list (Z * Z)) (s v : Z) :
  (forall sv, In sv ps -> 0 <= fst sv < slots) ->
  In v (map (fun i => csr_payload slots ps (cnt_lt s ps + i))
            (range (Z.to_nat (cnt s ps))))
  <-> In (s, v) ps.
Proof.
  intros Hin. rewrite in_map_iff. split.
  - intros (i & <- & Hi). apply in_range in Hi.
    apply csr_run_sound; [exact Hin | lia].
  - intros H. destruct (csr_run_complete slots ps s v Hin H) as (i & Hi & E).
    exists i. split; [exact E|]. apply in_range. lia.
Qed.

(** Property X8.  In the finalized index the posting list of a pair slot
    holds exactly the ids of the words one of whose ten block pairs has
    that slot. *)
Theorem pair_table_exact (cap : Z) (ws : list (list Z)) (s id : Z) :
  Forall (word_over 15) ws -> Z.of_nat (length ws) <= 1048576 ->
  0 <= s < 10000000 ->
  (In id (h_run (build_index cap ws) s)
   <-> 0 <= id < Z.of_nat (length ws)
       /\ exists p, 0 <= p < 10
            /\ pair_slot (nth (Z.to_nat id) ws []) p = s).
Proof.
  intros Hws Hn Hs. rewrite (build_index_csr cap ws Hws Hn).
  unfold h_run.
  rewrite csr_h_counts by (apply h_slots_ok; assumption).
  rewrite csr_h_offsets by lia.
  assert (E : map (fun i => h_ids (hidx (csr_index (insert_all cap ws)))
                              (cnt_lt s (h_postings (insert_all cap ws)) + i))
                  (range (Z.to_nat (cnt s (h_postings (insert_all cap ws)))))
              = map (fun i => csr_payload H_SLOTS (h_postings (insert_all cap ws))
                                (cnt_lt s (h_postings (insert_all cap ws)) + i))
                    (range (Z.to_nat (cnt s (h_postings (insert_all cap ws)))))).
  { apply map_ext. intros i. apply csr_h_ids. }
  rewrite E. clear E.
  rewrite (in_run H_SLOTS) by (apply h_postings_in_range; assumption).
  rewrite in_h_postings.
  destruct (insert_all_spec cap ws) as [Ec _]. rewrite Ec, Nat2Z.id.
  split.
  - intros (id' & p & Hid & Hp & E). injection E as -> ->.
    split; [exact Hid|]. exists p. split; [exact Hp|].
    destruct (insert_all_valid cap ws id' Hws Hid) as (Ek & _ & [Lw _] & _).
    unfold pair_slot. rewrite Ek, pair_key_record by assumption. reflexivity.
  - intros (Hid & p & Hp & <-). exists id, p.
    split; [exact Hid|]. split; [exact Hp|].
    destruct (insert_all_valid cap ws id Hws Hid) as (Ek & _ & [Lw _] & _).
    unfold pair_slot. rewrite Ek, pair_key_record by assumption. reflexivity.
Qed.

(** Property X9.  In the finalized index the posting list of a deletion
    slot holds exactly the packed (id, position) entries of the words one
    of whose two halves, after deleting that position, has that key. *)
Theorem deletion_table_exact (cap : Z) (ws : list (list Z)) (s v : Z) :
  Forall (word_over 15) ws -> Z.of_nat (length ws) <= 1048576 ->
  0 <= s < 10000000 ->
  (In v (d_run (build_index cap ws) s)
   <-> exists id pos,
         0 <= id < Z.of_nat (length ws) /\ 0 <= pos < 15
         /\ v = pack_idpos id pos
         /\ (pack_key7 (left7 (remove_at (Z.to_nat pos)
                                 (nth (Z.to_nat id) ws []))) = s
             \/ pack_key7 (right7 (remove_at (Z.to_nat pos)
                                     (nth (Z.to_nat id) ws []))) = s)).
Proof.
  intros Hws Hn Hs. rewrite (build_index_csr cap ws Hws Hn).
  unfold d_run.
  rewrite csr_d_counts by (apply d_slots_ok; assumption).
  rewrite csr_d_offsets by lia.
  assert (E : map (fun i => d_idpos (del7 (csr_index (insert_all cap ws)))
                              (cnt_lt s (d_postings (insert_all cap ws)) + i))
                  (range (Z.to_nat (cnt s (d_postings (insert_all cap ws)))))
              = map (fun i => csr_payload CASEFILTER_DEL_KEY_SPACE
                                (d_postings (insert_all cap ws))
                                (cnt_lt s (d_postings (insert_all cap ws)) + i))
                    (range (Z.to_nat (cnt s (d_postings (insert_all cap ws)))))).
  { apply map_ext. intros i. apply csr_d_idpos. }
  rewrite E. clear E.
  rewrite (in_run CASEFILTER_DEL_KEY_SPACE)
    by (apply d_postings_in_range; assumption).
  rewrite in_d_postings.
  destruct (insert_all_spec cap ws) as [Ec _]. rewrite Ec, Nat2Z.id.
  split.
  - intros (id & pos & Hid & Hpos & E). exists id, pos.
    destruct (insert_all_valid cap ws id Hws Hid) as (Ek & _ & [Lw _] & _).
    rewrite Ek, del_string_record in E by assumption.
    split; [exact Hid|]. split; [exact Hpos|].
    destruct E as [E | E]; injection E as -> ->;
      (split; [reflexivity|]); [left | right]; reflexivity.
  - intros (id & pos & Hid & Hpos & -> & E). exists id, pos.
    destruct (insert_all_valid cap ws id Hws Hid) as (Ek & _ & [Lw _] & _).
    rewrite Ek, del_string_record by assumption.
    split; [exact Hid|]. split; [exact Hpos|].
    destruct E as [<- | <-]; [left | right]; reflexivity.
Qed.


Lemma pair_table_exact_witness :
  In 0 (h_run (build_index 1024 dict_ab) 0)
  <-> 0 <= 0 < Z.of_nat (length dict_ab)
      /\ exists p, 0 <= p < 10 /\ pair_slot (nth (Z.to_nat 0) dict_ab []) p = 0.
Proof.
  apply pair_table_exact.
  - apply words_over_dec. reflexivity.
  - cbn. lia.
  - lia.
Defined.

Lemma deletion_table_exact_witness :
  In 0 (d_run (build_index 1024 dict_ab) 0)
  <-> exists id pos,
        0 <= id < Z.of_nat (length dict_ab) /\ 0 <= pos < 15
        /\ 0 = pack_idpos id pos
        /\ (pack_key7 (left7 (remove_at (Z.to_nat pos)
                                (nth (Z.to_nat id) dict_ab []))) = 0
            \/ pack_key7 (right7 (remove_at (Z.to_nat pos)
                                    (nth (Z.to_nat id) dict_ab []))) = 0).
Proof.
  apply deletion_table_exact.
  - apply words_over_dec. reflexivity.
  - cbn. lia.
  - lia.
Defined.

(** ** Keys are exact *)

Lemma decimal_inj (a b : list Z) :
  Forall is_AJ a -> Forall is_AJ b -> length a = length b ->
  decimal a = decimal b -> a = b.
Proof.
  intros Ha. revert b. induction Ha as [|x a Hx Ha IH]; intros b Hb L E.
  - destruct b; [reflexivity | discriminate].
  - destruct Hb as [|y b Hy Hb]; [discriminate|].
    cbn [decimal] in E. unfold is_AJ in Hx, Hy.
    assert (x = y /\ decimal a = decimal b) as [-> Ed] by lia.
    f_equal. apply IH; [exact Hb | cbn in L; lia | exact Ed].
Qed.

(** Property X10.  Two block pairs of two words have the same slot of the
    pair table only if they are the same pair and the six characters are
    the same: a posting list never mixes keys or pairs. *)
Theorem pair_slot_exact (w w' : list Z) (p p' : Z) :
  word_over 15 w -> word_over 15 w' -> 0 <= p < 10 -> 0 <= p' < 10 ->
  pair_slot w p = pair_slot w' p' ->
  p = p' /\ pair_key w p = pair_key w' p'.
Proof.
  intros Hw Hw' Hp Hp' E.
  destruct (pair_slot_range w p (word_over_valid15 w Hw) Hp) as [E1 B1].
  destruct (pair_slot_range w' p' (word_over_valid15 w' Hw') Hp') as [E2 B2].
  assert (Ep : p = p') by lia. subst p'. split; [reflexivity|].
  destruct (pair_key_valid w p (word_over_valid15 w Hw) Hp) as [F1 L1].
  destruct (pair_key_valid w' p (word_over_valid15 w' Hw') Hp) as [F2 L2].
  apply decimal_inj; [exact F1 | exact F2 | lia | lia].
Qed.

Lemma pair_slot_exact_witness :
  pair_slot query_near 0 = pair_slot word_a 0
  /\ (0 = 0 /\ pair_key query_near 0 = pair_key word_a 0).
Proof.
  assert (E : pair_slot query_near 0 = pair_slot word_a 0)
    by (vm_compute; reflexivity).
  split; [exact E|].
  apply pair_slot_exact.
  - apply word_over_dec. reflexivity.
  - apply word_over_dec. reflexivity.
  - lia.
  - lia.
  - exact E.
Defined.

(** Property X11.  [pack_key6] and [pack_key7] read a key over [{A..J}] as
    a decimal number, least significant digit first: the value is below
    [10^6] (resp. [10^7]) and determines the key. *)
Theorem pack_key_decimal (k6 k6' k7 k7' : list Z) :
  word_over 6 k6 -> word_over 6 k6' -> word_over 7 k7 -> word_over 7 k7' ->
  (pack_key6 k6 = decimal k6 /\ 0 <= pack_key6 k6 < 1000000
   /\ (pack_key6 k6 = pack_key6 k6' -> k6 = k6'))
  /\ (pack_key7 k7 = decimal k7 /\ 0 <= pack_key7 k7 < 10000000
      /\ (pack_key7 k7 = pack_key7 k7' -> k7 = k7')).
Proof.
  intros [L6 F6] [L6' F6'] [L7 F7] [L7' F7'].
  destruct (pack_key6_range k6 F6 L6) as [E6 B6].
  destruct (pack_key6_range k6' F6' L6') as [E6' _].
  destruct (pack_key7_range k7 F7 L7) as [E7 B7].
  destruct (pack_key7_range k7' F7' L7') as [E7' _].
  rewrite E6, E6', E7, E7'.
  split; (split; [reflexivity|]); (split; [assumption|]); intros E;
    apply decimal_inj; assumption || lia.
Qed.

Lemma pack_key_decimal_witness :
  pack_key6 (chars "JABCDE") = 432109
  /\ pack_key7 (chars "BCDEFGH") = 7654321.
Proof.
  assert (H6 : word_over 6 (chars "JABCDE")) by (apply word_over_dec; reflexivity).
  assert (H7 : word_over 7 (chars "BCDEFGH")) by (apply word_over_dec; reflexivity).
  destruct (pack_key_decimal (chars "JABCDE") (chars "JABCDE")
              (chars "BCDEFGH") (chars "BCDEFGH") H6 H6 H7 H7)
    as ((E6 & _) & (E7 & _)).
  split; [exact E6 | exact E7].
Defined.


(** ** The theorems at concrete inputs *)



(** Removing the [D] of [word_b]. *)
Lemma deletion_identity_witness :
  word_over 15 word_b /\ (3 < 15)%nat
  /\ casefilter_pack_delete (pack_keyword word_b) 3
     = encode (chars "ABCEFGHIJABCDE")
  /\ 0 <= encode (chars "ABCEFGHIJABCDE") < 2 ^ 56.
Proof.
  assert (Hw : word_over 15 word_b) by (apply word_over_dec; reflexivity).
  split; [exact Hw|]. split; [lia|].
  exact (deletion_identity word_b 3 Hw ltac:(lia)).
Defined.

(** The rotated query against [word_b], two 14-character words, and the
    deletion pair that aligns the rotated query with [word_b]. *)
Lemma swar_hamming_correct_witness :
  hamming_packed15 (pack_keyword query_shift) (pack_keyword word_b) = 15
  /\ hamming_packed14 (encode (chars "AAAAAAAAAAAAAA"))
                      (encode (chars "ABABABABABABAB")) = 7
  /\ hamming_packed14 (casefilter_pack_delete (pack_keyword query_shift) 14)
                      (casefilter_pack_delete (pack_keyword word_b) 0) = 0.
Proof.
  assert (Ha : word_over 15 query_shift) by (apply word_over_dec; reflexivity).
  assert (Hb : word_over 15 word_b) by (apply word_over_dec; reflexivity).
  assert (Hu : word_over 14 (chars "AAAAAAAAAAAAAA"))
    by (apply word_over_dec; reflexivity).
  assert (Hv : word_over 14 (chars "ABABABABABABAB"))
    by (apply word_over_dec; reflexivity).
  exact (swar_hamming_correct query_shift word_b
           (chars "AAAAAAAAAAAAAA") (chars "ABABABABABABAB") 14 0
           Ha Hb Hu Hv ltac:(lia) ltac:(lia)).
Defined.

(** The two tables of the index of [word_a] and [word_b] hold 20 and 60
    postings. *)
Lemma csr_invariants_after_finalize_witness :
  Forall (word_over 15) dict_ab /\ Z.of_nat (length dict_ab) <= 1048576
  /\ h_offsets (hidx (build_index 1024 dict_ab)) 10000000 = 20
  /\ d_offsets (del7 (build_index 1024 dict_ab)) 10000000 = 60.
Proof.
  assert (Hws : Forall (word_over 15) dict_ab)
    by (apply words_over_dec; reflexivity).
  assert (Hn : Z.of_nat (length dict_ab) <= 1048576) by (cbn; lia).
  split; [exact Hws|]. split; [exact Hn|].
  destruct (csr_invariants_after_finalize 1024 dict_ab Hws Hn)
    as ((_ & _ & _ & Hh & _) & (_ & _ & _ & Hd & _)).
  split; [exact Hh | exact Hd].
Defined.

(** The fresh search for [query_shift] answers 1, and [word_b] is within
    distance 3 of it. *)
Lemma search_soundness_witness :
  casefilter_search initial_state (Some (build_index 1024 dict_ab))
    (Some query_shift) 3
  = (mkState (Some (upd zeros 1 3)) 2 3, 1)
  /\ exists w, In w dict_ab /\ (levenshtein query_shift w <= 3)%nat.
Proof.
  assert (Hws : Forall (word_over 15) dict_ab)
    by (apply words_over_dec; reflexivity).
  assert (Hn : Z.of_nat (length dict_ab) <= 1048576) by (cbn; lia).
  assert (Hq : word_over 15 query_shift) by (apply word_over_dec; reflexivity).
  assert (H : casefilter_search initial_state (Some (build_index 1024 dict_ab))
                (Some query_shift) 3
              = (mkState (Some (upd zeros 1 3)) 2 3, 1))
    by (rewrite dict_ab_index; apply shift_fresh).
  split; [exact H|].
  exact (search_soundness 1024 dict_ab query_shift initial_state _ Hws Hn Hq H).
Defined.

Lemma serialize_deserialize_round_trip_witness :
  Forall (word_over 15) dict_ab /\ Z.of_nat (length dict_ab) <= 1048576
  /\ exists idx',
       casefilter_deserialize (casefilter_serialize (build_index 1024 dict_ab))
       = Some idx'
       /\ keyword_count idx' = 2
       /\ keywords idx' 1 = keywords (build_index 1024 dict_ab) 1
       /\ h_key_space (hidx idx') = 1000000
       /\ d_key_space (del7 idx') = 10000000.
Proof.
  assert (Hws : Forall (word_over 15) dict_ab)
    by (apply words_over_dec; reflexivity).
  assert (Hn : Z.of_nat (length dict_ab) <= 1048576) by (cbn; lia).
  split; [exact Hws|]. split; [exact Hn|].
  destruct (serialize_deserialize_round_trip 1024 dict_ab Hws Hn)
    as (idx' & E & _ & En & Ek & (Eh & _) & (Ed & _)).
  exists idx'. split; [exact E|]. split; [exact En|].
  split; [apply Ek; cbn; lia|]. split; [exact Eh | exact Ed].
Defined.

(** On the index of the single word [A^15] and the query
    [AAAAAAAAABBBBBB]: pair 2 has an empty run and is skipped, and the
    probes at places 7 and 8 of the order are in ascending length. *)
Lemma phase_a_probes_ascending_witness :
  let idx := build_index 1 [chars "AAAAAAAAAAAAAAA"] in
  let q := chars "AAAAAAAAABBBBBB" in
  pair_len idx q 2 = 0
  /\ (forall k g visited, probe_pair idx q k g 2 visited = (visited, None))
  /\ pair_len idx q (nth 7 (probe_order idx q) 0)
     <= pair_len idx q (nth 8 (probe_order idx q) 0).
Proof.
  cbv zeta. rewrite build_index_small by (vm_compute; reflexivity).
  pose proof (phase_a_probes_ascending
                (csr_index (insert_all 1 [chars "AAAAAAAAAAAAAAA"]))
                (chars "AAAAAAAAABBBBBB")) as H.
  cbv zeta in H. destruct H as (_ & Hskip & _ & _ & _ & Hasc).
  assert (E : pair_len (csr_index (insert_all 1 [chars "AAAAAAAAAAAAAAA"]))
                (chars "AAAAAAAAABBBBBB") 2 = 0) by (vm_compute; reflexivity).
  split; [exact E|].
  split; [intros k g visited; apply Hskip; exact E|].
  apply Hasc. lia.
Defined.
